(** * mapkhacon: dictionary-driven word segmentation

    A shallow embedding of the segmentation engine of the Go sources
    ([MakePrefixTree] of prefixtree.go and of main.go, [LoadDict] of
    dict.go and of main.go, [IsSpace], [IsLatin], [Segmenter.BuildPath]
    and [Segmenter.Segment] of main.go, and the free-standing [BuildPath],
    [PathToRanges] and [Segment] with typed edges) together with the
    properties of it that the specification states, and further ones.

    Conventions of the embedding.
    - A Go [int] is a [Z].  Every integer the segmenter computes is an
      index into, or a count bounded by, the edge array of the current
      line ([scan_inv], [edges_counts]), so 64-bit wrap-around is never
      reached and is left out.
    - A [rune] is a [Z], and a line handed to [Segmenter.Segment] is the
      list of its codepoints, as in the source; the free-standing
      [Segment] takes the line as a Go string, a sequence of bytes.  A
      word of the word list is a Go string.  It comes in two forms: as the sequence of its bytes, which
      [sort.Strings] compares and [[]rune(word)] decodes ([runes], the
      module [Bytes]), and as the sequence of its codepoints.  The two
      forms give the same trie on well-formed UTF-8 ([MakePrefixTree_utf8]),
      where the bytewise order is the lexicographic order on codepoints
      ([string_le_utf8]); on ill-formed words only the first is right.
    - A Go map is a [gmap]; a Go slice is a [slice]: either the nil slice
      or a list of elements.  Indexing out of range panics in Go; every
      indexing operation of the model returns [None] for a panic. *)

From stdpp Require Import base option numbers list sorting gmap.

Local Open Scope Z_scope.

(** ** Data model *)

Abbreviation rune := Z (only parsing).

(** [type Edge struct { S, WordCount, UnkCount int }] *)
Module Edge.
Record t : Type := mk { S : Z; WordCount : Z; UnkCount : Z }.
End Edge.

(** [type DictBuilderPointer struct { NodeID, Offset int; IsFinal bool }] *)
Module DictBuilderPointer.
Record t : Type := mk { NodeID : Z; Offset : Z; IsFinal : bool }.
End DictBuilderPointer.

(** [type PrefixTreeNode struct { NodeID, Offset int; Ch rune }] *)
Module PrefixTreeNode.
Record t : Type := mk { NodeID : Z; Offset : Z; Ch : rune }.

Definition to_tuple (n : t) : Z * Z * Z := (NodeID n, Offset n, Ch n).
Definition of_tuple (x : Z * Z * Z) : t := mk x.1.1 x.1.2 x.2.

#[global] Instance eq_dec : EqDecision t.
Proof. solve_decision. Defined.

#[global] Instance countable : Countable t.
Proof. apply (inj_countable' to_tuple of_tuple). by intros []. Defined.
End PrefixTreeNode.

(** [type PrefixTreePointer struct { ChildID int; IsFinal bool }] *)
Module PrefixTreePointer.
Record t : Type := mk { ChildID : Z; IsFinal : bool }.
End PrefixTreePointer.

(** [type PrefixTree map[PrefixTreeNode]PrefixTreePointer] *)
Abbreviation PrefixTree := (gmap PrefixTreeNode.t PrefixTreePointer.t).

(** ** Codepoint classifier *)

(** [IsSpace]: space, newline, tab, double quote, parentheses and the two
    curly double quotes U+201C, U+201D. *)
Definition IsSpace (ch : rune) : bool :=
  (ch =? 32) || (ch =? 10) || (ch =? 9) || (ch =? 34) ||
  (ch =? 40) || (ch =? 41) || (ch =? 8220) || (ch =? 8221).

(** [IsLatin]: 'A'..'Z' or 'a'..'z'. *)
Definition IsLatin (ch : rune) : bool :=
  ((65 <=? ch) && (ch <=? 90)) || ((97 <=? ch) && (ch <=? 122)).

(** The third class of the scan: what [BuildPath] reaches in its final
    [else] branch. *)
Definition IsText (ch : rune) : bool := negb (IsLatin ch) && negb (IsSpace ch).

(** ** Prefix tree construction *)

(** Lexicographic "less or equal" on sequences of integers.  On the bytes
    of two Go strings this is the order of [sort.Strings]; on the
    codepoints of two well-formed UTF-8 strings it is the same order. *)
Fixpoint string_le (a b : list rune) : bool :=
  match a, b with
  | [], _ => true
  | _ :: _, [] => false
  | x :: a', y :: b' => (x <? y) || ((x =? y) && string_le a' b')
  end.

Fixpoint sort_insert (w : list rune) (ws : list (list rune)) : list (list rune) :=
  match ws with
  | [] => [w]
  | v :: ws' => if string_le w v then w :: ws else v :: sort_insert w ws'
  end.

(** [sort.Strings]: the sorted permutation of the word list (equal words
    are indistinguishable, so the sorting algorithm does not matter).  The
    words are sequences of bytes in the module [Bytes], and sequences of
    codepoints, standing for well-formed UTF-8 strings, elsewhere. *)
Definition sort_Strings (ws : list (list rune)) : list (list rune) :=
  foldr sort_insert [] ws.

(** The inner loop [for j, ch := range runes] of [MakePrefixTree] for the
    word of index [i] and length [len], at position [j] in row [rowNo]. *)
Fixpoint insert_runes (tab : PrefixTree) (i len rowNo j : Z) (runes : list rune)
  : PrefixTree :=
  match runes with
  | [] => tab
  | ch :: rest =>
      let isFinal := (j + 1 =? len) in
      let node := PrefixTreeNode.mk rowNo j ch in
      match tab !! node with
      | None =>
          insert_runes (<[node := PrefixTreePointer.mk i isFinal]> tab)
                       i len i (j + 1) rest
      | Some child =>
          insert_runes tab i len (PrefixTreePointer.ChildID child) (j + 1) rest
      end
  end.

(** The outer loop [for i, wordWithPayload := range wordsWithPayload]. *)
Fixpoint insert_words (tab : PrefixTree) (i : Z) (words : list (list rune))
  : PrefixTree :=
  match words with
  | [] => tab
  | word :: rest =>
      insert_words (insert_runes tab i (Z.of_nat (length word)) 0 0 word)
                   (i + 1) rest
  end.

(** [MakePrefixTree] of prefixtree.go: sort, then insert word by word.
    The words are given by their codepoints. *)
Definition MakePrefixTree (wordsWithPayload : list (list rune)) : PrefixTree :=
  insert_words ∅ 0 (sort_Strings wordsWithPayload).

(** [MakeDict] of dict.go. *)
Definition MakeDict (words : list (list rune)) : PrefixTree := MakePrefixTree words.

(** The loop [for scanner.Scan()] of [LoadDict]: of the lines that the
    scanner yields, those of non-zero length are kept, in order. *)
Definition wordLines (lines : list (list rune)) : list (list rune) :=
  filter (fun line => length line <> 0%nat) lines.

(** [LoadDict] of dict.go, from the lines of the opened file. *)
Definition LoadDict (lines : list (list rune)) : PrefixTree :=
  MakePrefixTree (wordLines lines).

(** Package main has its own [MakePrefixTree], which does not sort, and
    its own [LoadDict], which sorts before it calls [MakePrefixTree]. *)
Module Main.
Definition MakePrefixTree (wordsWithPayload : list (list rune)) : PrefixTree :=
  insert_words ∅ 0 wordsWithPayload.

Definition LoadDict (lines : list (list rune)) : PrefixTree :=
  MakePrefixTree (sort_Strings (wordLines lines)).
End Main.

(** ** Go strings *)

(** A Go string is a sequence of bytes, each a [Z] from 0 to 255.
    [[]rune(word)] decodes it as UTF-8: one to four bytes that make a
    well-formed sequence give one codepoint; a byte that starts no
    well-formed sequence gives U+FFFD, and the decoding goes on at the
    next byte.  The shifts and masks of the decoder are written as
    products and differences, which they are on the bytes let in. *)
Definition RuneError : rune := 65533.

(** A continuation byte: 0x80 to 0xBF. *)
Definition isCont (b : Z) : bool := (128 <=? b) && (b <=? 191).

(** The second bytes that the first byte of a three-byte sequence lets
    in: no overlong form after 0xE0, no surrogate after 0xED. *)
Definition second3 (b0 b1 : Z) : bool :=
  if b0 =? 224 then (160 <=? b1) && (b1 <=? 191)
  else if b0 =? 237 then (128 <=? b1) && (b1 <=? 159)
  else (225 <=? b0) && (b0 <=? 239) && isCont b1.

(** The second bytes that the first byte of a four-byte sequence lets in:
    no overlong form after 0xF0, nothing above U+10FFFF after 0xF4. *)
Definition second4 (b0 b1 : Z) : bool :=
  if b0 =? 240 then (144 <=? b1) && (b1 <=? 191)
  else if b0 =? 244 then (128 <=? b1) && (b1 <=? 143)
  else (241 <=? b0) && (b0 <=? 243) && isCont b1.

(** [runes := []rune(word)] *)
Fixpoint runes (s : list Z) : list rune :=
  match s with
  | [] => []
  | b0 :: s1 =>
      if b0 <? 128 then b0 :: runes s1
      else
        match s1 with
        | b1 :: s2 =>
            if (194 <=? b0) && (b0 <=? 223) && isCont b1
            then ((b0 - 192) * 64 + (b1 - 128)) :: runes s2
            else
              match s2 with
              | b2 :: s3 =>
                  if second3 b0 b1 && isCont b2
                  then ((b0 - 224) * 4096 + (b1 - 128) * 64 + (b2 - 128)) :: runes s3
                  else
                    match s3 with
                    | b3 :: s4 =>
                        if second4 b0 b1 && isCont b2 && isCont b3
                        then ((b0 - 240) * 262144 + (b1 - 128) * 4096
                              + (b2 - 128) * 64 + (b3 - 128)) :: runes s4
                        else RuneError :: runes s1
                    | [] => RuneError :: runes s1
                    end
              | [] => RuneError :: runes s1
              end
        | [] => RuneError :: runes s1
        end
  end.

(** The functions that take the word list, on the words as the bytes
    they are: [sort.Strings] orders the bytes, and the loop over the
    words decodes each word before it inserts it. *)
Module Bytes.
Definition MakePrefixTree (wordsWithPayload : list (list Z)) : PrefixTree :=
  insert_words ∅ 0 (runes <$> sort_Strings wordsWithPayload).

Definition MakeDict (words : list (list Z)) : PrefixTree := MakePrefixTree words.

Definition LoadDict (lines : list (list Z)) : PrefixTree :=
  MakePrefixTree (wordLines lines).

Module Main.
Definition MakePrefixTree (wordsWithPayload : list (list Z)) : PrefixTree :=
  insert_words ∅ 0 (runes <$> wordsWithPayload).

Definition LoadDict (lines : list (list Z)) : PrefixTree :=
  MakePrefixTree (sort_Strings (wordLines lines)).
End Main.
End Bytes.


(** ** Slices *)

(** A Go slice: [SNil] is the nil slice, [SData l] a non-nil slice whose
    elements are [l].  Capacity is not modelled: no two slices of the
    segmenter share a backing array. *)
Inductive slice (A : Type) : Type :=
| SNil
| SData (l : list A).
Arguments SNil {A}.
Arguments SData {A} l.

Definition elems {A} (s : slice A) : list A :=
  match s with SNil => [] | SData l => l end.

(** [len(s)] *)
Definition slice_len {A} (s : slice A) : Z := Z.of_nat (length (elems s)).

(** [s[k]] as a value; panics unless [0 <= k < len(s)]. *)
Definition slice_get {A} (s : slice A) (k : Z) : option A :=
  if bool_decide (0 <= k < slice_len s) then elems s !! Z.to_nat k else None.

(** [s[k] = v]; panics unless [0 <= k < len(s)]. *)
Definition slice_set {A} (s : slice A) (k : Z) (v : A) : option (slice A) :=
  if bool_decide (0 <= k < slice_len s)
  then Some (SData (<[Z.to_nat k := v]> (elems s)))
  else None.

(** [append(s, v)] *)
Definition slice_append {A} (s : slice A) (v : A) : slice A :=
  SData (elems s ++ [v]).

(** [s[:n]] for [n] within the length; the nil slice stays nil. *)
Definition slice_take {A} (s : slice A) (n : Z) : option (slice A) :=
  if bool_decide (0 <= n <= slice_len s)
  then Some (match s with SNil => SNil | SData l => SData (take (Z.to_nat n) l) end)
  else None.

(** [s[lo:hi]] of a non-nil rune slice, as the list of its elements; the
    model panics unless [0 <= lo <= hi <= len(s)]. *)
Definition slice_range {A} (l : list A) (lo hi : Z) : option (list A) :=
  if bool_decide (0 <= lo <= hi /\ hi <= Z.of_nat (length l))
  then Some (take (Z.to_nat (hi - lo)) (drop (Z.to_nat lo) l))
  else None.

(** [make([]T, n)]: [n] zero values; panics on a negative length. *)
Definition slice_make {A} (zero : A) (n : Z) : option (slice A) :=
  if bool_decide (0 <= n) then Some (SData (replicate (Z.to_nat n) zero)) else None.

(** ** The segmenter *)

Module Segmenter.
Record t : Type := mk {
  dict : PrefixTree;
  path : slice Edge.t;
  leftBoundary : Z;
  startLatin : Z;
  foundLatin : bool;
  startSpace : Z;
  foundSpace : bool;
  bestEdge : Edge.t;
  foundBestEdge : bool;
  pointers : slice DictBuilderPointer.t;
  length : Z
}.

(** Field assignments [sm.f = v]. *)
Definition set_path v sm :=
  mk (dict sm) v (leftBoundary sm) (startLatin sm) (foundLatin sm) (startSpace sm)
     (foundSpace sm) (bestEdge sm) (foundBestEdge sm) (pointers sm) (length sm).
Definition set_leftBoundary v sm :=
  mk (dict sm) (path sm) v (startLatin sm) (foundLatin sm) (startSpace sm)
     (foundSpace sm) (bestEdge sm) (foundBestEdge sm) (pointers sm) (length sm).
Definition set_startLatin v sm :=
  mk (dict sm) (path sm) (leftBoundary sm) v (foundLatin sm) (startSpace sm)
     (foundSpace sm) (bestEdge sm) (foundBestEdge sm) (pointers sm) (length sm).
Definition set_foundLatin v sm :=
  mk (dict sm) (path sm) (leftBoundary sm) (startLatin sm) v (startSpace sm)
     (foundSpace sm) (bestEdge sm) (foundBestEdge sm) (pointers sm) (length sm).
Definition set_startSpace v sm :=
  mk (dict sm) (path sm) (leftBoundary sm) (startLatin sm) (foundLatin sm) v
     (foundSpace sm) (bestEdge sm) (foundBestEdge sm) (pointers sm) (length sm).
Definition set_foundSpace v sm :=
  mk (dict sm) (path sm) (leftBoundary sm) (startLatin sm) (foundLatin sm)
     (startSpace sm) v (bestEdge sm) (foundBestEdge sm) (pointers sm) (length sm).
Definition set_bestEdge v sm :=
  mk (dict sm) (path sm) (leftBoundary sm) (startLatin sm) (foundLatin sm)
     (startSpace sm) (foundSpace sm) v (foundBestEdge sm) (pointers sm) (length sm).
Definition set_foundBestEdge v sm :=
  mk (dict sm) (path sm) (leftBoundary sm) (startLatin sm) (foundLatin sm)
     (startSpace sm) (foundSpace sm) (bestEdge sm) v (pointers sm) (length sm).
Definition set_pointers v sm :=
  mk (dict sm) (path sm) (leftBoundary sm) (startLatin sm) (foundLatin sm)
     (startSpace sm) (foundSpace sm) (bestEdge sm) (foundBestEdge sm) v (length sm).
Definition set_length v sm :=
  mk (dict sm) (path sm) (leftBoundary sm) (startLatin sm) (foundLatin sm)
     (startSpace sm) (foundSpace sm) (bestEdge sm) (foundBestEdge sm) (pointers sm) v.

(** [&Segmenter{dict: dict}]: every other field has its zero value. *)
Definition new (d : PrefixTree) : t :=
  mk d SNil 0 0 false 0 false (Edge.mk 0 0 0) false SNil 0.
End Segmenter.

Import Segmenter (set_path, set_leftBoundary, set_startLatin, set_foundLatin,
  set_startSpace, set_foundSpace, set_bestEdge, set_foundBestEdge, set_pointers,
  set_length).

Arguments Segmenter.set_path _ _ /.
Arguments Segmenter.set_leftBoundary _ _ /.
Arguments Segmenter.set_startLatin _ _ /.
Arguments Segmenter.set_foundLatin _ _ /.
Arguments Segmenter.set_startSpace _ _ /.
Arguments Segmenter.set_foundSpace _ _ /.
Arguments Segmenter.set_bestEdge _ _ /.
Arguments Segmenter.set_foundBestEdge _ _ /.
Arguments Segmenter.set_pointers _ _ /.
Arguments Segmenter.set_length _ _ /.

(** [Edge{}] and [DictBuilderPointer{}] *)
Definition zeroEdge : Edge.t := Edge.mk 0 0 0.
Definition zeroPointer : DictBuilderPointer.t := DictBuilderPointer.mk 0 0 false.

(** The recurring
    [source := sm.path[s]; Edge{S: s, WordCount: source.WordCount + 1,
    UnkCount: source.UnkCount}]. *)
Definition edgeFrom (sm : Segmenter.t) (s : Z) : option Edge.t :=
  source ← slice_get (Segmenter.path sm) s;
  Some (Edge.mk s (Edge.WordCount source + 1) (Edge.UnkCount source)).

(** [if sm.foundSpace { sm.path[i] = Edge{...}; sm.foundSpace = false;
    sm.leftBoundary = i }] *)
Definition flushSpace (sm : Segmenter.t) (i : Z) : option Segmenter.t :=
  if Segmenter.foundSpace sm then
    e ← edgeFrom sm (Segmenter.startSpace sm);
    p ← slice_set (Segmenter.path sm) i e;
    Some (set_leftBoundary i (set_foundSpace false (set_path p sm)))
  else Some sm.

(** [if sm.foundLatin { sm.path[i] = Edge{...}; sm.foundLatin = false;
    sm.leftBoundary = i }] *)
Definition flushLatin (sm : Segmenter.t) (i : Z) : option Segmenter.t :=
  if Segmenter.foundLatin sm then
    e ← edgeFrom sm (Segmenter.startLatin sm);
    p ← slice_set (Segmenter.path sm) i e;
    Some (set_leftBoundary i (set_foundLatin false (set_path p sm)))
  else Some sm.

(** [if !sm.foundLatin { sm.startLatin = i; sm.foundLatin = true }] *)
Definition openLatin (sm : Segmenter.t) (i : Z) : Segmenter.t :=
  if negb (Segmenter.foundLatin sm)
  then set_foundLatin true (set_startLatin i sm)
  else sm.

(** [if !sm.foundSpace { sm.startSpace = i; sm.foundSpace = true }] *)
Definition openSpace (sm : Segmenter.t) (i : Z) : Segmenter.t :=
  if negb (Segmenter.foundSpace sm)
  then set_foundSpace true (set_startSpace i sm)
  else sm.

(** [if i == sm.length-1 { ... sm.foundBestEdge = true; sm.foundLatin = false }] *)
Definition closeLatin (sm : Segmenter.t) (i : Z) : option Segmenter.t :=
  if i =? Segmenter.length sm - 1 then
    e ← edgeFrom sm (Segmenter.startLatin sm);
    Some (set_foundLatin false (set_foundBestEdge true (set_bestEdge e sm)))
  else Some sm.

(** [if i == sm.length-1 { ... sm.foundBestEdge = true; sm.foundSpace = false }] *)
Definition closeSpace (sm : Segmenter.t) (i : Z) : option Segmenter.t :=
  if i =? Segmenter.length sm - 1 then
    e ← edgeFrom sm (Segmenter.startSpace sm);
    Some (set_foundSpace false (set_foundBestEdge true (set_bestEdge e sm)))
  else Some sm.

(** The compaction loop [for j, _ := range sm.pointers] over the [todo]
    remaining indices, written in place as in the source: the pointer at
    [j] is read, advanced through the dictionary on [ch] and, when the
    transition exists, stored at [newIndex]. *)
Fixpoint compactPointers (d : PrefixTree) (ch : rune)
    (ptrs : slice DictBuilderPointer.t) (j newIndex : Z) (todo : nat)
  : option (slice DictBuilderPointer.t * Z) :=
  match todo with
  | O => Some (ptrs, newIndex)
  | S todo' =>
      p ← slice_get ptrs j;
      match d !! PrefixTreeNode.mk (DictBuilderPointer.NodeID p)
                                   (DictBuilderPointer.Offset p) ch with
      | None => compactPointers d ch ptrs (j + 1) newIndex todo'
      | Some childNode =>
          let p' := DictBuilderPointer.mk (PrefixTreePointer.ChildID childNode)
                                          (DictBuilderPointer.Offset p + 1)
                                          (PrefixTreePointer.IsFinal childNode) in
          ptrs' ← slice_set ptrs newIndex p';
          compactPointers d ch ptrs' (j + 1) (newIndex + 1) todo'
      end
  end.

(** [sm.pointers = append(sm.pointers, DictBuilderPointer{})], the
    compaction loop, and [sm.pointers = sm.pointers[:newIndex]]. *)
Definition advancePointers (sm : Segmenter.t) (ch : rune) : option Segmenter.t :=
  let ptrs := slice_append (Segmenter.pointers sm) zeroPointer in
  '(ptrs', newIndex) ← compactPointers (Segmenter.dict sm) ch ptrs 0 0
                          (length (elems ptrs));
  ptrs'' ← slice_take ptrs' newIndex;
  Some (set_pointers ptrs'' sm).

(** The tie-break of the candidate loop: [edge] replaces [sm.bestEdge]. *)
Definition supersedes (edge best : Edge.t) : bool :=
  (Edge.UnkCount edge <? Edge.UnkCount best) ||
  ((Edge.UnkCount edge =? Edge.UnkCount best) &&
   (Edge.WordCount edge <=? Edge.WordCount best)).

(** One iteration of [for _, pointer := range sm.pointers]. *)
Definition considerPointer (sm : Segmenter.t) (i : Z)
    (pointer : DictBuilderPointer.t) : option Segmenter.t :=
  if DictBuilderPointer.IsFinal pointer then
    edge ← edgeFrom sm (1 + i - DictBuilderPointer.Offset pointer);
    if negb (Segmenter.foundBestEdge sm) then
      Some (set_foundBestEdge true (set_bestEdge edge sm))
    else if supersedes edge (Segmenter.bestEdge sm) then
      Some (set_foundBestEdge true (set_bestEdge edge sm))
    else Some sm
  else Some sm.

(** [for _, pointer := range sm.pointers { ... }] *)
Fixpoint chooseDictEdge (sm : Segmenter.t) (i : Z)
    (ptrs : list DictBuilderPointer.t) : option Segmenter.t :=
  match ptrs with
  | [] => Some sm
  | pointer :: rest =>
      sm' ← considerPointer sm i pointer;
      chooseDictEdge sm' i rest
  end.

(** The tail of the loop body: the unknown fallback or the advance of
    [leftBoundary], then [sm.path[i+1] = sm.bestEdge]. *)
Definition commitEdge (sm : Segmenter.t) (i : Z) : option Segmenter.t :=
  sm' ← (if negb (Segmenter.foundBestEdge sm) then
           source ← slice_get (Segmenter.path sm) (Segmenter.leftBoundary sm);
           Some (set_foundBestEdge true
                  (set_bestEdge (Edge.mk (Segmenter.leftBoundary sm)
                                         (Edge.WordCount source + 1)
                                         (Edge.UnkCount source + 1)) sm))
         else Some (set_leftBoundary (i + 1) sm));
  p ← slice_set (Segmenter.path sm') (i + 1) (Segmenter.bestEdge sm');
  Some (set_path p sm').

(** The body of [for i, ch := range line]. *)
Definition scanRune (sm : Segmenter.t) (i : Z) (ch : rune) : option Segmenter.t :=
  let sm := set_foundBestEdge false (set_bestEdge (Edge.mk 0 0 0) sm) in
  sm' ← (if IsLatin ch then
           sm1 ← flushSpace sm i;
           closeLatin (openLatin sm1 i) i
         else if IsSpace ch then
           sm1 ← flushLatin sm i;
           closeSpace (openSpace sm1 i) i
         else
           sm1 ← flushSpace sm i;
           sm2 ← flushLatin sm1 i;
           sm3 ← advancePointers sm2 ch;
           chooseDictEdge sm3 i (elems (Segmenter.pointers sm3)));
  commitEdge sm' i.

(** [for i, ch := range line], from index [i] on. *)
Fixpoint scanFrom (sm : Segmenter.t) (i : Z) (line : list rune)
  : option Segmenter.t :=
  match line with
  | [] => Some sm
  | ch :: rest =>
      sm' ← scanRune sm i ch;
      scanFrom sm' (i + 1) rest
  end.

(** The reset block that opens [BuildPath]. *)
Definition resetScratch (sm : Segmenter.t) (line : list rune) : option Segmenter.t :=
  let sm := set_length (Z.of_nat (length line)) sm in
  p ← match Segmenter.path sm with
      | SNil => slice_make zeroEdge (Segmenter.length sm + 1)
      | SData _ =>
          p0 ← slice_take (Segmenter.path sm) 0;
          Some (Nat.iter (Z.to_nat (Segmenter.length sm + 1))
                         (fun p => slice_append p zeroEdge) p0)
      end;
  let sm := set_path p sm in
  let sm := set_leftBoundary 0 sm in
  let sm := set_startLatin 0 sm in
  let sm := set_foundLatin false sm in
  let sm := set_startSpace 0 sm in
  match Segmenter.pointers sm with
  | SNil => Some sm
  | SData _ =>
      ptrs ← slice_take (Segmenter.pointers sm) 0;
      Some (set_pointers ptrs sm)
  end.

(** [func (sm *Segmenter) BuildPath(line []rune)] *)
Definition BuildPath (sm : Segmenter.t) (line : list rune) : option Segmenter.t :=
  sm' ← resetScratch sm line;
  scanFrom sm' 0 line.

(** The loop [for e > 0] of [Segment].  The index [i] goes down by one in
    each round and [tokens[i]] panics below zero, so the loop makes at
    most [len(tokens) + 1] rounds: [rounds] is that bound. *)
Fixpoint collectTokens (rounds : nat) (path : slice Edge.t) (textRunes : list rune)
    (tokens : slice (list rune)) (e i : Z) : option (slice (list rune) * Z) :=
  if 0 <? e then
    match rounds with
    | O => None
    | S rounds' =>
        edge ← slice_get path e;
        let s := Edge.S edge in
        tok ← slice_range textRunes s e;
        tokens' ← slice_set tokens i tok;
        collectTokens rounds' path textRunes tokens' s (i - 1)
    end
  else Some (tokens, i).

(** [func (sm *Segmenter) Segment(textRunes []rune) []string]: the tokens,
    and the segmenter as the call leaves it. *)
Definition Segment (sm : Segmenter.t) (textRunes : list rune)
  : option (list (list rune) * Segmenter.t) :=
  sm' ← BuildPath sm textRunes;
  let l := slice_len (Segmenter.path sm') in
  tokens ← slice_make [] l;
  let e := l - 1 in
  let i := e in
  _ ← slice_get (Segmenter.path sm') e;
  '(tokens', i') ← collectTokens (Z.to_nat l + 1) (Segmenter.path sm') textRunes
                      tokens e i;
  out ← slice_range (elems tokens') (i' + 1) (slice_len tokens');
  Some (out, sm').

(** [segment(line, trie)] of the specification: one call on a segmenter
    that was just made for the trie. *)
Definition segment (line : list rune) (trie : PrefixTree) : option (list (list rune)) :=
  fst <$> Segment (Segmenter.new trie) line.

(** ** The free-standing version, with typed edges *)

(** [BuildPath], [PathToRanges] and [Segment] as free functions: the
    scratch state of the scan is local to [BuildPath], the tentative best
    edge is a pointer, and every edge records how it was made.  The line
    is a Go string, given by its bytes: [utf8.RuneCountInString(line)]
    counts, [for _, ch := range line] yields and [[]rune(line)] holds the
    codepoints [runes line]. *)
Module Typed.

(** [type Etype int] and its constants.  The zero value of an [Etype],
    which [make] gives to every entry, is none of them. *)
Definition DICT : Z := 1.
Definition UNK : Z := 2.
Definition INIT : Z := 3.
Definition LATIN : Z := 4.
Definition SPACE : Z := 5.

(** [type Edge struct { S int; EdgeType Etype; WordCount, UnkCount int }] *)
Module Edge.
Record t : Type := mk { S : Z; EdgeType : Z; WordCount : Z; UnkCount : Z }.
End Edge.

(** [type TextRange struct { s, e int }] *)
Module TextRange.
Record t : Type := mk { s : Z; e : Z }.
End TextRange.

(** The variables of [BuildPath]; [bestEdge] is [None] for the nil
    pointer. *)
Module Locals.
Record t : Type := mk {
  path : slice Edge.t;
  leftBoundary : Z;
  startLatin : Z;
  foundLatin : bool;
  startSpace : Z;
  foundSpace : bool;
  bestEdge : option Edge.t;
  pointers : slice DictBuilderPointer.t
}.

Definition set_path v st :=
  mk v (leftBoundary st) (startLatin st) (foundLatin st) (startSpace st)
     (foundSpace st) (bestEdge st) (pointers st).
Definition set_leftBoundary v st :=
  mk (path st) v (startLatin st) (foundLatin st) (startSpace st)
     (foundSpace st) (bestEdge st) (pointers st).
Definition set_startLatin v st :=
  mk (path st) (leftBoundary st) v (foundLatin st) (startSpace st)
     (foundSpace st) (bestEdge st) (pointers st).
Definition set_foundLatin v st :=
  mk (path st) (leftBoundary st) (startLatin st) v (startSpace st)
     (foundSpace st) (bestEdge st) (pointers st).
Definition set_startSpace v st :=
  mk (path st) (leftBoundary st) (startLatin st) (foundLatin st) v
     (foundSpace st) (bestEdge st) (pointers st).
Definition set_foundSpace v st :=
  mk (path st) (leftBoundary st) (startLatin st) (foundLatin st) (startSpace st)
     v (bestEdge st) (pointers st).
Definition set_bestEdge v st :=
  mk (path st) (leftBoundary st) (startLatin st) (foundLatin st) (startSpace st)
     (foundSpace st) v (pointers st).
Definition set_pointers v st :=
  mk (path st) (leftBoundary st) (startLatin st) (foundLatin st) (startSpace st)
     (foundSpace st) (bestEdge st) v.
End Locals.

Import Locals (set_path, set_leftBoundary, set_startLatin, set_foundLatin,
  set_startSpace, set_foundSpace, set_bestEdge, set_pointers).

(** [source := path[s]; Edge{S: s, EdgeType: ty, WordCount:
    source.WordCount + 1, UnkCount: source.UnkCount}] *)
Definition edgeFrom (st : Locals.t) (s ty : Z) : option Edge.t :=
  source ← slice_get (Locals.path st) s;
  Some (Edge.mk s ty (Edge.WordCount source + 1) (Edge.UnkCount source)).

(** [if foundSpace { path[i] = Edge{... SPACE ...}; foundSpace = false;
    leftBoundary = i }] *)
Definition flushSpace (st : Locals.t) (i : Z) : option Locals.t :=
  if Locals.foundSpace st then
    e ← edgeFrom st (Locals.startSpace st) SPACE;
    p ← slice_set (Locals.path st) i e;
    Some (set_leftBoundary i (set_foundSpace false (set_path p st)))
  else Some st.

(** [if foundLatin { path[i] = Edge{... LATIN ...}; foundLatin = false;
    leftBoundary = i }] *)
Definition flushLatin (st : Locals.t) (i : Z) : option Locals.t :=
  if Locals.foundLatin st then
    e ← edgeFrom st (Locals.startLatin st) LATIN;
    p ← slice_set (Locals.path st) i e;
    Some (set_leftBoundary i (set_foundLatin false (set_path p st)))
  else Some st.

(** [if !foundLatin { startLatin = i; foundLatin = true }] *)
Definition openLatin (st : Locals.t) (i : Z) : Locals.t :=
  if negb (Locals.foundLatin st)
  then set_foundLatin true (set_startLatin i st)
  else st.

(** [if !foundSpace { startSpace = i; foundSpace = true }] *)
Definition openSpace (st : Locals.t) (i : Z) : Locals.t :=
  if negb (Locals.foundSpace st)
  then set_foundSpace true (set_startSpace i st)
  else st.

(** [if i == length-1 { bestEdge = &Edge{... LATIN ...}; foundLatin = false }] *)
Definition closeLatin (length : Z) (st : Locals.t) (i : Z) : option Locals.t :=
  if i =? length - 1 then
    e ← edgeFrom st (Locals.startLatin st) LATIN;
    Some (set_foundLatin false (set_bestEdge (Some e) st))
  else Some st.

(** [if i == length-1 { bestEdge = &Edge{... SPACE ...}; foundSpace = false }] *)
Definition closeSpace (length : Z) (st : Locals.t) (i : Z) : option Locals.t :=
  if i =? length - 1 then
    e ← edgeFrom st (Locals.startSpace st) SPACE;
    Some (set_foundSpace false (set_bestEdge (Some e) st))
  else Some st.

(** [pointers = append(pointers, DictBuilderPointer{})], the compaction
    loop, and [pointers = pointers[:newIndex]]. *)
Definition advancePointers (dict : PrefixTree) (st : Locals.t) (ch : rune)
  : option Locals.t :=
  let ptrs := slice_append (Locals.pointers st) zeroPointer in
  '(ptrs', newIndex) ← compactPointers dict ch ptrs 0 0 (length (elems ptrs));
  ptrs'' ← slice_take ptrs' newIndex;
  Some (set_pointers ptrs'' st).

(** The tie-break of the candidate loop. *)
Definition supersedes (edge best : Edge.t) : bool :=
  (Edge.UnkCount edge <? Edge.UnkCount best) ||
  ((Edge.UnkCount edge =? Edge.UnkCount best) &&
   (Edge.WordCount edge <=? Edge.WordCount best)).

(** One iteration of [for _, pointer := range pointers]. *)
Definition considerPointer (st : Locals.t) (i : Z) (pointer : DictBuilderPointer.t)
  : option Locals.t :=
  if DictBuilderPointer.IsFinal pointer then
    edge ← edgeFrom st (1 + i - DictBuilderPointer.Offset pointer) DICT;
    match Locals.bestEdge st with
    | None => Some (set_bestEdge (Some edge) st)
    | Some best =>
        if supersedes edge best then Some (set_bestEdge (Some edge) st) else Some st
    end
  else Some st.

(** [for _, pointer := range pointers { ... }] *)
Fixpoint chooseDictEdge (st : Locals.t) (i : Z) (ptrs : list DictBuilderPointer.t)
  : option Locals.t :=
  match ptrs with
  | [] => Some st
  | pointer :: rest =>
      st' ← considerPointer st i pointer;
      chooseDictEdge st' i rest
  end.

(** The tail of the loop body: the unknown edge or the advance of
    [leftBoundary], then [path[i+1] = *bestEdge]. *)
Definition commitEdge (st : Locals.t) (i : Z) : option Locals.t :=
  st' ← match Locals.bestEdge st with
        | None =>
            source ← slice_get (Locals.path st) (Locals.leftBoundary st);
            Some (set_bestEdge (Some (Edge.mk (Locals.leftBoundary st) UNK
                                              (Edge.WordCount source + 1)
                                              (Edge.UnkCount source + 1))) st)
        | Some _ => Some (set_leftBoundary (i + 1) st)
        end;
  best ← Locals.bestEdge st';
  p ← slice_set (Locals.path st') (i + 1) best;
  Some (set_path p st').

(** The body of [for _, ch := range line], at codepoint index [i]. *)
Definition scanRune (dict : PrefixTree) (length : Z) (st : Locals.t) (i : Z) (ch : rune)
  : option Locals.t :=
  let st := set_bestEdge None st in
  st' ← (if IsLatin ch then
           st1 ← flushSpace st i;
           closeLatin length (openLatin st1 i) i
         else if IsSpace ch then
           st1 ← flushLatin st i;
           closeSpace length (openSpace st1 i) i
         else
           st1 ← flushSpace st i;
           st2 ← flushLatin st1 i;
           st3 ← advancePointers dict st2 ch;
           chooseDictEdge st3 i (elems (Locals.pointers st3)));
  commitEdge st' i.

(** [for _, ch := range line { ...; i++ }] *)
Fixpoint scanFrom (dict : PrefixTree) (length : Z) (st : Locals.t) (i : Z)
    (line : list rune) : option Locals.t :=
  match line with
  | [] => Some st
  | ch :: rest =>
      st' ← scanRune dict length st i ch;
      scanFrom dict length st' (i + 1) rest
  end.

(** [func BuildPath(line string, dict PrefixTree) []Edge] *)
Definition BuildPath (line : list Z) (dict : PrefixTree) : option (slice Edge.t) :=
  let length := Z.of_nat (length (runes line)) in
  path ← slice_make (Edge.mk 0 0 0 0) (length + 1);
  path ← slice_set path 0 (Edge.mk 0 INIT 0 0);
  st ← scanFrom dict length (Locals.mk path 0 0 false 0 false None SNil) 0
         (runes line);
  Some (Locals.path st).

(** The loop [for e := len(path) - 1; e > 0; { ... }] of [PathToRanges].
    The index [j] goes down by one in each round and [ranges[j]] panics
    below zero: [rounds] bounds the number of rounds. *)
Fixpoint collectRanges (rounds : nat) (path : slice Edge.t)
    (ranges : slice TextRange.t) (e j : Z) : option (slice TextRange.t * Z) :=
  if 0 <? e then
    match rounds with
    | O => None
    | S rounds' =>
        edge ← slice_get path e;
        let s := Edge.S edge in
        ranges' ← slice_set ranges j (TextRange.mk s e);
        collectRanges rounds' path ranges' s (j - 1)
    end
  else Some (ranges, j).

(** [func PathToRanges(path []Edge) []TextRange] *)
Definition PathToRanges (path : slice Edge.t) : option (list TextRange.t) :=
  ranges ← slice_make (TextRange.mk 0 0) (slice_len path);
  let j := slice_len ranges - 1 in
  '(ranges', j') ← collectRanges (Z.to_nat (slice_len ranges) + 1) path ranges
                      (slice_len path - 1) j;
  slice_range (elems ranges') (j' + 1) (slice_len ranges').

(** [for i, r := range ranges { tokens[i] = string(textRunes[r.s:r.e]) }] *)
Fixpoint fillTokens (textRunes : list rune) (ranges : list TextRange.t) (i : Z)
    (tokens : slice (list rune)) : option (slice (list rune)) :=
  match ranges with
  | [] => Some tokens
  | r :: rest =>
      tok ← slice_range textRunes (TextRange.s r) (TextRange.e r);
      tokens' ← slice_set tokens i tok;
      fillTokens textRunes rest (i + 1) tokens'
  end.

(** [func Segment(line string, dict PrefixTree) []string]; a token
    [string(textRunes[r.s:r.e])] is given by its codepoints, as the
    tokens of the segmenter are. *)
Definition Segment (line : list Z) (dict : PrefixTree) : option (list (list rune)) :=
  let textRunes := runes line in
  paths ← BuildPath line dict;
  ranges ← PathToRanges paths;
  tokens ← slice_make [] (Z.of_nat (length ranges));
  tokens' ← fillTokens textRunes ranges 0 tokens;
  Some (elems tokens').
End Typed.

Arguments Typed.Locals.set_path _ _ /.
Arguments Typed.Locals.set_leftBoundary _ _ /.
Arguments Typed.Locals.set_startLatin _ _ /.
Arguments Typed.Locals.set_foundLatin _ _ /.
Arguments Typed.Locals.set_startSpace _ _ /.
Arguments Typed.Locals.set_foundSpace _ _ /.
Arguments Typed.Locals.set_bestEdge _ _ /.
Arguments Typed.Locals.set_pointers _ _ /.

(** * Notions used to state the properties *)

(** An edge stored at boundary [k] is sound: it starts strictly before
    [k], its word count is one more than that of the entry at its start,
    and its unknown count is that of the entry at its start or one more. *)
Definition edge_ok (p : list Edge.t) (k : Z) (e : Edge.t) : Prop :=
  0 <= Edge.S e < k /\
  exists src, p !! Z.to_nat (Edge.S e) = Some src /\
              Edge.WordCount src + 1 = Edge.WordCount e /\
              Edge.UnkCount src <= Edge.UnkCount e <= Edge.UnkCount src + 1.

(** The edge array is sound up to boundary [a]. *)
Definition path_ok (p : list Edge.t) (a : Z) : Prop :=
  p !! 0%nat = Some zeroEdge /\
  forall k e, 1 <= k <= a -> p !! Z.to_nat k = Some e -> edge_ok p k e.

(** The state between two rounds of the scan of a line of [N] codepoints:
    [a] is the last boundary written, [b] bounds the run starts and the
    depths of the live pointers. *)
Record scan_inv (N a b : Z) (sm : Segmenter.t) : Prop := {
  inv_length : Segmenter.length sm = N;
  inv_path : exists p, Segmenter.path sm = SData p /\
                       Z.of_nat (length p) = N + 1 /\ path_ok p a;
  inv_left : 0 <= Segmenter.leftBoundary sm <= a;
  inv_latin : Segmenter.foundLatin sm = true -> 0 <= Segmenter.startLatin sm < b;
  inv_space : Segmenter.foundSpace sm = true -> 0 <= Segmenter.startSpace sm < b;
  inv_pointers : Forall (fun q => 0 <= DictBuilderPointer.Offset q <= b)
                        (elems (Segmenter.pointers sm))
}.

(** The tentative best edge, when there is one, is sound for the next
    boundary. *)
Definition best_ok (a : Z) (sm : Segmenter.t) : Prop :=
  Segmenter.foundBestEdge sm = true ->
  edge_ok (elems (Segmenter.path sm)) (a + 1) (Segmenter.bestEdge sm).

(** One dictionary transition of a live pointer on [ch]. *)
Definition stepPointer (d : PrefixTree) (ch : rune) (p : DictBuilderPointer.t)
  : option DictBuilderPointer.t :=
  childNode ← d !! PrefixTreeNode.mk (DictBuilderPointer.NodeID p)
                                     (DictBuilderPointer.Offset p) ch;
  Some (DictBuilderPointer.mk (PrefixTreePointer.ChildID childNode)
                              (DictBuilderPointer.Offset p + 1)
                              (PrefixTreePointer.IsFinal childNode)).

(** Two segmenters are alike for the scan when they differ at most in
    the tentative best edge, which every round resets, and in whether an
    empty pointer slice is nil. *)
Definition alike (sm1 sm2 : Segmenter.t) : Prop :=
  exists q e b,
    sm2 = set_pointers q (set_bestEdge e (set_foundBestEdge b sm1)) /\
    elems q = elems (Segmenter.pointers sm1).

(** The edge array [E] that [BuildPath] builds for a line on a fresh
    segmenter. *)
Definition edges (line : list rune) (trie : PrefixTree) : option (list Edge.t) :=
  sm ← BuildPath (Segmenter.new trie) line;
  Some (elems (Segmenter.path sm)).

(** A worker keeps one segmenter and calls [Segment] line after line. *)
Fixpoint SegmentAll (sm : Segmenter.t) (lines : list (list rune))
  : option (list (list (list rune)) * Segmenter.t) :=
  match lines with
  | [] => Some ([], sm)
  | line :: rest =>
      '(tokens, sm1) ← Segment sm line;
      '(out, sm2) ← SegmentAll sm1 rest;
      Some (tokens :: out, sm2)
  end.

(** [sm.bestEdge.S = 0; ...; sm.foundBestEdge = false], the head of the
    loop body. *)
Definition resetBest (sm : Segmenter.t) : Segmenter.t :=
  set_foundBestEdge false (set_bestEdge (Edge.mk 0 0 0) sm).

(** The text branch up to the candidate loop: both flushes, then the
    advance of the live pointers. *)
Definition beforeChoice (sm : Segmenter.t) (i : Z) (ch : rune) : option Segmenter.t :=
  sm1 ← flushSpace (resetBest sm) i;
  sm2 ← flushLatin sm1 i;
  advancePointers sm2 ch.

(** The candidate edge a live pointer contributes at round [i]. *)
Definition candidate (sm : Segmenter.t) (i : Z) (q : DictBuilderPointer.t)
  : option Edge.t :=
  if DictBuilderPointer.IsFinal q
  then edgeFrom sm (1 + i - DictBuilderPointer.Offset q)
  else None.

(** The candidate dictionary edges of round [i], in the order in which
    the candidate loop meets them. *)
Definition dictCandidates (sm : Segmenter.t) (i : Z) : list Edge.t :=
  omap (candidate sm i) (elems (Segmenter.pointers sm)).

(** The tentative best edge, if any. *)
Definition currentBest (sm : Segmenter.t) : option Edge.t :=
  if Segmenter.foundBestEdge sm then Some (Segmenter.bestEdge sm) else None.

(** What the candidate loop computes: the running best edge. *)
Definition pickBest (best : option Edge.t) (cands : list Edge.t) : option Edge.t :=
  foldl (fun b c => match b with
                    | None => Some c
                    | Some b0 => if supersedes c b0 then Some c else Some b0
                    end) best cands.

(** The state at the start of round [i] of the scan of [L]. *)
Definition roundState (T : PrefixTree) (L : list rune) (i : nat)
  : option Segmenter.t :=
  sm0 ← resetScratch (Segmenter.new T) L;
  scanFrom sm0 0 (take i L).

(** The live pointers after the codepoints [seen]: every text codepoint
    spawns a root pointer and steps the whole list. *)
Definition livePointers (T : PrefixTree) (seen : list rune)
  : list DictBuilderPointer.t :=
  foldl (fun ptrs ch =>
           if IsText ch then omap (stepPointer T ch) (ptrs ++ [zeroPointer]) else ptrs)
        [] seen.

(** Deeper pointers come first: along the list the depths go strictly
    down, and none is zero. *)
Definition deepest_first (ptrs : list DictBuilderPointer.t) : Prop :=
  StronglySorted (fun q1 q2 => DictBuilderPointer.Offset q2 < DictBuilderPointer.Offset q1)
                 ptrs /\
  Forall (fun q => 1 <= DictBuilderPointer.Offset q) ptrs.

(** The state in which the candidate loop of round [i] starts, when the
    codepoint at [i] is a text codepoint. *)
Definition candidateState (T : PrefixTree) (L : list rune) (i : nat)
  : option Segmenter.t :=
  sm ← roundState T L i;
  ch ← L !! i;
  beforeChoice sm (Z.of_nat i) ch.

(** The candidate dictionary edges of round [i]. *)
Definition candidatesAt (T : PrefixTree) (L : list rune) (i : nat)
  : option (list Edge.t) :=
  sm3 ← candidateState T L i;
  Some (dictCandidates sm3 (Z.of_nat i)).

(** The edge of an unknown token that starts at boundary 0. *)
Definition unknownFromStart : Edge.t := Edge.mk 0 1 1.

(** The segmenter [sm] over another dictionary. *)
Definition with_dict (T : PrefixTree) (sm : Segmenter.t) : Segmenter.t :=
  Segmenter.mk T (Segmenter.path sm) (Segmenter.leftBoundary sm)
    (Segmenter.startLatin sm) (Segmenter.foundLatin sm) (Segmenter.startSpace sm)
    (Segmenter.foundSpace sm) (Segmenter.bestEdge sm) (Segmenter.foundBestEdge sm)
    (Segmenter.pointers sm) (Segmenter.length sm).
Arguments with_dict _ _ /.

(** Two tries agree on the transitions labelled by text codepoints. *)
Definition agree_on_text (T1 T2 : PrefixTree) : Prop :=
  forall k, IsText (PrefixTreeNode.Ch k) = true -> T1 !! k = T2 !! k.

(** Walking the trie along a word, as the tests do with [lookup]: from
    node [node] at depth [depth], the node reached and whether the last
    transition was final. *)
Fixpoint walkFrom (T : PrefixTree) (node depth : Z) (final : bool) (w : list rune)
  : option (Z * bool) :=
  match w with
  | [] => Some (node, final)
  | ch :: w' =>
      child ← T !! PrefixTreeNode.mk node depth ch;
      walkFrom T (PrefixTreePointer.ChildID child) (depth + 1)
               (PrefixTreePointer.IsFinal child) w'
  end.

(** The walk from the root. *)
Definition walk (T : PrefixTree) (w : list rune) : option (Z * bool) :=
  walkFrom T 0 0 false w.

(** A live pointer of depth [k] stands where the walk along the last [k]
    text codepoints seen ends. *)
Definition matched (T : PrefixTree) (txt : list rune) (q : DictBuilderPointer.t)
  : Prop :=
  exists w, w `suffix_of` txt /\
            Z.of_nat (length w) = DictBuilderPointer.Offset q /\
            walk T w = Some (DictBuilderPointer.NodeID q, DictBuilderPointer.IsFinal q).

(** Every key of the table hangs off a node that some walk reaches at the
    key's depth. *)
Definition keys_reachable (tab : PrefixTree) : Prop :=
  forall key v, tab !! key = Some v ->
    exists w r, walk tab w = Some r /\ r.1 = PrefixTreeNode.NodeID key /\
                Z.of_nat (length w) = PrefixTreeNode.Offset key.

(** While the word [w0] of index [k] is being inserted, with its first
    [j] codepoints done: a non-empty walk that ends in node [n] spells a
    prefix of the word of index [n]; the nodes of the words before [k] are
    final only at the end of such a word, those of [w0] reach depth [j] at
    most and are final only at the end of [w0]. *)
Definition walks_ok (sw : list (list rune)) (k : nat) (w0 : list rune) (j : nat)
    (tab : PrefixTree) : Prop :=
  forall w n f, w <> [] -> walk tab w = Some (n, f) ->
    exists word, 0 <= n /\ sw !! Z.to_nat n = Some word /\ w `prefix_of` word /\
      (((Z.to_nat n < k)%nat /\ (f = true -> w ∈ take k sw)) \/
       (Z.to_nat n = k /\ (length w <= j)%nat /\ (f = true -> w = w0))).

(** Between two words: a non-empty walk that ends in node [n] spells a
    prefix of the word of index [n], one of the first [k], and ends on a
    final transition only if it spells one of these words in full. *)
Definition words_ok (sw : list (list rune)) (k : nat) (tab : PrefixTree) : Prop :=
  forall w n f, w <> [] -> walk tab w = Some (n, f) ->
    exists word, 0 <= n /\ sw !! Z.to_nat n = Some word /\ w `prefix_of` word /\
                 (Z.to_nat n < k)%nat /\ (f = true -> w ∈ take k sw).

(** The first word of [ws] that starts with [w]: its index, and whether
    it is [w] itself. *)
Definition firstWith (ws : list (list rune)) (w : list rune) : option (Z * bool) :=
  '(n, word) ← list_find (fun word => w `prefix_of` word) ws;
  Some (Z.of_nat n, bool_decide (word = w)).

(** The table holds the words [ws]: the walk along a non-empty [w] ends
    in the node numbered by the first word that starts with [w], on a
    final transition if that word is [w]. *)
Definition trie_of (ws : list (list rune)) (tab : PrefixTree) : Prop :=
  forall w, w <> [] -> walk tab w = firstWith ws w.

(** The table holds the words [ws] and the first [j] codepoints of the
    next word [w0]. *)
Definition trie_at (ws : list (list rune)) (w0 : list rune) (j : nat)
    (tab : PrefixTree) : Prop :=
  forall w, w <> [] ->
    walk tab w =
    match firstWith ws w with
    | Some r => Some r
    | None => if bool_decide (w `prefix_of` take j w0)
              then Some (Z.of_nat (length ws), bool_decide (w0 = w))
              else None
    end.

(** The trie accepts [w]: the walk along [w] ends on a final transition. *)
Definition accepts (T : PrefixTree) (w : list rune) : Prop :=
  exists n, walk T w = Some (n, true).

(** The word list is in the order of [sort.Strings]. *)
Definition sorted_words (ws : list (list rune)) : Prop :=
  StronglySorted (fun a b => string_le a b = true) ws.

(** The tokens read off the edge array [E] by following the edges back
    from boundary [e] to the start of the line, in the order of the line. *)
Inductive tokensTo (E : list Edge.t) (L : list rune) : Z -> list (list rune) -> Prop :=
| tokensTo_start : tokensTo E L 0 []
| tokensTo_step e edge out :
    E !! Z.to_nat e = Some edge -> 0 <= Edge.S edge < e ->
    tokensTo E L (Edge.S edge) out ->
    tokensTo E L e
      (out ++ [take (Z.to_nat (e - Edge.S edge)) (drop (Z.to_nat (Edge.S edge)) L)]).

(** The candidate edge that a live pointer contributes at round [i], read
    from the edge array [E]. *)
Definition candidateOver (E : list Edge.t) (i : Z) (q : DictBuilderPointer.t)
  : option Edge.t :=
  if DictBuilderPointer.IsFinal q then
    source ← slice_get (SData E) (1 + i - DictBuilderPointer.Offset q);
    Some (Edge.mk (1 + i - DictBuilderPointer.Offset q)
                  (Edge.WordCount source + 1) (Edge.UnkCount source))
  else None.

(** The unknown edge from the boundary [lb], read from the edge array. *)
Definition unknownOver (E : list Edge.t) (lb : Z) : option Edge.t :=
  source ← slice_get (SData E) lb;
  Some (Edge.mk lb (Edge.WordCount source + 1) (Edge.UnkCount source + 1)).

(** Two tries have the same walks: a sequence of codepoints can be
    walked in both or in neither, and ends on a final transition in both
    or in neither.  The node numbers may differ. *)
Definition same_walks (T1 T2 : PrefixTree) : Prop :=
  forall w, snd <$> walk T1 w = snd <$> walk T2 w.

(** A trie for the words "ก" and "ขค" with node numbers of its own: 5, 7
    and 9 where [MakePrefixTree] numbers the nodes 0, 1 and 1. *)
Definition renumbered : PrefixTree :=
  <[PrefixTreeNode.mk 0 0 3585 := PrefixTreePointer.mk 5 true]>
    (<[PrefixTreeNode.mk 0 0 3586 := PrefixTreePointer.mk 7 false]>
       (<[PrefixTreeNode.mk 7 1 3587 := PrefixTreePointer.mk 9 true]> ∅)).

(** Two live pointers, one in each trie, stand at the end of the same
    walk. *)
Definition twin (T1 T2 : PrefixTree) (q1 q2 : DictBuilderPointer.t) : Prop :=
  DictBuilderPointer.Offset q1 = DictBuilderPointer.Offset q2 /\
  DictBuilderPointer.IsFinal q1 = DictBuilderPointer.IsFinal q2 /\
  exists w, Z.of_nat (length w) = DictBuilderPointer.Offset q1 /\
            walk T1 w = Some (DictBuilderPointer.NodeID q1, DictBuilderPointer.IsFinal q1) /\
            walk T2 w = Some (DictBuilderPointer.NodeID q2, DictBuilderPointer.IsFinal q2).

(** The segmenter [sm] over the dictionary [T], with the pointer slice [q]. *)
Definition retarget (T : PrefixTree) (q : slice DictBuilderPointer.t)
    (sm : Segmenter.t) : Segmenter.t :=
  with_dict T (set_pointers q sm).

(** [sm2] is [sm1] over the trie [T2], pointer for pointer. *)
Definition twins (T2 : PrefixTree) (sm1 sm2 : Segmenter.t) : Prop :=
  exists q, sm2 = retarget T2 q sm1 /\
            Forall2 (twin (Segmenter.dict sm1) T2)
                    (elems (Segmenter.pointers sm1)) (elems q).

(** The maximal runs of a line: consecutive codepoints stay together as
    long as they are all Latin letters, or all not. *)
Fixpoint runs (L : list rune) : list (list rune) :=
  match L with
  | [] => []
  | ch :: rest =>
      match runs rest with
      | (c :: r) :: rs =>
          if Bool.eqb (IsLatin ch) (IsLatin c) then (ch :: c :: r) :: rs
          else [ch] :: (c :: r) :: rs
      | _ => [[ch]]
      end
  end.

(** The codepoints from [s] up to [e] are a run that starts at [s]: they
    are all Latin letters or all not, and the codepoint before [s], if
    any, is of the other kind. *)
Definition runBlock (L : list rune) (s e : nat) : Prop :=
  (s < e <= length L)%nat /\
  (forall k, (s <= k < e)%nat -> IsLatin <$> L !! k = IsLatin <$> L !! s) /\
  (s = 0%nat \/ IsLatin <$> L !! (s - 1)%nat <> IsLatin <$> L !! s).

(** A run ends at the boundary [e]. *)
Definition runEnd (L : list rune) (e : nat) : Prop :=
  e = length L \/ IsLatin <$> L !! (e - 1)%nat <> IsLatin <$> L !! e.

(** The state before round [i] of the scan of a line without text
    codepoints: inside the line the run of the codepoint before [i] is
    open from its start and the other kind of run is closed; the entries
    at the run ends passed so far point to the start of their run. *)
Definition run_inv (L : list rune) (i : nat) (sm : Segmenter.t) : Prop :=
  Segmenter.length sm = Z.of_nat (length L) /\
  (i = 0%nat \/ i = length L ->
   Segmenter.foundLatin sm = false /\ Segmenter.foundSpace sm = false) /\
  ((0 < i < length L)%nat ->
   exists s ch, L !! (i - 1)%nat = Some ch /\ runBlock L s i /\
     if IsLatin ch
     then Segmenter.foundLatin sm = true /\ Segmenter.startLatin sm = Z.of_nat s /\
          Segmenter.foundSpace sm = false
     else Segmenter.foundSpace sm = true /\ Segmenter.startSpace sm = Z.of_nat s /\
          Segmenter.foundLatin sm = false) /\
  (forall e edge, (1 <= e <= i)%nat -> runEnd L e -> (e < i)%nat \/ e = length L ->
     elems (Segmenter.path sm) !! e = Some edge ->
     exists s, Edge.S edge = Z.of_nat s /\ runBlock L s e).

(** A typed edge without its type. *)
Definition untyped (e : Typed.Edge.t) : Edge.t :=
  Edge.mk (Typed.Edge.S e) (Typed.Edge.WordCount e) (Typed.Edge.UnkCount e).

Definition slice_map {A B} (f : A -> B) (s : slice A) : slice B :=
  match s with SNil => SNil | SData l => SData (f <$> l) end.

(** The segmenter whose fields hold the variables of [Typed.BuildPath]
    on a line of [length] codepoints, the types of the edges left out. *)
Definition asSegmenter (dict : PrefixTree) (length : Z) (st : Typed.Locals.t)
  : Segmenter.t :=
  Segmenter.mk dict (slice_map untyped (Typed.Locals.path st))
    (Typed.Locals.leftBoundary st)
    (Typed.Locals.startLatin st) (Typed.Locals.foundLatin st)
    (Typed.Locals.startSpace st) (Typed.Locals.foundSpace st)
    (match Typed.Locals.bestEdge st with Some b => untyped b | None => Edge.mk 0 0 0 end)
    (match Typed.Locals.bestEdge st with Some _ => true | None => false end)
    (Typed.Locals.pointers st) length.

(** The codepoints of a range. *)
Definition rangeToken (L : list rune) (r : Typed.TextRange.t) : list rune :=
  take (Z.to_nat (Typed.TextRange.e r - Typed.TextRange.s r))
       (drop (Z.to_nat (Typed.TextRange.s r)) L).

(** The ranges read off the typed edge array by following the edges back
    from boundary [e]. *)
Inductive rangesTo (P : list Typed.Edge.t) : Z -> list Typed.TextRange.t -> Prop :=
| rangesTo_start : rangesTo P 0 []
| rangesTo_step e edge rs :
    P !! Z.to_nat e = Some edge -> 0 <= Typed.Edge.S edge < e ->
    rangesTo P (Typed.Edge.S edge) rs ->
    rangesTo P e (rs ++ [Typed.TextRange.mk (Typed.Edge.S edge) e]).

(** The ranges tile the codepoints from [a] to [b]: each one is not
    empty and starts where the one before it ends. *)
Fixpoint tiles (rs : list Typed.TextRange.t) (a b : Z) : Prop :=
  match rs with
  | [] => a = b
  | r :: rest =>
      Typed.TextRange.s r = a /\ a < Typed.TextRange.e r /\
      tiles rest (Typed.TextRange.e r) b
  end.

(** The codepoints of [L] from boundary [s] to boundary [e]. *)
Definition span (L : list rune) (s e : Z) : list rune :=
  take (Z.to_nat (e - s)) (drop (Z.to_nat s) L).

(** A space-class codepoint as the scan sees it: not a Latin letter, and
    in the set of [IsSpace]. *)
Definition spaceClass (ch : rune) : Prop := IsLatin ch = false /\ IsSpace ch = true.

(** A typed edge stored at boundary [k] is as its type says: it starts
    before [k] and counts one word more than the entry at its start; an
    edge of type [UNK] counts one unknown token more than that entry, an
    edge of any other type as many; an edge of type [LATIN] spans Latin
    letters only, one of type [SPACE] space-class codepoints only. *)
Definition good_edge (L : list rune) (P : list Typed.Edge.t) (k : Z)
    (e : Typed.Edge.t) : Prop :=
  0 <= Typed.Edge.S e < k /\
  exists src,
    P !! Z.to_nat (Typed.Edge.S e) = Some src /\
    Typed.Edge.WordCount e = Typed.Edge.WordCount src + 1 /\
    ((Typed.Edge.EdgeType e = Typed.DICT /\
      Typed.Edge.UnkCount e = Typed.Edge.UnkCount src) \/
     (Typed.Edge.EdgeType e = Typed.UNK /\
      Typed.Edge.UnkCount e = Typed.Edge.UnkCount src + 1) \/
     (Typed.Edge.EdgeType e = Typed.LATIN /\
      Typed.Edge.UnkCount e = Typed.Edge.UnkCount src /\
      Forall (fun ch => IsLatin ch = true) (span L (Typed.Edge.S e) k)) \/
     (Typed.Edge.EdgeType e = Typed.SPACE /\
      Typed.Edge.UnkCount e = Typed.Edge.UnkCount src /\
      Forall spaceClass (span L (Typed.Edge.S e) k))).

(** The variables of the free-standing scan of [L]: the typed edge array
    is good up to boundary [a], and the open runs, which start before
    [b], hold codepoints of their kind only. *)
Record typed_inv (L : list rune) (a b : Z) (st : Typed.Locals.t) : Prop := {
  tinv_path : exists P, Typed.Locals.path st = SData P /\
                P !! 0%nat = Some (Typed.Edge.mk 0 Typed.INIT 0 0) /\
                forall k e, 1 <= k <= a -> P !! Z.to_nat k = Some e -> good_edge L P k e;
  tinv_left : 0 <= Typed.Locals.leftBoundary st <= a;
  tinv_latin : Typed.Locals.foundLatin st = true ->
               0 <= Typed.Locals.startLatin st < b /\
               Forall (fun ch => IsLatin ch = true) (span L (Typed.Locals.startLatin st) b);
  tinv_space : Typed.Locals.foundSpace st = true ->
               0 <= Typed.Locals.startSpace st < b /\
               Forall spaceClass (span L (Typed.Locals.startSpace st) b);
  tinv_pointers : Forall (fun q => 0 <= DictBuilderPointer.Offset q)
                         (elems (Typed.Locals.pointers st))
}.

(** The tentative best edge, when there is one, is good for the next
    boundary. *)
Definition good_best (L : list rune) (i : Z) (st : Typed.Locals.t) : Prop :=
  forall b, Typed.Locals.bestEdge st = Some b ->
    good_edge L (elems (Typed.Locals.path st)) (i + 1) b.

(** A Unicode scalar value: a codepoint up to U+10FFFF that is no
    surrogate. *)
Definition scalarValue (r : rune) : bool :=
  ((0 <=? r) && (r <? 55296)) || ((57344 <=? r) && (r <=? 1114111)).

(** The UTF-8 encoding of a codepoint, as [string(r)] gives it: what is
    no scalar value is encoded as U+FFFD. *)
Definition utf8 (r : rune) : list Z :=
  if negb (scalarValue r) then [239; 191; 189]
  else if r <? 128 then [r]
  else if r <? 2048 then [192 + r / 64; 128 + r mod 64]
  else if r <? 65536 then [224 + r / 4096; 128 + (r / 64) mod 64; 128 + r mod 64]
  else [240 + r / 262144; 128 + (r / 4096) mod 64; 128 + (r / 64) mod 64;
        128 + r mod 64].

(** The Go string of a sequence of codepoints.  The well-formed UTF-8
    strings are the strings [utf8_string w] of the sequences [w] of
    scalar values. *)
Definition utf8_string (w : list rune) : list Z := concat (utf8 <$> w).

Definition scalarValues (w : list rune) : Prop :=
  Forall (fun r => scalarValue r = true) w.

(** * Properties *)

(** ** Tactics *)

Ltac open_block :=
  repeat first
    [ progress simplify_eq
    | match goal with
      | H : (_ ≫= _) = Some _ |- _ => apply bind_Some in H as (? & ? & H)
      | H : (if ?c then _ else _) = Some _ |- _ => destruct c eqn:?
      | H : (match ?c with _ => _ end) = Some _ |- _ => destruct c eqn:?
      end ].

Ltac simpl_opt := cbn [mbind option_bind fmap option_fmap option_map].

(** Outside the dictionary lookups no block looks at the pointer slice:
    each one commutes with overwriting it. *)
Ltac commute_block :=
  intros;
  match goal with sm : Segmenter.t |- _ => destruct sm end; cbn;
  unfold mbind, option_bind, fmap, option_fmap, option_map;
  repeat (case_match; simplify_eq; cbn in *; try done).

(** ** Slices *)

Section slices.
Context {A : Type}.
Implicit Types (s : slice A) (l : list A) (k : Z) (x : A).

Lemma slice_get_Some s k x :
  slice_get s k = Some x <-> 0 <= k /\ elems s !! Z.to_nat k = Some x.
Proof.
  unfold slice_get, slice_len. case_bool_decide as Hk.
  - split; [intros H; split; [lia|done]|by intros [_ H]].
  - split; [done|]. intros [? Hl]. apply lookup_lt_Some in Hl. lia.
Qed.

Lemma slice_get_data l k x :
  0 <= k -> l !! Z.to_nat k = Some x -> slice_get (SData l) k = Some x.
Proof. intros. by apply slice_get_Some. Qed.

Lemma slice_get_in_range s k :
  0 <= k < slice_len s -> is_Some (slice_get s k).
Proof.
  intros Hk. unfold slice_get. rewrite bool_decide_eq_true_2 by done.
  apply lookup_lt_is_Some. unfold slice_len in Hk. lia.
Qed.

Lemma slice_set_data l k x :
  0 <= k < Z.of_nat (length l) ->
  slice_set (SData l) k x = Some (SData (<[Z.to_nat k := x]> l)).
Proof. intros Hk. unfold slice_set, slice_len. by rewrite bool_decide_eq_true_2. Qed.

Lemma slice_set_Some s k x s' :
  slice_set s k x = Some s' ->
  0 <= k < slice_len s /\ s' = SData (<[Z.to_nat k := x]> (elems s)).
Proof. unfold slice_set. case_bool_decide; intros Hs; by simplify_eq. Qed.

Lemma slice_range_whole l : slice_range l 0 (Z.of_nat (length l)) = Some l.
Proof.
  unfold slice_range. rewrite bool_decide_eq_true_2 by lia.
  rewrite Z.sub_0_r, Nat2Z.id. simpl. by rewrite firstn_all.
Qed.
End slices.

(** ** The invariant of the scan *)

Lemma edge_ok_insert p k j e x :
  k <= j -> edge_ok p k e -> edge_ok (<[Z.to_nat j := x]> p) k e.
Proof.
  intros Hj [Hs (src & Hsrc & Hwc)]. split; [done|]. exists src. split; [|done].
  rewrite list_lookup_insert_ne by lia. done.
Qed.

Lemma edge_ok_mono p k k' e : k <= k' -> edge_ok p k e -> edge_ok p k' e.
Proof. intros ? [? ?]. split; [lia|done]. Qed.

(** Writing a sound edge at boundary [j], the last one reached or the
    next one, keeps the array sound. *)
Lemma path_ok_insert p a j e :
  path_ok p a -> a <= j <= a + 1 -> j < Z.of_nat (length p) ->
  edge_ok p j e -> path_ok (<[Z.to_nat j := e]> p) j.
Proof.
  intros [H0 Hp] Ha Hlen He.
  assert (1 <= j) by (destruct He; lia).
  split.
  - rewrite list_lookup_insert_ne by lia. done.
  - intros k e' Hk Hl. destruct (decide (k = j)) as [->|Hne].
    + rewrite list_lookup_insert_eq in Hl by lia. simplify_eq.
      by apply edge_ok_insert.
    + rewrite list_lookup_insert_ne in Hl by lia.
      apply edge_ok_insert; [lia|]. apply Hp; [lia|done].
Qed.

Lemma edgeFrom_ok N a b sm s :
  scan_inv N a b sm -> 0 <= s <= a -> a <= N ->
  exists e, edgeFrom sm s = Some e /\ Edge.S e = s /\
            edge_ok (elems (Segmenter.path sm)) (s + 1) e.
Proof.
  intros [_ (p & Hp & Hlen & _) _ _ _ _] Hs Ha. unfold edgeFrom. rewrite Hp.
  destruct (lookup_lt_is_Some_2 p (Z.to_nat s)) as [src Hsrc]; [lia|].
  rewrite (slice_get_data _ _ src) by (done || lia). simpl.
  eexists; split; [done|]. split; [done|]. split; simpl; [lia|].
  exists src. split; [done|]. lia.
Qed.

(** ** The live pointers *)

Lemma omap_cons_case {A B} (f : A -> option B) x l :
  omap f (x :: l) = match f x with Some y => y :: omap f l | None => omap f l end.
Proof. done. Qed.

(** The in-place compaction keeps, in order, the pointers that step. *)
Lemma compactPointers_spec d ch rest : forall done mid,
  exists mid',
    compactPointers d ch (SData (done ++ mid ++ rest))
      (Z.of_nat (length done + length mid)) (Z.of_nat (length done)) (length rest)
    = Some (SData (done ++ omap (stepPointer d ch) rest ++ mid'),
            Z.of_nat (length done + length (omap (stepPointer d ch) rest))).
Proof.
  induction rest as [|p rest IH]; intros done mid.
  - exists mid. simpl. by rewrite !app_nil_r, Nat.add_0_r.
  - cbn [compactPointers length]. rewrite omap_cons_case.
    rewrite (slice_get_data _ _ p); [|lia|].
    2:{ rewrite Nat2Z.id, app_assoc, lookup_app_r by (rewrite length_app; lia).
        rewrite length_app, Nat.sub_diag. done. }
    cbn [mbind option_bind].
    destruct (stepPointer d ch p) as [p'|] eqn:Hstep; unfold stepPointer in Hstep;
      destruct (d !! _) as [childNode|]; simplify_eq/=.
    + destruct (mid ++ [p]) as [|x t] eqn:Hmid; [by destruct mid|].
      assert (length t = length mid) as Ht.
      { apply (f_equal length) in Hmid. rewrite length_app in Hmid. simpl in Hmid. lia. }
      replace (done ++ mid ++ p :: rest) with (done ++ (x :: t) ++ rest)
        by (rewrite <- Hmid, <- (app_assoc mid); done).
      rewrite slice_set_data by (rewrite !length_app; simpl; lia).
      cbn [mbind option_bind].
      rewrite Nat2Z.id, insert_app_r_alt, Nat.sub_diag by lia.
      cbn [app insert list_insert].
      set (p' := DictBuilderPointer.mk _ _ _).
      destruct (IH (done ++ [p']) t) as [mid' Hmid'].
      rewrite length_app in Hmid'. cbn [length] in Hmid'.
      rewrite <- !app_assoc in Hmid'. cbn [app] in Hmid'.
      exists mid'.
      replace (Z.of_nat (length done + length mid) + 1)
        with (Z.of_nat (length done + 1 + length t)) by lia.
      replace (Z.of_nat (length done) + 1) with (Z.of_nat (length done + 1)) by lia.
      rewrite Hmid'. cbn [length]. do 2 f_equal. lia.
    + destruct (IH done (mid ++ [p])) as [mid' Hmid'].
      rewrite length_app in Hmid'. cbn [length] in Hmid'.
      rewrite <- (app_assoc mid) in Hmid'. cbn [app] in Hmid'.
      exists mid'.
      replace (Z.of_nat (length done + length mid) + 1)
        with (Z.of_nat (length done + (length mid + 1))) by lia.
      done.
Qed.

(** [advancePointers] never panics, and leaves the stepped survivors of
    the old pointers followed by the fresh one. *)
Lemma advancePointers_eq sm ch :
  advancePointers sm ch =
  Some (set_pointers
          (SData (omap (stepPointer (Segmenter.dict sm) ch)
                       (elems (Segmenter.pointers sm) ++ [zeroPointer]))) sm).
Proof.
  unfold advancePointers, slice_append. cbn [elems].
  destruct (compactPointers_spec (Segmenter.dict sm) ch
              (elems (Segmenter.pointers sm) ++ [zeroPointer]) [] []) as [mid' H].
  cbn [app length Nat.add] in H. change (Z.of_nat 0) with 0 in H.
  rewrite H. cbn [mbind option_bind].
  unfold slice_take, slice_len. cbn [elems].
  rewrite bool_decide_eq_true_2 by (rewrite length_app; lia).
  cbn [mbind option_bind]. rewrite Nat2Z.id, take_app_length. done.
Qed.

(** ** Each block of the loop body keeps the invariant *)

Lemma scan_inv_weaken N a b b' sm :
  b <= b' -> scan_inv N a b sm -> scan_inv N a b' sm.
Proof.
  intros Hb [HN Hp Hlb Hlat Hsp Hptr]. constructor; try done.
  - intros H. specialize (Hlat H). lia.
  - intros H. specialize (Hsp H). lia.
  - eapply Forall_impl; [done|]. cbn. intros; lia.
Qed.

(** Closing a run at boundary [i] with the edge that starts at [s]. *)
Lemma flush_inv N i sm s (set_flag : Segmenter.t -> Segmenter.t) :
  0 <= i < N -> 0 <= s < i -> scan_inv N i i sm ->
  (forall sm0, scan_inv N i i sm0 -> scan_inv N i i (set_flag sm0)) ->
  exists e p, edgeFrom sm s = Some e /\ slice_set (Segmenter.path sm) i e = Some p /\
    scan_inv N i i (set_leftBoundary i (set_flag (set_path p sm))).
Proof.
  intros Hi Hs Hinv Hflag.
  destruct (edgeFrom_ok N i i sm s) as (e & He & HS & Hok); [done|lia|lia|].
  destruct Hinv as [HN (p & Hp & Hlen & Hpok) Hlb Hlat Hsp Hptr].
  rewrite Hp in *. cbn [elems] in Hok.
  exists e, (SData (<[Z.to_nat i := e]> p)). split; [done|].
  split; [by apply slice_set_data; lia|].
  assert (scan_inv N i i (set_path (SData (<[Z.to_nat i := e]> p)) sm)) as Hinv'.
  { constructor; cbn; try done.
    eexists; split; [done|]. rewrite length_insert. split; [done|].
    apply (path_ok_insert _ i); [done|lia|lia|]. eapply edge_ok_mono; [|done]. lia. }
  destruct (Hflag _ Hinv') as [HN' Hp' Hlb' Hlat' Hsp' Hptr'].
  constructor; cbn; try done. lia.
Qed.

Lemma flushSpace_inv N i sm :
  0 <= i < N -> scan_inv N i i sm ->
  exists sm', flushSpace sm i = Some sm' /\ scan_inv N i i sm' /\
    Segmenter.foundSpace sm' = false /\
    Segmenter.foundLatin sm' = Segmenter.foundLatin sm /\
    Segmenter.foundBestEdge sm' = Segmenter.foundBestEdge sm.
Proof.
  intros Hi Hinv. unfold flushSpace.
  destruct (Segmenter.foundSpace sm) eqn:Hf; [|by exists sm].
  destruct (flush_inv N i sm (Segmenter.startSpace sm) (set_foundSpace false))
    as (e & p & -> & Hset & Hinv'); [done|by apply (inv_space _ _ _ _ Hinv)|done| |].
  { intros sm0 [? ? ? ? ? ?]. by constructor. }
  cbn [mbind option_bind]. rewrite Hset. cbn [mbind option_bind]. eauto 10.
Qed.

Lemma flushLatin_inv N i sm :
  0 <= i < N -> scan_inv N i i sm ->
  exists sm', flushLatin sm i = Some sm' /\ scan_inv N i i sm' /\
    Segmenter.foundLatin sm' = false /\
    Segmenter.foundSpace sm' = Segmenter.foundSpace sm /\
    Segmenter.foundBestEdge sm' = Segmenter.foundBestEdge sm.
Proof.
  intros Hi Hinv. unfold flushLatin.
  destruct (Segmenter.foundLatin sm) eqn:Hf; [|by exists sm].
  destruct (flush_inv N i sm (Segmenter.startLatin sm) (set_foundLatin false))
    as (e & p & -> & Hset & Hinv'); [done|by apply (inv_latin _ _ _ _ Hinv)|done| |].
  { intros sm0 [? ? ? ? ? ?]. by constructor. }
  cbn [mbind option_bind]. rewrite Hset. cbn [mbind option_bind]. eauto 10.
Qed.

Lemma openLatin_inv N i sm :
  0 <= i -> scan_inv N i i sm ->
  scan_inv N i (i + 1) (openLatin sm i) /\
  Segmenter.foundLatin (openLatin sm i) = true /\
  Segmenter.foundSpace (openLatin sm i) = Segmenter.foundSpace sm /\
  Segmenter.foundBestEdge (openLatin sm i) = Segmenter.foundBestEdge sm.
Proof.
  intros Hi Hinv. apply (scan_inv_weaken _ _ _ (i + 1)) in Hinv; [|lia].
  unfold openLatin. destruct (Segmenter.foundLatin sm) eqn:Hf; cbn; [done|].
  split; [|done]. destruct Hinv as [? ? ? ? ? ?]. constructor; cbn; try done. lia.
Qed.

Lemma openSpace_inv N i sm :
  0 <= i -> scan_inv N i i sm ->
  scan_inv N i (i + 1) (openSpace sm i) /\
  Segmenter.foundSpace (openSpace sm i) = true /\
  Segmenter.foundLatin (openSpace sm i) = Segmenter.foundLatin sm /\
  Segmenter.foundBestEdge (openSpace sm i) = Segmenter.foundBestEdge sm.
Proof.
  intros Hi Hinv. apply (scan_inv_weaken _ _ _ (i + 1)) in Hinv; [|lia].
  unfold openSpace. destruct (Segmenter.foundSpace sm) eqn:Hf; cbn; [done|].
  split; [|done]. destruct Hinv as [? ? ? ? ? ?]. constructor; cbn; try done. lia.
Qed.

(** Proposing the edge that starts at [s] as the best one. *)
Lemma propose_inv N i b sm s (set_flag : Segmenter.t -> Segmenter.t) :
  0 <= i < N -> 0 <= s <= i -> scan_inv N i b sm ->
  (forall sm0, scan_inv N i b sm0 -> scan_inv N i b (set_flag sm0)) ->
  (forall sm0, Segmenter.path (set_flag sm0) = Segmenter.path sm0 /\
               Segmenter.bestEdge (set_flag sm0) = Segmenter.bestEdge sm0) ->
  exists e, edgeFrom sm s = Some e /\
    scan_inv N i b (set_flag (set_foundBestEdge true (set_bestEdge e sm))) /\
    best_ok i (set_flag (set_foundBestEdge true (set_bestEdge e sm))).
Proof.
  intros Hi Hs Hinv Hflag Hframe.
  destruct (edgeFrom_ok N i b sm s) as (e & He & HS & Hok); [done|lia|lia|].
  exists e. split; [done|]. split.
  - apply Hflag. destruct Hinv as [? ? ? ? ? ?]. by constructor.
  - intros _. destruct (Hframe (set_foundBestEdge true (set_bestEdge e sm))) as [-> ->].
    cbn. eapply edge_ok_mono; [|done]. lia.
Qed.

Lemma closeLatin_inv N i sm :
  0 <= i < N -> scan_inv N i (i + 1) sm ->
  Segmenter.foundLatin sm = true -> Segmenter.foundBestEdge sm = false ->
  exists sm', closeLatin sm i = Some sm' /\ scan_inv N i (i + 1) sm' /\ best_ok i sm'.
Proof.
  intros Hi Hinv Hf Hb. unfold closeLatin. case_match.
  - destruct (propose_inv N i (i + 1) sm (Segmenter.startLatin sm) (set_foundLatin false))
      as (e & -> & ? & ?); [done| |done| | |by eauto].
    + pose proof (inv_latin _ _ _ _ Hinv Hf). lia.
    + intros sm0 [? ? ? ? ? ?]. by constructor.
    + done.
  - exists sm. split; [done|]. split; [done|]. intros ?. congruence.
Qed.

Lemma closeSpace_inv N i sm :
  0 <= i < N -> scan_inv N i (i + 1) sm ->
  Segmenter.foundSpace sm = true -> Segmenter.foundBestEdge sm = false ->
  exists sm', closeSpace sm i = Some sm' /\ scan_inv N i (i + 1) sm' /\ best_ok i sm'.
Proof.
  intros Hi Hinv Hf Hb. unfold closeSpace. case_match.
  - destruct (propose_inv N i (i + 1) sm (Segmenter.startSpace sm) (set_foundSpace false))
      as (e & -> & ? & ?); [done| |done| | |by eauto].
    + pose proof (inv_space _ _ _ _ Hinv Hf). lia.
    + intros sm0 [? ? ? ? ? ?]. by constructor.
    + done.
  - exists sm. split; [done|]. split; [done|]. intros ?. congruence.
Qed.

Lemma considerPointer_inv N i b sm q :
  0 <= i < N -> 1 <= DictBuilderPointer.Offset q <= i + 1 ->
  scan_inv N i b sm -> best_ok i sm ->
  exists sm', considerPointer sm i q = Some sm' /\ scan_inv N i b sm' /\ best_ok i sm'.
Proof.
  intros Hi Hq Hinv Hbest. unfold considerPointer.
  destruct (DictBuilderPointer.IsFinal q); [|by eauto].
  destruct (propose_inv N i b sm (1 + i - DictBuilderPointer.Offset q) id)
    as (e & -> & ? & ?); [done|lia|done|done|done|].
  cbn [mbind option_bind]. repeat case_match; eauto.
Qed.

Lemma chooseDictEdge_inv N i b ptrs : forall sm,
  0 <= i < N ->
  Forall (fun q => 1 <= DictBuilderPointer.Offset q <= i + 1) ptrs ->
  scan_inv N i b sm -> best_ok i sm ->
  exists sm', chooseDictEdge sm i ptrs = Some sm' /\ scan_inv N i b sm' /\ best_ok i sm'.
Proof.
  induction ptrs as [|q ptrs IH]; intros sm Hi Hq Hinv Hbest; [by eauto|].
  apply Forall_cons in Hq as [Hq Hptrs]. cbn [chooseDictEdge].
  destruct (considerPointer_inv N i b sm q) as (sm1 & -> & ? & ?); [done..|].
  cbn [mbind option_bind]. by apply IH.
Qed.

Lemma stepPointer_Offset d ch p p' :
  stepPointer d ch p = Some p' ->
  DictBuilderPointer.Offset p' = DictBuilderPointer.Offset p + 1.
Proof. unfold stepPointer. intros; simplify_option_eq. done. Qed.

Lemma advancePointers_inv N i sm ch :
  0 <= i -> scan_inv N i i sm ->
  exists sm', advancePointers sm ch = Some sm' /\ scan_inv N i (i + 1) sm' /\
    Forall (fun q => 1 <= DictBuilderPointer.Offset q <= i + 1)
           (elems (Segmenter.pointers sm')) /\
    Segmenter.foundLatin sm' = Segmenter.foundLatin sm /\
    Segmenter.foundSpace sm' = Segmenter.foundSpace sm /\
    Segmenter.foundBestEdge sm' = Segmenter.foundBestEdge sm.
Proof.
  intros Hi Hinv. rewrite advancePointers_eq. eexists; split; [done|].
  assert (Forall (fun q => 1 <= DictBuilderPointer.Offset q <= i + 1)
            (omap (stepPointer (Segmenter.dict sm) ch)
               (elems (Segmenter.pointers sm) ++ [zeroPointer]))) as Hall.
  { apply Forall_forall. intros q' Hq'. apply list_elem_of_omap in Hq' as (q & Hq & Hstep).
    apply stepPointer_Offset in Hstep. rewrite Hstep.
    apply elem_of_app in Hq as [Hq|Hq].
    - pose proof (inv_pointers _ _ _ _ Hinv) as Hall.
      rewrite Forall_forall in Hall. specialize (Hall _ Hq). cbn in Hall. lia.
    - apply list_elem_of_singleton in Hq as ->. cbn. lia. }
  split; [|done].
  apply (scan_inv_weaken _ _ _ (i + 1)) in Hinv; [|lia].
  destruct Hinv as [? ? ? ? ? ?]. constructor; cbn; try done.
  eapply Forall_impl; [done|]. cbn. intros; lia.
Qed.

Lemma commitEdge_inv N i sm :
  0 <= i < N -> scan_inv N i (i + 1) sm -> best_ok i sm ->
  exists sm', commitEdge sm i = Some sm' /\ scan_inv N (i + 1) (i + 1) sm' /\
    Segmenter.foundLatin sm' = Segmenter.foundLatin sm /\
    Segmenter.foundSpace sm' = Segmenter.foundSpace sm.
Proof.
  intros Hi Hinv Hbest. unfold commitEdge.
  assert (exists sm1, (if negb (Segmenter.foundBestEdge sm) then
             source ← slice_get (Segmenter.path sm) (Segmenter.leftBoundary sm);
             Some (set_foundBestEdge true
                    (set_bestEdge (Edge.mk (Segmenter.leftBoundary sm)
                                           (Edge.WordCount source + 1)
                                           (Edge.UnkCount source + 1)) sm))
           else Some (set_leftBoundary (i + 1) sm)) = Some sm1 /\
          Segmenter.path sm1 = Segmenter.path sm /\
          Segmenter.length sm1 = Segmenter.length sm /\
          Segmenter.foundLatin sm1 = Segmenter.foundLatin sm /\
          Segmenter.startLatin sm1 = Segmenter.startLatin sm /\
          Segmenter.foundSpace sm1 = Segmenter.foundSpace sm /\
          Segmenter.startSpace sm1 = Segmenter.startSpace sm /\
          Segmenter.pointers sm1 = Segmenter.pointers sm /\
          0 <= Segmenter.leftBoundary sm1 <= i + 1 /\
          edge_ok (elems (Segmenter.path sm)) (i + 1) (Segmenter.bestEdge sm1))
    as (sm1 & -> & Hp1 & HN1 & HfL & HsL & HfS & HsS & Hptr1 & Hlb1 & Hok1).
  { pose proof (inv_left _ _ _ _ Hinv) as Hlb.
    destruct (Segmenter.foundBestEdge sm) eqn:Hf; cbn [negb].
    - eexists; split; [done|]. cbn. do 8 (split; [done || lia|]). by apply Hbest.
    - destruct (inv_path _ _ _ _ Hinv) as (p & Hp & Hlen & _).
      destruct (lookup_lt_is_Some_2 p (Z.to_nat (Segmenter.leftBoundary sm)))
        as [source Hsource]; [lia|].
      rewrite Hp. rewrite (slice_get_data _ _ source) by (done || lia).
      cbn [mbind option_bind]. eexists; split; [done|]. cbn.
      do 8 (split; [done || lia|]).
      split; cbn; [lia|]. exists source. split; [done|]. lia. }
  destruct Hinv as [HN (p & Hp & Hlen & Hpok) Hlb Hlat Hsp Hptr].
  cbn [mbind option_bind]. rewrite Hp1, Hp in *. cbn [elems] in Hok1.
  rewrite slice_set_data by lia. cbn [mbind option_bind].
  eexists; split; [done|]. split; [|done].
  constructor; cbn; try congruence.
  - eexists; split; [done|]. rewrite length_insert. split; [done|].
    apply (path_ok_insert _ i); [done|lia|lia|done].
  - rewrite HfL, HsL. done.
  - rewrite HfS, HsS. done.
Qed.

(** What the blocks do to [foundSpace]. *)
Lemma closeLatin_foundSpace sm i sm' :
  closeLatin sm i = Some sm' -> Segmenter.foundSpace sm' = Segmenter.foundSpace sm.
Proof. unfold closeLatin. intros; repeat case_match; by simplify_option_eq. Qed.

Lemma closeSpace_foundSpace sm i sm' :
  closeSpace sm i = Some sm' -> Segmenter.foundSpace sm' = true ->
  i <> Segmenter.length sm - 1.
Proof. unfold closeSpace. intros; repeat case_match; simplify_option_eq; lia. Qed.

Lemma considerPointer_foundSpace sm i q sm' :
  considerPointer sm i q = Some sm' ->
  Segmenter.foundSpace sm' = Segmenter.foundSpace sm.
Proof.
  unfold considerPointer. destruct (DictBuilderPointer.IsFinal q); [|by intros; simplify_eq].
  destruct (edgeFrom _ _); cbn; [|done]. repeat case_match; intros; by simplify_eq.
Qed.

Lemma chooseDictEdge_foundSpace i ptrs : forall sm sm',
  chooseDictEdge sm i ptrs = Some sm' ->
  Segmenter.foundSpace sm' = Segmenter.foundSpace sm.
Proof.
  induction ptrs as [|q ptrs IH]; intros sm sm' H; cbn in H; [by simplify_eq|].
  destruct (considerPointer sm i q) as [sm1|] eqn:H1; [|done]. cbn in H.
  rewrite (IH _ _ H). by eapply considerPointer_foundSpace.
Qed.

(** One round of the scan keeps the invariant and never panics; a space
    run is still open afterwards only if the line goes on. *)
Lemma scanRune_inv N i sm ch :
  0 <= i < N -> scan_inv N i i sm ->
  exists sm', scanRune sm i ch = Some sm' /\ scan_inv N (i + 1) (i + 1) sm' /\
    (Segmenter.foundSpace sm' = true -> i + 1 < N).
Proof.
  intros Hi Hinv. unfold scanRune.
  set (sm0 := set_foundBestEdge false (set_bestEdge (Edge.mk 0 0 0) sm)).
  assert (scan_inv N i i sm0) as Hinv0.
  { destruct Hinv as [? ? ? ? ? ?]. by constructor. }
  assert (Segmenter.foundBestEdge sm0 = false) as Hb0 by done.
  clearbody sm0. clear Hinv.
  destruct (IsLatin ch); [|destruct (IsSpace ch)].
  - destruct (flushSpace_inv N i sm0) as (sm1 & -> & Hinv1 & HfS1 & _ & Hb1); [done..|].
    cbn [mbind option_bind].
    destruct (openLatin_inv N i sm1) as (Hinv2 & HfL2 & HfS2 & Hb2); [lia|done|].
    destruct (closeLatin_inv N i (openLatin sm1 i)) as (sm3 & Hclose & Hinv3 & Hbest3);
      [done|done|done|congruence|].
    rewrite Hclose. cbn [mbind option_bind].
    destruct (commitEdge_inv N i sm3) as (sm4 & -> & Hinv4 & _ & HfS4); [done..|].
    eexists; split; [done|]. split; [done|].
    apply closeLatin_foundSpace in Hclose. congruence.
  - destruct (flushLatin_inv N i sm0) as (sm1 & -> & Hinv1 & HfL1 & _ & Hb1); [done..|].
    cbn [mbind option_bind].
    destruct (openSpace_inv N i sm1) as (Hinv2 & HfS2 & HfL2 & Hb2); [lia|done|].
    destruct (closeSpace_inv N i (openSpace sm1 i)) as (sm3 & Hclose & Hinv3 & Hbest3);
      [done|done|done|congruence|].
    rewrite Hclose. cbn [mbind option_bind].
    destruct (commitEdge_inv N i sm3) as (sm4 & -> & Hinv4 & _ & HfS4); [done..|].
    eexists; split; [done|]. split; [done|].
    rewrite HfS4. intros Hf. eapply closeSpace_foundSpace in Hclose; [|done].
    rewrite (inv_length _ _ _ _ Hinv2) in Hclose. lia.
  - destruct (flushSpace_inv N i sm0) as (sm1 & -> & Hinv1 & HfS1 & _ & Hb1); [done..|].
    cbn [mbind option_bind].
    destruct (flushLatin_inv N i sm1) as (sm2 & -> & Hinv2 & HfL2 & HfS2 & Hb2); [done..|].
    cbn [mbind option_bind].
    destruct (advancePointers_inv N i sm2 ch)
      as (sm3 & -> & Hinv3 & Hptrs3 & _ & HfS3 & Hb3); [lia|done|].
    cbn [mbind option_bind].
    destruct (chooseDictEdge_inv N i (i + 1) (elems (Segmenter.pointers sm3)) sm3)
      as (sm4 & Hchoose & Hinv4 & Hbest4); [done|done|done| |].
    { intros ?. congruence. }
    rewrite Hchoose. cbn [mbind option_bind].
    destruct (commitEdge_inv N i sm4) as (sm5 & -> & Hinv5 & _ & HfS5); [done..|].
    eexists; split; [done|]. split; [done|].
    apply chooseDictEdge_foundSpace in Hchoose. congruence.
Qed.

Lemma scanFrom_inv N line : forall i sm,
  0 <= i -> i + Z.of_nat (length line) = N -> scan_inv N i i sm ->
  (Segmenter.foundSpace sm = true -> i < N) ->
  exists sm', scanFrom sm i line = Some sm' /\ scan_inv N N N sm' /\
    Segmenter.foundSpace sm' = false.
Proof.
  induction line as [|ch line IH]; intros i sm Hi HN Hinv Hsp; cbn [scanFrom].
  - cbn in HN. assert (i = N) as -> by lia. exists sm. split; [done|]. split; [done|].
    destruct (Segmenter.foundSpace sm); [|done]. lia.
  - cbn [length] in HN.
    destruct (scanRune_inv N i sm ch) as (sm1 & -> & Hinv1 & Hsp1); [lia|done|].
    cbn [mbind option_bind]. apply IH; [lia|lia|done|done].
Qed.

Lemma iter_append_replicate {A} (x : A) n l :
  Nat.iter n (fun p => slice_append p x) (SData l) = SData (l ++ replicate n x).
Proof.
  induction n as [|n IH].
  - cbn. by rewrite app_nil_r.
  - rewrite Nat.iter_succ, IH. unfold slice_append. cbn [elems]. rewrite <- app_assoc.
    by rewrite <- replicate_S_end.
Qed.

(** The reset block never panics; it leaves a zeroed edge array of
    [len(line) + 1] entries whether the old one was nil or not. *)
Lemma resetScratch_eq sm line :
  exists ptrs,
    resetScratch sm line =
    Some (Segmenter.mk (Segmenter.dict sm)
            (SData (replicate (S (length line)) zeroEdge)) 0 0 false 0
            (Segmenter.foundSpace sm) (Segmenter.bestEdge sm)
            (Segmenter.foundBestEdge sm) ptrs (Z.of_nat (length line))) /\
    elems ptrs = [].
Proof.
  destruct sm as [d p lb sL fL sS fS be fbe ptrs len].
  unfold resetScratch. cbn [Segmenter.path Segmenter.length set_length].
  assert (Z.to_nat (Z.of_nat (length line) + 1) = S (length line)) as Hn by lia.
  assert (match p with
          | SNil => slice_make zeroEdge (Z.of_nat (length line) + 1)
          | SData _ =>
              p0 ← slice_take p 0;
              Some (Nat.iter (Z.to_nat (Z.of_nat (length line) + 1))
                             (fun p => slice_append p zeroEdge) p0)
          end = Some (SData (replicate (S (length line)) zeroEdge))) as ->.
  { destruct p as [|p].
    - unfold slice_make. rewrite bool_decide_eq_true_2 by lia. by rewrite Hn.
    - unfold slice_take, slice_len. rewrite bool_decide_eq_true_2 by lia.
      cbn [mbind option_bind]. change (Z.to_nat 0) with 0%nat. rewrite take_0.
      by rewrite iter_append_replicate, Hn. }
  cbn [mbind option_bind]. cbn.
  destruct ptrs as [|ptrs]; cbn.
  - by exists SNil.
  - exists (SData []). unfold slice_take, slice_len.
    by rewrite bool_decide_eq_true_2 by (cbn; lia).
Qed.

Lemma resetScratch_inv sm line :
  Segmenter.foundSpace sm = false ->
  exists sm', resetScratch sm line = Some sm' /\
    scan_inv (Z.of_nat (length line)) 0 0 sm' /\
    Segmenter.foundSpace sm' = false /\ Segmenter.dict sm' = Segmenter.dict sm.
Proof.
  intros Hf. destruct (resetScratch_eq sm line) as (ptrs & -> & Hptrs).
  eexists; split; [done|]. split; [|done].
  constructor; cbn; try done.
  - eexists; split; [done|]. split; [cbn; rewrite length_replicate; lia|].
    split; [done|]. intros; lia.
  - by rewrite Hf.
  - by rewrite Hptrs.
Qed.

(** [BuildPath] never panics on a segmenter with no open space run; the
    edge array it leaves is sound at every boundary, and no space run is
    open when it returns. *)
Lemma BuildPath_inv sm line :
  Segmenter.foundSpace sm = false ->
  exists sm', BuildPath sm line = Some sm' /\
    scan_inv (Z.of_nat (length line)) (Z.of_nat (length line))
             (Z.of_nat (length line)) sm' /\
    Segmenter.foundSpace sm' = false.
Proof.
  intros Hf. unfold BuildPath.
  destruct (resetScratch_inv sm line Hf) as (sm0 & -> & Hinv0 & Hf0 & _).
  cbn [mbind option_bind].
  apply scanFrom_inv; [lia|lia|done|congruence].
Qed.

(** ** Reading the tokens off the edge array *)

Lemma take_take_drop {A} (l : list A) (s e : nat) :
  (s <= e)%nat -> take s l ++ take (e - s) (drop s l) = take e l.
Proof.
  intros Hse. rewrite <- (take_drop s (take e l)) at 1.
  rewrite take_take, Nat.min_l by lia. f_equal.
  by rewrite skipn_firstn_comm.
Qed.

(** The walk back from boundary [e] fills [tokens] downwards from [i]
    with the tokens of the first [e] codepoints, in source order, one
    token per word counted at [e]. *)
Lemma collectTokens_spec p line a :
  path_ok p a -> a < Z.of_nat (length p) -> a <= Z.of_nat (length line) ->
  forall rounds e i toks,
    0 <= e <= a -> e <= i < Z.of_nat (length toks) -> e < Z.of_nat rounds ->
    exists toks' i' out,
      collectTokens rounds (SData p) line (SData toks) e i = Some (SData toks', i') /\
      length toks' = length toks /\ 0 <= i' + 1 <= i + 1 /\
      drop (Z.to_nat (i' + 1)) toks' = out ++ drop (Z.to_nat (i + 1)) toks /\
      concat out = take (Z.to_nat e) line /\
      Forall (fun tok => tok <> []) out /\
      (forall edge, p !! Z.to_nat e = Some edge ->
                    Z.of_nat (length out) = Edge.WordCount edge).
Proof.
  intros [H0 Hp] Hlen Hline.
  induction rounds as [|rounds IH]; intros e i toks He Hi Hr; [lia|].
  cbn [collectTokens]. destruct (0 <? e) eqn:Hpos.
  - apply Z.ltb_lt in Hpos.
    destruct (lookup_lt_is_Some_2 p (Z.to_nat e)) as [edge Hedge]; [lia|].
    rewrite (slice_get_data _ _ edge) by (done || lia). cbn [mbind option_bind].
    destruct (Hp e edge) as [Hs (src & Hsrc & Hwc & _)]; [lia|done|].
    unfold slice_range. rewrite bool_decide_eq_true_2 by lia.
    cbn [mbind option_bind]. rewrite slice_set_data by lia. cbn [mbind option_bind].
    set (tok := take _ _).
    destruct (IH (Edge.S edge) (i - 1) (<[Z.to_nat i := tok]> toks))
      as (toks' & i' & out & -> & Hlen' & Hi' & Hdrop & Hcat & Hne & Hcount);
      [lia|rewrite length_insert; lia|lia|].
    exists toks', i', (out ++ [tok]). split; [done|].
    split; [by rewrite Hlen', length_insert|]. split; [lia|]. split; [|split; [|split]].
    + rewrite Hdrop, <- app_assoc. f_equal.
      replace (Z.to_nat (i - 1 + 1)) with (Z.to_nat i) by lia.
      replace (Z.to_nat (i + 1)) with (S (Z.to_nat i)) by lia.
      erewrite drop_S; [|apply list_lookup_insert_eq; lia].
      cbn. f_equal. by rewrite drop_insert_lt by lia.
    + rewrite concat_app, Hcat. cbn. rewrite app_nil_r. subst tok.
      replace (Z.to_nat (e - Edge.S edge)) with (Z.to_nat e - Z.to_nat (Edge.S edge))%nat by lia.
      apply take_take_drop. lia.
    + apply Forall_app. split; [done|]. apply Forall_singleton. subst tok.
      intros Hnil. apply (f_equal length) in Hnil.
      rewrite length_take, length_drop in Hnil. cbn in Hnil. lia.
    + intros edge' Hedge'. simplify_eq. rewrite length_app. cbn.
      rewrite <- Hwc, <- (Hcount src Hsrc). lia.
  - apply Z.ltb_ge in Hpos. assert (e = 0) as -> by lia.
    exists toks, i, []. split; [done|]. split; [done|]. split; [lia|].
    split; [done|]. split; [done|]. split; [done|].
    intros edge Hedge. change (Z.to_nat 0) with 0%nat in Hedge.
    rewrite H0 in Hedge. by simplify_eq.
Qed.

(** [Segment] on a segmenter with no open space run: it returns, its
    tokens concatenate to the line, none of them is empty, and their
    number is the word count of the last entry of the edge array. *)
Lemma Segment_spec sm line :
  Segmenter.foundSpace sm = false ->
  exists out sm' p last,
    Segment sm line = Some (out, sm') /\
    BuildPath sm line = Some sm' /\
    Segmenter.path sm' = SData p /\
    Z.of_nat (length p) = Z.of_nat (length line) + 1 /\
    path_ok p (Z.of_nat (length line)) /\
    p !! length line = Some last /\
    concat out = line /\
    Forall (fun tok => tok <> []) out /\
    Z.of_nat (length out) = Edge.WordCount last /\
    Segmenter.foundSpace sm' = false.
Proof.
  intros Hf. unfold Segment.
  destruct (BuildPath_inv sm line Hf) as (sm' & HB & Hinv & Hf'). rewrite HB.
  cbn [mbind option_bind].
  destruct (inv_path _ _ _ _ Hinv) as (p & Hp & Hlen & Hok). rewrite Hp.
  unfold slice_len, slice_make. cbn [elems].
  rewrite bool_decide_eq_true_2 by lia. cbn [mbind option_bind].
  destruct (lookup_lt_is_Some_2 p (length line)) as [last Hlast]; [lia|].
  replace (Z.of_nat (length p) - 1) with (Z.of_nat (length line)) by lia.
  rewrite (slice_get_data _ _ last) by (rewrite ?Nat2Z.id; done || lia).
  cbn [mbind option_bind].
  destruct (collectTokens_spec p line (Z.of_nat (length line)) Hok ltac:(lia) ltac:(lia)
              (Z.to_nat (Z.of_nat (length p)) + 1)%nat (Z.of_nat (length line))
              (Z.of_nat (length line))
              (replicate (Z.to_nat (Z.of_nat (length p))) []))
    as (toks' & i' & out & -> & Hlen' & Hi' & Hdrop & Hcat & Hne & Hcount);
    [lia|rewrite length_replicate; lia|lia|].
  cbn [mbind option_bind elems].
  rewrite ?length_replicate in Hlen'.
  rewrite (drop_ge (replicate _ _)), app_nil_r in Hdrop by (rewrite length_replicate; lia).
  rewrite Nat2Z.id, firstn_all in Hcat.
  unfold slice_range. rewrite bool_decide_eq_true_2 by lia. cbn [mbind option_bind].
  rewrite take_ge by (rewrite length_drop; lia). rewrite Hdrop.
  exists out, sm', p, last. rewrite Nat2Z.id in Hcount. eauto 12.
Qed.

(** ** The dictionary is read, never written *)

Lemma flushSpace_dict sm i sm' :
  flushSpace sm i = Some sm' -> Segmenter.dict sm' = Segmenter.dict sm.
Proof. unfold flushSpace. intros H. by open_block. Qed.

Lemma flushLatin_dict sm i sm' :
  flushLatin sm i = Some sm' -> Segmenter.dict sm' = Segmenter.dict sm.
Proof. unfold flushLatin. intros H. by open_block. Qed.

Lemma closeLatin_dict sm i sm' :
  closeLatin sm i = Some sm' -> Segmenter.dict sm' = Segmenter.dict sm.
Proof. unfold closeLatin. intros H. by open_block. Qed.

Lemma closeSpace_dict sm i sm' :
  closeSpace sm i = Some sm' -> Segmenter.dict sm' = Segmenter.dict sm.
Proof. unfold closeSpace. intros H. by open_block. Qed.

Lemma considerPointer_dict sm i q sm' :
  considerPointer sm i q = Some sm' -> Segmenter.dict sm' = Segmenter.dict sm.
Proof. unfold considerPointer. intros H. by open_block. Qed.

Lemma chooseDictEdge_dict i ptrs : forall sm sm',
  chooseDictEdge sm i ptrs = Some sm' -> Segmenter.dict sm' = Segmenter.dict sm.
Proof.
  induction ptrs as [|q ptrs IH]; intros sm sm' H; cbn in H; [by simplify_eq|].
  apply bind_Some in H as (sm1 & H1 & H). rewrite (IH _ _ H).
  by eapply considerPointer_dict.
Qed.

Lemma commitEdge_dict sm i sm' :
  commitEdge sm i = Some sm' -> Segmenter.dict sm' = Segmenter.dict sm.
Proof. unfold commitEdge. intros H. by open_block. Qed.

Lemma scanRune_dict sm i ch sm' :
  scanRune sm i ch = Some sm' -> Segmenter.dict sm' = Segmenter.dict sm.
Proof.
  unfold scanRune. intros H. apply bind_Some in H as (sm1 & H1 & H).
  apply commitEdge_dict in H. rewrite H. clear H.
  destruct (IsLatin ch); [|destruct (IsSpace ch)].
  - apply bind_Some in H1 as (sm2 & H2 & H1).
    apply closeLatin_dict in H1. apply flushSpace_dict in H2.
    rewrite H1. unfold openLatin. by case_match; cbn in *.
  - apply bind_Some in H1 as (sm2 & H2 & H1).
    apply closeSpace_dict in H1. apply flushLatin_dict in H2.
    rewrite H1. unfold openSpace. by case_match; cbn in *.
  - apply bind_Some in H1 as (sm2 & H2 & H1).
    apply bind_Some in H1 as (sm3 & H3 & H1).
    apply bind_Some in H1 as (sm4 & H4 & H1).
    apply chooseDictEdge_dict in H1. rewrite advancePointers_eq in H4.
    apply flushSpace_dict in H2. apply flushLatin_dict in H3. simplify_eq.
    cbn in *. congruence.
Qed.

Lemma scanFrom_dict line : forall sm i sm',
  scanFrom sm i line = Some sm' -> Segmenter.dict sm' = Segmenter.dict sm.
Proof.
  induction line as [|ch line IH]; intros sm i sm' H; cbn in H; [by simplify_eq|].
  apply bind_Some in H as (sm1 & H1 & H). rewrite (IH _ _ _ H).
  by eapply scanRune_dict.
Qed.

Lemma BuildPath_dict sm line sm' :
  BuildPath sm line = Some sm' -> Segmenter.dict sm' = Segmenter.dict sm.
Proof.
  unfold BuildPath. intros H. apply bind_Some in H as (sm1 & H1 & H).
  apply scanFrom_dict in H. rewrite H.
  destruct (resetScratch_eq sm line) as (ptrs & Heq & _). by simplify_eq.
Qed.

(** ** The scan does not depend on the scratch state it starts from *)

Lemma flushSpace_pointers q sm i :
  flushSpace (set_pointers q sm) i = set_pointers q <$> flushSpace sm i.
Proof. unfold flushSpace, edgeFrom. commute_block. Qed.

Lemma flushLatin_pointers q sm i :
  flushLatin (set_pointers q sm) i = set_pointers q <$> flushLatin sm i.
Proof. unfold flushLatin, edgeFrom. commute_block. Qed.

Lemma openLatin_pointers q sm i :
  openLatin (set_pointers q sm) i = set_pointers q (openLatin sm i).
Proof. unfold openLatin. commute_block. Qed.

Lemma openSpace_pointers q sm i :
  openSpace (set_pointers q sm) i = set_pointers q (openSpace sm i).
Proof. unfold openSpace. commute_block. Qed.

Lemma closeLatin_pointers q sm i :
  closeLatin (set_pointers q sm) i = set_pointers q <$> closeLatin sm i.
Proof. unfold closeLatin, edgeFrom. commute_block. Qed.

Lemma closeSpace_pointers q sm i :
  closeSpace (set_pointers q sm) i = set_pointers q <$> closeSpace sm i.
Proof. unfold closeSpace, edgeFrom. commute_block. Qed.

Lemma commitEdge_pointers q sm i :
  commitEdge (set_pointers q sm) i = set_pointers q <$> commitEdge sm i.
Proof. unfold commitEdge. commute_block. Qed.

Lemma advancePointers_pointers q sm ch :
  elems q = elems (Segmenter.pointers sm) ->
  advancePointers (set_pointers q sm) ch = advancePointers sm ch.
Proof. intros Hq. rewrite !advancePointers_eq. cbn. by rewrite Hq. Qed.

Lemma alike_refl sm : alike sm sm.
Proof.
  exists (Segmenter.pointers sm), (Segmenter.bestEdge sm), (Segmenter.foundBestEdge sm).
  by destruct sm.
Qed.

Lemma alike_set_pointers q sm :
  elems q = elems (Segmenter.pointers sm) -> alike sm (set_pointers q sm).
Proof.
  intros Hq. exists q, (Segmenter.bestEdge sm), (Segmenter.foundBestEdge sm).
  by destruct sm.
Qed.

Lemma alike_path sm1 sm2 : alike sm1 sm2 -> Segmenter.path sm2 = Segmenter.path sm1.
Proof. by intros (q & e & b & -> & _). Qed.

(** The rounds on a Latin or space codepoint leave the pointers alone. *)
Lemma pointers_kept (f : Segmenter.t -> option Segmenter.t) sm sm' :
  (forall q s, f (set_pointers q s) = set_pointers q <$> f s) ->
  f sm = Some sm' -> Segmenter.pointers sm' = Segmenter.pointers sm.
Proof.
  intros Hf H. specialize (Hf (Segmenter.pointers sm) sm).
  replace (set_pointers (Segmenter.pointers sm) sm) with sm in Hf by by destruct sm.
  rewrite H in Hf. cbn in Hf. simplify_eq. by rewrite Hf.
Qed.

Lemma latinRound_pointers q sm i :
  (s ← (s1 ← flushSpace (set_pointers q sm) i; closeLatin (openLatin s1 i) i);
   commitEdge s i)
  = set_pointers q <$>
    (s ← (s1 ← flushSpace sm i; closeLatin (openLatin s1 i) i); commitEdge s i).
Proof.
  rewrite flushSpace_pointers. destruct (flushSpace sm i) as [s1|]; simpl_opt; [|done].
  rewrite openLatin_pointers, closeLatin_pointers.
  destruct (closeLatin _ _) as [s2|]; simpl_opt; [|done].
  apply commitEdge_pointers.
Qed.

Lemma spaceRound_pointers q sm i :
  (s ← (s1 ← flushLatin (set_pointers q sm) i; closeSpace (openSpace s1 i) i);
   commitEdge s i)
  = set_pointers q <$>
    (s ← (s1 ← flushLatin sm i; closeSpace (openSpace s1 i) i); commitEdge s i).
Proof.
  rewrite flushLatin_pointers. destruct (flushLatin sm i) as [s1|]; simpl_opt; [|done].
  rewrite openSpace_pointers, closeSpace_pointers.
  destruct (closeSpace _ _) as [s2|]; simpl_opt; [|done].
  apply commitEdge_pointers.
Qed.

Lemma scanRune_alike sm1 sm2 i ch :
  alike sm1 sm2 -> option_Forall2 alike (scanRune sm1 i ch) (scanRune sm2 i ch).
Proof.
  intros (q & e & b & -> & Hq). unfold scanRune.
  set (sm0 := set_foundBestEdge false (set_bestEdge (Edge.mk 0 0 0) sm1)).
  change (set_foundBestEdge false (set_bestEdge (Edge.mk 0 0 0)
            (set_pointers q (set_bestEdge e (set_foundBestEdge b sm1)))))
    with (set_pointers q sm0).
  assert (elems q = elems (Segmenter.pointers sm0)) as Hq0 by done.
  clearbody sm0. clear Hq.
  destruct (IsLatin ch); [|destruct (IsSpace ch)].
  - rewrite latinRound_pointers.
    destruct (_ ≫= _) as [s|] eqn:Hs; simpl_opt; constructor.
    apply alike_set_pointers. rewrite Hq0. f_equal. symmetry.
    eapply (pointers_kept (fun sm =>
      s ← (s1 ← flushSpace sm i; closeLatin (openLatin s1 i) i); commitEdge s i));
      [|done].
    intros; apply latinRound_pointers.
  - rewrite spaceRound_pointers.
    destruct (_ ≫= _) as [s|] eqn:Hs; simpl_opt; constructor.
    apply alike_set_pointers. rewrite Hq0. f_equal. symmetry.
    eapply (pointers_kept (fun sm =>
      s ← (s1 ← flushLatin sm i; closeSpace (openSpace s1 i) i); commitEdge s i));
      [|done].
    intros; apply spaceRound_pointers.
  - rewrite flushSpace_pointers.
    destruct (flushSpace sm0 i) as [s1|] eqn:H1; simpl_opt; [|constructor].
    rewrite flushLatin_pointers.
    destruct (flushLatin s1 i) as [s2|] eqn:H2; simpl_opt; [|constructor].
    rewrite advancePointers_pointers.
    + destruct (_ ≫= _) as [s|]; constructor. apply alike_refl.
    + rewrite Hq0. f_equal.
      rewrite (pointers_kept (fun sm => flushLatin sm i) s1 s2); [|intros; apply flushLatin_pointers|done].
      rewrite (pointers_kept (fun sm => flushSpace sm i) sm0 s1); [done|intros; apply flushSpace_pointers|done].
Qed.

Lemma scanFrom_alike line : forall sm1 sm2 i,
  alike sm1 sm2 -> option_Forall2 alike (scanFrom sm1 i line) (scanFrom sm2 i line).
Proof.
  induction line as [|ch line IH]; intros sm1 sm2 i H; cbn [scanFrom].
  - by constructor.
  - destruct (scanRune_alike sm1 sm2 i ch H) as [s1 s2 Hs|]; simpl_opt; [|constructor].
    by apply IH.
Qed.

(** [BuildPath] leaves the same edge array on any two segmenters that
    share the dictionary and the [foundSpace] flag. *)
Lemma BuildPath_alike sm1 sm2 line :
  Segmenter.dict sm1 = Segmenter.dict sm2 ->
  Segmenter.foundSpace sm1 = Segmenter.foundSpace sm2 ->
  option_Forall2 alike (BuildPath sm1 line) (BuildPath sm2 line).
Proof.
  intros Hd Hf. unfold BuildPath.
  destruct (resetScratch_eq sm1 line) as (q1 & -> & Hq1).
  destruct (resetScratch_eq sm2 line) as (q2 & -> & Hq2).
  cbn [mbind option_bind]. apply scanFrom_alike.
  exists q2, (Segmenter.bestEdge sm2), (Segmenter.foundBestEdge sm2).
  cbn. rewrite Hd, Hf, Hq1, Hq2. done.
Qed.

Lemma Segment_alike sm1 sm2 line :
  Segmenter.dict sm1 = Segmenter.dict sm2 ->
  Segmenter.foundSpace sm1 = Segmenter.foundSpace sm2 ->
  fst <$> Segment sm1 line = fst <$> Segment sm2 line.
Proof.
  intros Hd Hf. unfold Segment.
  destruct (BuildPath_alike sm1 sm2 line Hd Hf) as [s1 s2 Hs|]; simpl_opt; [|done].
  rewrite (alike_path _ _ Hs).
  unfold mbind, option_bind, fmap, option_fmap, option_map.
  repeat (case_match; simplify_eq; try done).
Qed.

(** ** The specification's view of a call *)

Lemma segment_spec line trie :
  exists out E last,
    segment line trie = Some out /\ edges line trie = Some E /\
    Z.of_nat (length E) = Z.of_nat (length line) + 1 /\
    path_ok E (Z.of_nat (length line)) /\
    E !! length line = Some last /\
    concat out = line /\ Forall (fun tok => tok <> []) out /\
    Z.of_nat (length out) = Edge.WordCount last.
Proof.
  destruct (Segment_spec (Segmenter.new trie) line eq_refl)
    as (out & sm' & p & last & HS & HB & Hp & Hlen & Hok & Hlast & Hcat & Hne & Hcnt & _).
  exists out, p, last. unfold segment, edges. rewrite HS, HB. cbn. rewrite Hp.
  eauto 10.
Qed.

(** No integer of the edge array outgrows the line: at boundary [k] the
    unknown count is at most the word count, which is at most [k].  This
    is what keeps the Go [int] arithmetic away from wrap-around. *)
Lemma path_ok_counts p a :
  path_ok p a ->
  forall n e, Z.of_nat n <= a -> p !! n = Some e ->
    0 <= Edge.UnkCount e <= Edge.WordCount e /\ Edge.WordCount e <= Z.of_nat n.
Proof.
  intros [H0 Hp] n. induction n as [n IH] using lt_wf_ind. intros e Hn He.
  destruct (decide (n = 0)%nat) as [->|Hpos].
  - rewrite H0 in He. simplify_eq. cbn. lia.
  - destruct (Hp (Z.of_nat n) e) as [Hs (src & Hsrc & Hwc & Hunk)];
      [lia|by rewrite Nat2Z.id|].
    destruct (IH (Z.to_nat (Edge.S e)) ltac:(lia) src) as [Hu Hw]; [lia|done|].
    lia.
Qed.

Lemma edges_counts T L E n e :
  edges L T = Some E -> E !! n = Some e ->
  0 <= Edge.UnkCount e <= Edge.WordCount e /\ Edge.WordCount e <= Z.of_nat n.
Proof.
  intros HE He.
  destruct (segment_spec L T) as (out & E' & last & _ & HE' & Hlen & Hok & _).
  rewrite HE in HE'. simplify_eq.
  apply (path_ok_counts _ _ Hok); [|done].
  apply lookup_lt_Some in He. lia.
Qed.

Lemma SegmentAll_fresh d lines : forall sm,
  Segmenter.dict sm = d -> Segmenter.foundSpace sm = false ->
  exists outs sm',
    SegmentAll sm lines = Some (outs, sm') /\
    Forall2 (fun L tokens => segment L d = Some tokens) lines outs /\
    Segmenter.dict sm' = d /\ Segmenter.foundSpace sm' = false.
Proof.
  induction lines as [|L lines IH]; intros sm Hd Hf; cbn [SegmentAll].
  - exists [], sm. by repeat split.
  - destruct (Segment_spec sm L Hf)
      as (out & sm1 & p & last & HS & HB & _ & _ & _ & _ & _ & _ & _ & Hf1).
    rewrite HS. simpl_opt.
    destruct (IH sm1) as (outs & sm' & -> & Hall & Hd' & Hf'); [|done|].
    { apply BuildPath_dict in HB. congruence. }
    simpl_opt. exists (out :: outs), sm'. split; [done|]. split; [|done].
    constructor; [|done]. unfold segment.
    rewrite <- (Segment_alike sm (Segmenter.new d) L); [by rewrite HS|done|done].
Qed.

(** ** The choice among the dictionary candidates *)

Lemma scanRune_text sm i ch :
  IsText ch = true ->
  scanRune sm i ch =
  sm3 ← beforeChoice sm i ch;
  sm4 ← chooseDictEdge sm3 i (elems (Segmenter.pointers sm3));
  commitEdge sm4 i.
Proof.
  unfold IsText. intros [HL HS]%andb_prop.
  apply negb_true_iff in HL, HS.
  unfold scanRune, beforeChoice, resetBest. rewrite HL, HS.
  destruct (flushSpace _ _) as [sm1|]; simpl_opt; [|done].
  destruct (flushLatin _ _) as [sm2|]; simpl_opt; [|done].
  by destruct (advancePointers _ _).
Qed.

Lemma considerPointer_best sm i q sm' :
  considerPointer sm i q = Some sm' ->
  sm' = set_foundBestEdge (Segmenter.foundBestEdge sm')
          (set_bestEdge (Segmenter.bestEdge sm') sm) /\
  currentBest sm' = pickBest (currentBest sm) (option_list (candidate sm i q)).
Proof.
  unfold considerPointer, candidate, currentBest.
  destruct sm as [d p lb sL fL sS fS be fbe ptrs len]. cbn.
  destruct (DictBuilderPointer.IsFinal q); [|by intros; simplify_eq].
  destruct (edgeFrom _ _) as [e|]; simpl_opt; [|done].
  destruct fbe; cbn; [destruct (supersedes e be) eqn:Hs|]; intros; simplify_eq; cbn;
    by rewrite ?Hs.
Qed.

(** The candidate loop changes the best edge only, and leaves the edge
    that [pickBest] picks among the candidates. *)
Lemma chooseDictEdge_best i ptrs : forall sm sm',
  chooseDictEdge sm i ptrs = Some sm' ->
  sm' = set_foundBestEdge (Segmenter.foundBestEdge sm')
          (set_bestEdge (Segmenter.bestEdge sm') sm) /\
  currentBest sm' = pickBest (currentBest sm) (omap (candidate sm i) ptrs).
Proof.
  induction ptrs as [|q ptrs IH]; intros sm sm' H; cbn [chooseDictEdge] in H.
  - simplify_eq. split; [by destruct sm'|done].
  - apply bind_Some in H as (sm1 & H1 & H).
    apply considerPointer_best in H1 as [Heq1 Hbest1].
    apply IH in H as [Heq Hbest]. split.
    + rewrite Heq, Heq1. done.
    + rewrite Hbest, Hbest1. rewrite omap_cons_case.
      assert (omap (candidate sm1 i) ptrs = omap (candidate sm i) ptrs) as ->.
      { apply list_omap_ext, Forall_Forall2_diag, Forall_forall.
        intros q' _. unfold candidate, edgeFrom. rewrite Heq1. done. }
      unfold pickBest. by destruct (candidate sm i q).
Qed.

(** The cost order of the tie-break is a total preorder. *)
Lemma supersedes_refl c : supersedes c c = true.
Proof. unfold supersedes. apply orb_true_iff. right. apply andb_true_iff. lia. Qed.

Lemma supersedes_spec c b :
  supersedes c b = true <->
  Edge.UnkCount c < Edge.UnkCount b \/
  (Edge.UnkCount c = Edge.UnkCount b /\ Edge.WordCount c <= Edge.WordCount b).
Proof.
  unfold supersedes. rewrite orb_true_iff, andb_true_iff. lia.
Qed.

Lemma supersedes_trans a b c :
  supersedes a b = true -> supersedes b c = true -> supersedes a c = true.
Proof. rewrite !supersedes_spec. lia. Qed.

Lemma supersedes_total a b : supersedes a b = false -> supersedes b a = true.
Proof.
  intros H. apply supersedes_spec. apply not_true_iff_false in H.
  rewrite supersedes_spec in H. lia.
Qed.

(** The edge picked is the last candidate of least cost: it is no worse
    than any candidate met before it and strictly better than every
    candidate met after it. *)
Lemma pickBest_last cands : forall b0 b,
  pickBest (Some b0) cands = Some b ->
  exists l1 l2, b0 :: cands = l1 ++ b :: l2 /\
    (forall c, c ∈ l1 -> supersedes b c = true) /\
    (forall c, c ∈ l2 -> supersedes c b = false).
Proof.
  induction cands as [|c cands IH]; intros b0 b H; cbn in H.
  - simplify_eq. exists [], []. split; [done|]. split; intros c Hc; by apply elem_of_nil in Hc.
  - destruct (supersedes c b0) eqn:Hs.
    + destruct (IH _ _ H) as (l1 & l2 & Heq & H1 & H2).
      exists (b0 :: l1), l2. split; [by rewrite Heq|]. split; [|done].
      intros c' [->|Hc']%elem_of_cons; [|by apply H1].
      apply supersedes_trans with c; [|done].
      destruct l1 as [|x l1]; simplify_eq/=; [apply supersedes_refl|].
      apply H1. by left.
    + destruct (IH _ _ H) as (l1 & l2 & Heq & H1 & H2).
      destruct l1 as [|x l1]; simplify_eq/=.
      * exists [], (c :: l2). split; [done|]. split.
        -- intros c' Hc'. by apply elem_of_nil in Hc'.
        -- intros c' [->|Hc']%elem_of_cons; [done|by apply H2].
      * exists (x :: c :: l1), l2. split; [done|]. split; [|done].
        intros c' Hc'. apply elem_of_cons in Hc' as [->|Hc']; [apply H1; by left|].
        apply elem_of_cons in Hc' as [->|Hc']; [|apply H1; by right].
        apply supersedes_trans with x; [apply H1; by left|].
        by apply supersedes_total.
Qed.

Lemma pickBest_None_last c cands b :
  pickBest None (c :: cands) = Some b ->
  exists l1 l2, c :: cands = l1 ++ b :: l2 /\
    (forall c, c ∈ l1 -> supersedes b c = true) /\
    (forall c, c ∈ l2 -> supersedes c b = false).
Proof. apply pickBest_last. Qed.

(** ** What each block does to the state *)

Lemma flushSpace_effect sm i sm' :
  flushSpace sm i = Some sm' ->
  exists p,
    sm' = (if Segmenter.foundSpace sm
           then set_leftBoundary i (set_foundSpace false (set_path p sm))
           else sm) /\
    (forall k, k <> Z.to_nat i -> elems p !! k = elems (Segmenter.path sm) !! k).
Proof.
  unfold flushSpace. destruct (Segmenter.foundSpace sm); intros H.
  - apply bind_Some in H as (e & _ & H). apply bind_Some in H as (p & Hp & H).
    apply slice_set_Some in Hp as [_ ->]. simplify_eq. eexists; split; [done|].
    intros k Hk. cbn. by rewrite list_lookup_insert_ne.
  - simplify_eq. by exists (Segmenter.path sm').
Qed.

Lemma flushLatin_effect sm i sm' :
  flushLatin sm i = Some sm' ->
  exists p,
    sm' = (if Segmenter.foundLatin sm
           then set_leftBoundary i (set_foundLatin false (set_path p sm))
           else sm) /\
    (forall k, k <> Z.to_nat i -> elems p !! k = elems (Segmenter.path sm) !! k).
Proof.
  unfold flushLatin. destruct (Segmenter.foundLatin sm); intros H.
  - apply bind_Some in H as (e & _ & H). apply bind_Some in H as (p & Hp & H).
    apply slice_set_Some in Hp as [_ ->]. simplify_eq. eexists; split; [done|].
    intros k Hk. cbn. by rewrite list_lookup_insert_ne.
  - simplify_eq. by exists (Segmenter.path sm').
Qed.

Lemma commitEdge_effect sm i sm' :
  commitEdge sm i = Some sm' ->
  exists lb be,
    sm' = set_path (SData (<[Z.to_nat (i + 1) := be]> (elems (Segmenter.path sm))))
            (set_leftBoundary lb (set_foundBestEdge true (set_bestEdge be sm))) /\
    0 <= i + 1 < slice_len (Segmenter.path sm) /\
    (Segmenter.foundBestEdge sm = true -> be = Segmenter.bestEdge sm).
Proof.
  unfold commitEdge. intros H. apply bind_Some in H as (sm1 & H1 & H).
  apply bind_Some in H as (p & Hp & H). apply slice_set_Some in Hp as [Hi ->].
  simplify_eq. destruct sm as [d p lb sL fL sS fS be fbe ptrs len]. cbn in *.
  destruct fbe; cbn in H1.
  - simplify_eq. cbn in *. by eexists _, _.
  - apply bind_Some in H1 as (source & _ & H1). simplify_eq. cbn in *.
    by eexists _, _.
Qed.

Lemma beforeChoice_effect sm i ch sm3 :
  beforeChoice sm i ch = Some sm3 ->
  Segmenter.dict sm3 = Segmenter.dict sm /\
  Segmenter.pointers sm3 =
    SData (omap (stepPointer (Segmenter.dict sm) ch)
                (elems (Segmenter.pointers sm) ++ [zeroPointer])) /\
  Segmenter.foundSpace sm3 = false /\ Segmenter.foundLatin sm3 = false /\
  Segmenter.foundBestEdge sm3 = false /\
  (forall k, k <> Z.to_nat i ->
             elems (Segmenter.path sm3) !! k = elems (Segmenter.path sm) !! k) /\
  (Segmenter.foundSpace sm = false -> Segmenter.foundLatin sm = false ->
   Segmenter.path sm3 = Segmenter.path sm).
Proof.
  unfold beforeChoice, resetBest. intros H.
  apply bind_Some in H as (sm1 & H1 & H). apply bind_Some in H as (sm2 & H2 & H).
  rewrite advancePointers_eq in H. simplify_eq.
  apply flushSpace_effect in H1 as (p1 & -> & Hp1).
  apply flushLatin_effect in H2 as (p2 & -> & Hp2).
  destruct sm as [d p lb sL fL sS fS be fbe ptrs len]. cbn in *.
  destruct fS, fL; cbn in *; repeat split; try done; intros k Hk;
    rewrite ?Hp2, ?Hp1 by done; done.
Qed.

Lemma chooseDictEdge_effect sm i sm' :
  chooseDictEdge sm i (elems (Segmenter.pointers sm)) = Some sm' ->
  sm' = set_foundBestEdge (Segmenter.foundBestEdge sm')
          (set_bestEdge (Segmenter.bestEdge sm') sm) /\
  currentBest sm' = pickBest (currentBest sm) (dictCandidates sm i).
Proof. apply chooseDictEdge_best. Qed.

(** A round on a text codepoint: the pointers advance, the entry
    [i + 1] receives the edge picked among the candidates (the unknown
    edge if there is none), and both run flags are down. *)
Lemma scanRune_text_effect sm i ch sm' :
  IsText ch = true -> scanRune sm i ch = Some sm' ->
  exists sm3 best,
    beforeChoice sm i ch = Some sm3 /\
    Segmenter.dict sm' = Segmenter.dict sm /\
    Segmenter.pointers sm' = Segmenter.pointers sm3 /\
    Segmenter.foundSpace sm' = false /\ Segmenter.foundLatin sm' = false /\
    0 <= i + 1 < slice_len (Segmenter.path sm3) /\
    Segmenter.path sm' =
      SData (<[Z.to_nat (i + 1) := best]> (elems (Segmenter.path sm3))) /\
    (dictCandidates sm3 i <> [] ->
     pickBest None (dictCandidates sm3 i) = Some best).
Proof.
  intros Ht H. rewrite scanRune_text in H by done.
  apply bind_Some in H as (sm3 & H3 & H). apply bind_Some in H as (sm4 & H4 & H).
  pose proof (beforeChoice_effect _ _ _ _ H3) as (Hd & Hptr & HfS & HfL & Hfb & _).
  apply chooseDictEdge_effect in H4 as [Heq4 Hbest4].
  apply commitEdge_effect in H as (lb & be & -> & Hi & Hbe).
  assert (Segmenter.path sm4 = Segmenter.path sm3 /\
          Segmenter.dict sm4 = Segmenter.dict sm3 /\
          Segmenter.pointers sm4 = Segmenter.pointers sm3 /\
          Segmenter.foundSpace sm4 = Segmenter.foundSpace sm3 /\
          Segmenter.foundLatin sm4 = Segmenter.foundLatin sm3)
    as (Hp4 & Hd4 & Hptr4 & HfS4 & HfL4) by (by rewrite Heq4).
  exists sm3, be. cbn. rewrite Hp4 in *.
  split; [done|]. split; [congruence|]. split; [done|]. split; [congruence|].
  split; [congruence|]. split; [done|]. split; [done|].
  intros Hne. unfold currentBest in Hbest4. rewrite Hfb in Hbest4.
  rewrite <- Hbest4.
  destruct (Segmenter.foundBestEdge sm4) eqn:Hf4; [by rewrite Hbe|].
  destruct (dictCandidates sm3 i) as [|c cands]; [done|].
  symmetry in Hbest4. cbn in Hbest4.
  assert (forall l b, foldl (fun b c => match b with
                    | None => Some c
                    | Some b0 => if supersedes c b0 then Some c else Some b0
                    end) (Some b) l <> None) as Hsome.
  { induction l as [|x l IHl]; intros b; cbn; [done|]. destruct (supersedes x b); apply IHl. }
  by apply Hsome in Hbest4.
Qed.

(** A round on a Latin or space codepoint leaves the pointers and the
    dictionary alone. *)
Lemma scanRune_other_effect sm i ch sm' :
  IsText ch = false -> scanRune sm i ch = Some sm' ->
  Segmenter.dict sm' = Segmenter.dict sm /\
  Segmenter.pointers sm' = Segmenter.pointers sm.
Proof.
  intros Ht H. split; [by eapply scanRune_dict|].
  unfold IsText in Ht. unfold scanRune in H.
  change (set_foundBestEdge false (set_bestEdge (Edge.mk 0 0 0) sm))
    with (resetBest sm) in H.
  change (Segmenter.pointers sm) with (Segmenter.pointers (resetBest sm)).
  destruct (IsLatin ch); [|destruct (IsSpace ch); [|done]].
  - eapply (pointers_kept (fun sm =>
      s ← (s1 ← flushSpace sm i; closeLatin (openLatin s1 i) i); commitEdge s i));
      [|done].
    intros; apply latinRound_pointers.
  - eapply (pointers_kept (fun sm =>
      s ← (s1 ← flushLatin sm i; closeSpace (openSpace s1 i) i); commitEdge s i));
      [|done].
    intros; apply spaceRound_pointers.
Qed.

Lemma closeLatin_path sm i sm' :
  closeLatin sm i = Some sm' -> Segmenter.path sm' = Segmenter.path sm.
Proof. unfold closeLatin. intros H. by open_block. Qed.

Lemma closeSpace_path sm i sm' :
  closeSpace sm i = Some sm' -> Segmenter.path sm' = Segmenter.path sm.
Proof. unfold closeSpace. intros H. by open_block. Qed.

Lemma openLatin_path sm i : Segmenter.path (openLatin sm i) = Segmenter.path sm.
Proof. unfold openLatin. by case_match. Qed.

Lemma openSpace_path sm i : Segmenter.path (openSpace sm i) = Segmenter.path sm.
Proof. unfold openSpace. by case_match. Qed.

(** A round at index [i] writes at most the entries [i] and [i + 1], and
    the entry [i] only to close a run. *)
Lemma scanRune_path_kept sm i ch sm' k :
  0 <= i -> scanRune sm i ch = Some sm' ->
  (k < Z.to_nat i)%nat \/
  (k = Z.to_nat i /\ Segmenter.foundSpace sm = false /\
   Segmenter.foundLatin sm = false) ->
  elems (Segmenter.path sm') !! k = elems (Segmenter.path sm) !! k.
Proof.
  intros Hi H Hk. destruct (IsText ch) eqn:Ht.
  - apply scanRune_text_effect in H as (sm3 & best & H3 & _ & _ & _ & _ & _ & -> & _);
      [|done].
    apply beforeChoice_effect in H3 as (_ & _ & _ & _ & _ & Hne & Heq).
    cbn. rewrite list_lookup_insert_ne by lia.
    destruct Hk as [Hk|(-> & HfS & HfL)]; [apply Hne; lia|by rewrite Heq].
  - unfold IsText in Ht. unfold scanRune in H.
    change (set_foundBestEdge false (set_bestEdge (Edge.mk 0 0 0) sm))
      with (resetBest sm) in H.
    apply bind_Some in H as (sm2 & H2 & H).
    apply commitEdge_effect in H as (lb & be & -> & _ & _). cbn.
    rewrite list_lookup_insert_ne by lia.
    destruct (IsLatin ch); [|destruct (IsSpace ch); [|done]].
    + apply bind_Some in H2 as (sm1 & H1 & H2).
      apply closeLatin_path in H2. rewrite H2.
      rewrite openLatin_path.
      apply flushSpace_effect in H1 as (p & -> & Hp). cbn.
      destruct Hk as [Hk|(-> & -> & HfL)]; [|done].
      destruct (Segmenter.foundSpace sm); cbn; [apply Hp; lia|done].
    + apply bind_Some in H2 as (sm1 & H1 & H2).
      apply closeSpace_path in H2. rewrite H2.
      rewrite openSpace_path.
      apply flushLatin_effect in H1 as (p & -> & Hp). cbn.
      destruct Hk as [Hk|(-> & HfS & ->)]; [|done].
      destruct (Segmenter.foundLatin sm); cbn; [apply Hp; lia|done].
Qed.

Lemma scanFrom_path_kept line : forall sm i sm' k,
  0 <= i -> scanFrom sm i line = Some sm' ->
  (k < Z.to_nat i)%nat \/
  (k = Z.to_nat i /\ Segmenter.foundSpace sm = false /\
   Segmenter.foundLatin sm = false) ->
  elems (Segmenter.path sm') !! k = elems (Segmenter.path sm) !! k.
Proof.
  induction line as [|ch line IH]; intros sm i sm' k Hi H Hk; cbn in H.
  - by simplify_eq.
  - apply bind_Some in H as (sm1 & H1 & H).
    rewrite (IH sm1 (i + 1) sm' k); [|lia|done|left; lia].
    by eapply scanRune_path_kept.
Qed.

Lemma scanFrom_app l1 l2 : forall sm i,
  scanFrom sm i (l1 ++ l2) =
  sm1 ← scanFrom sm i l1; scanFrom sm1 (i + Z.of_nat (length l1)) l2.
Proof.
  induction l1 as [|ch l1 IH]; intros sm i; cbn [app scanFrom length].
  - cbn. by rewrite Z.add_0_r.
  - destruct (scanRune sm i ch) as [sm1|]; simpl_opt; [|done].
    rewrite IH. by replace (i + 1 + Z.of_nat (length l1)) with (i + Z.of_nat (S (length l1))) by lia.
Qed.

Lemma scanFrom_pointers line : forall sm i sm',
  scanFrom sm i line = Some sm' ->
  Segmenter.dict sm' = Segmenter.dict sm /\
  elems (Segmenter.pointers sm') =
  foldl (fun ptrs ch =>
           if IsText ch
           then omap (stepPointer (Segmenter.dict sm) ch) (ptrs ++ [zeroPointer])
           else ptrs)
        (elems (Segmenter.pointers sm)) line.
Proof.
  induction line as [|ch line IH]; intros sm i sm' H; cbn in H.
  - by simplify_eq.
  - apply bind_Some in H as (sm1 & H1 & H). apply IH in H as [Hd ->]. cbn [foldl].
    destruct (IsText ch) eqn:Ht.
    + apply scanRune_text_effect in H1 as (sm3 & best & H3 & Hd1 & Hp1 & _); [|done].
      apply beforeChoice_effect in H3 as (_ & Hp3 & _).
      rewrite Hd, Hd1, Hp1, Hp3. done.
    + apply scanRune_other_effect in H1 as [Hd1 Hp1]; [|done].
      rewrite Hd, Hd1, Hp1. done.
Qed.

Lemma roundState_pointers T L i sm :
  roundState T L i = Some sm ->
  Segmenter.dict sm = T /\ elems (Segmenter.pointers sm) = livePointers T (take i L).
Proof.
  unfold roundState. intros H. apply bind_Some in H as (sm0 & H0 & H).
  destruct (resetScratch_eq (Segmenter.new T) L) as (ptrs & Heq & Hptrs).
  rewrite Heq in H0. simplify_eq.
  apply scanFrom_pointers in H as [-> ->]. cbn. by rewrite Hptrs.
Qed.

Lemma StronglySorted_omap {A B} (R : relation A) (R' : relation B)
    (f : A -> option B) l :
  (forall x y x' y', f x = Some x' -> f y = Some y' -> R x y -> R' x' y') ->
  StronglySorted R l -> StronglySorted R' (omap f l).
Proof.
  intros Hf. induction 1 as [|x l Hl IH Hx]; [constructor|].
  rewrite omap_cons_case. destruct (f x) as [x'|] eqn:Hfx; [|done].
  constructor; [done|]. apply Forall_forall. intros y' Hy'.
  apply list_elem_of_omap in Hy' as (y & Hy & Hfy).
  rewrite Forall_forall in Hx. eauto.
Qed.

Lemma deepest_first_step T ch ptrs :
  deepest_first ptrs ->
  deepest_first (omap (stepPointer T ch) (ptrs ++ [zeroPointer])).
Proof.
  intros [Hs Hall]. split.
  - apply (StronglySorted_omap
             (fun q1 q2 => DictBuilderPointer.Offset q2 < DictBuilderPointer.Offset q1)).
    + intros x y x' y' Hx Hy Hxy.
      apply stepPointer_Offset in Hx, Hy. lia.
    + apply StronglySorted_app_2; [|done|repeat constructor].
      intros q1 q2 Hq1 ->%list_elem_of_singleton.
      rewrite Forall_forall in Hall. specialize (Hall _ Hq1). cbn in *. lia.
  - apply Forall_forall. intros q' (q & Hq & Hstep)%list_elem_of_omap.
    apply stepPointer_Offset in Hstep. rewrite Hstep.
    apply elem_of_app in Hq as [Hq| ->%list_elem_of_singleton]; [|cbn; lia].
    rewrite Forall_forall in Hall. specialize (Hall _ Hq). cbn in Hall. lia.
Qed.

Lemma livePointers_snoc T seen ch :
  livePointers T (seen ++ [ch]) =
  if IsText ch
  then omap (stepPointer T ch) (livePointers T seen ++ [zeroPointer])
  else livePointers T seen.
Proof. unfold livePointers. by rewrite foldl_app. Qed.

Lemma livePointers_deepest_first T seen : deepest_first (livePointers T seen).
Proof.
  induction seen as [|ch seen IH] using rev_ind.
  - split; constructor.
  - rewrite livePointers_snoc. destruct (IsText ch); [|done].
    by apply deepest_first_step.
Qed.

(** ** The rounds of a scan, one by one *)

Lemma edgeFrom_S sm s e : edgeFrom sm s = Some e -> Edge.S e = s.
Proof. unfold edgeFrom. intros H. apply bind_Some in H as (? & _ & H). by simplify_eq. Qed.

Lemma candidate_Some sm i q c :
  candidate sm i q = Some c ->
  DictBuilderPointer.IsFinal q = true /\
  Edge.S c = 1 + i - DictBuilderPointer.Offset q.
Proof.
  unfold candidate. destruct (DictBuilderPointer.IsFinal q); [|done].
  intros H%edgeFrom_S. done.
Qed.

(** Round [i] of the scan of [L], when [L[i]] is a text codepoint: the
    states around the candidate loop, and the entry [E[i + 1]] of the
    final edge array, which no later round touches. *)
Lemma text_round T L i ch :
  L !! i = Some ch -> IsText ch = true ->
  exists sm3 E best,
    candidateState T L i = Some sm3 /\
    Segmenter.dict sm3 = T /\
    elems (Segmenter.pointers sm3) = livePointers T (take (S i) L) /\
    edges L T = Some E /\ E !! S i = Some best /\
    (dictCandidates sm3 (Z.of_nat i) <> [] ->
     pickBest None (dictCandidates sm3 (Z.of_nat i)) = Some best).
Proof.
  intros Hch Ht.
  destruct (BuildPath_inv (Segmenter.new T) L eq_refl) as (smF & HB & Hinv & _).
  pose proof HB as HB'. unfold BuildPath in HB'.
  apply bind_Some in HB' as (sm0 & H0 & Hscan).
  rewrite <- (take_drop_middle L i ch Hch) in Hscan at 1.
  rewrite scanFrom_app in Hscan. apply bind_Some in Hscan as (sm & Hsm & Hscan).
  cbn [scanFrom] in Hscan. apply bind_Some in Hscan as (sm' & Hround & Hrest).
  pose proof (lookup_lt_Some _ _ _ Hch) as Hi.
  rewrite length_take, Nat.min_l in Hround, Hrest by lia. rewrite Z.add_0_l in Hround, Hrest.
  assert (roundState T L i = Some sm) as Hrs.
  { unfold roundState. rewrite H0. done. }
  pose proof (roundState_pointers _ _ _ _ Hrs) as [Hd Hptrs].
  destruct (scanRune_text_effect _ _ _ _ Ht Hround)
    as (sm3 & best & H3 & _ & _ & HfS & HfL & Hlen & Hpath & Hpick).
  pose proof (beforeChoice_effect _ _ _ _ H3) as (Hd3 & Hp3 & _).
  exists sm3, (elems (Segmenter.path smF)), best.
  split; [unfold candidateState; rewrite Hrs; simpl_opt; by rewrite Hch|].
  split; [congruence|]. split; [|split; [|split; [|done]]].
  - rewrite Hp3. cbn [elems]. rewrite Hd, Hptrs.
    rewrite (take_S_r L i ch Hch), livePointers_snoc, Ht. done.
  - unfold edges. by rewrite HB.
  - rewrite (scanFrom_path_kept _ sm' (Z.of_nat i + 1) smF (S i) ltac:(lia) Hrest);
      [|right; split; [lia|done]].
    rewrite Hpath. cbn [elems]. replace (Z.to_nat (Z.of_nat i + 1)) with (S i) by lia.
    apply list_lookup_insert_eq. unfold slice_len in Hlen. lia.
Qed.

(** The candidates of a round appear in order of strictly growing start:
    longest match first. *)
Lemma dictCandidates_sorted sm i :
  deepest_first (elems (Segmenter.pointers sm)) ->
  StronglySorted (fun c1 c2 => Edge.S c1 < Edge.S c2) (dictCandidates sm i).
Proof.
  intros [Hs _]. unfold dictCandidates.
  eapply StronglySorted_omap; [|done]. cbn.
  intros q1 q2 c1 c2 [_ H1]%candidate_Some [_ H2]%candidate_Some. lia.
Qed.

(** ** Segmentation against the empty trie *)

Lemma insert_unknown n m :
  <[S n := unknownFromStart]>
    (zeroEdge :: replicate n unknownFromStart ++ replicate (S m) zeroEdge)
  = zeroEdge :: replicate (S n) unknownFromStart ++ replicate m zeroEdge.
Proof.
  change (zeroEdge :: replicate n unknownFromStart ++ replicate (S m) zeroEdge)
    with ((zeroEdge :: replicate n unknownFromStart) ++ replicate (S m) zeroEdge).
  rewrite insert_app_r_alt by (cbn; rewrite length_replicate; lia).
  replace (S n - length (zeroEdge :: replicate n unknownFromStart))%nat with 0%nat
    by (cbn; rewrite length_replicate; lia).
  rewrite (replicate_S_end n unknownFromStart), <- app_assoc. done.
Qed.

(** One round on a text codepoint with the empty trie: no pointer
    survives, the boundary [i + 1] gets the unknown edge from 0, and
    [leftBoundary] stays at 0. *)
Lemma scanRune_empty_trie sm ch n m :
  IsText ch = true ->
  Segmenter.dict sm = ∅ ->
  Segmenter.path sm =
    SData (zeroEdge :: replicate n unknownFromStart ++ replicate (S m) zeroEdge) ->
  Segmenter.leftBoundary sm = 0 ->
  Segmenter.foundLatin sm = false -> Segmenter.foundSpace sm = false ->
  elems (Segmenter.pointers sm) = [] ->
  exists sm',
    scanRune sm (Z.of_nat n) ch = Some sm' /\
    Segmenter.dict sm' = ∅ /\
    Segmenter.path sm' =
      SData (zeroEdge :: replicate (S n) unknownFromStart ++ replicate m zeroEdge) /\
    Segmenter.leftBoundary sm' = 0 /\
    Segmenter.foundLatin sm' = false /\ Segmenter.foundSpace sm' = false /\
    elems (Segmenter.pointers sm') = [].
Proof.
  intros Ht Hd Hp Hlb HfL HfS Hptrs.
  destruct sm as [d p lb sL fL sS fS be fbe ptrs len]. cbn -[replicate] in *. subst.
  assert (stepPointer ∅ ch zeroPointer = None) as Hstep.
  { unfold stepPointer. by rewrite lookup_empty. }
  rewrite scanRune_text by done.
  unfold beforeChoice, resetBest, flushSpace, flushLatin.
  cbn -[replicate advancePointers]. rewrite advancePointers_eq.
  cbn -[replicate]. rewrite Hptrs. cbn -[replicate]. rewrite Hstep.
  cbn -[replicate]. unfold commitEdge. cbn -[replicate].
  rewrite (slice_get_data _ _ zeroEdge) by done. cbn -[replicate].
  rewrite slice_set_data
    by (cbn -[replicate]; rewrite length_app, !length_replicate; lia).
  cbn -[replicate]. eexists; split; [done|]. cbn -[replicate].
  replace (Z.to_nat (Z.of_nat n + 1)) with (S n) by lia.
  rewrite insert_unknown. done.
Qed.

Lemma scanFrom_empty_trie line : forall sm n,
  Forall (fun ch => IsText ch = true) line ->
  Segmenter.dict sm = ∅ ->
  Segmenter.path sm =
    SData (zeroEdge :: replicate n unknownFromStart ++ replicate (length line) zeroEdge) ->
  Segmenter.leftBoundary sm = 0 ->
  Segmenter.foundLatin sm = false -> Segmenter.foundSpace sm = false ->
  elems (Segmenter.pointers sm) = [] ->
  exists sm',
    scanFrom sm (Z.of_nat n) line = Some sm' /\
    Segmenter.path sm' =
      SData (zeroEdge :: replicate (n + length line) unknownFromStart).
Proof.
  induction line as [|ch line IH]; intros sm n Hall Hd Hp Hlb HfL HfS Hptrs.
  - exists sm. split; [done|]. rewrite Hp. cbn. by rewrite app_nil_r, Nat.add_0_r.
  - apply Forall_cons in Hall as [Hch Hall]. cbn [scanFrom length] in *.
    destruct (scanRune_empty_trie sm ch n (length line))
      as (sm1 & -> & Hd1 & Hp1 & Hlb1 & HfL1 & HfS1 & Hptrs1); [done..|].
    simpl_opt. replace (Z.of_nat n + 1) with (Z.of_nat (S n)) by lia.
    destruct (IH sm1 (S n)) as (sm' & -> & Hp'); [done..|].
    exists sm'. split; [done|]. rewrite Hp'. do 3 f_equal. lia.
Qed.

(** ** The dictionary is consulted on text codepoints only *)

Lemma flushSpace_dict_free T sm i :
  flushSpace (with_dict T sm) i = with_dict T <$> flushSpace sm i.
Proof. unfold flushSpace, edgeFrom. commute_block. Qed.

Lemma flushLatin_dict_free T sm i :
  flushLatin (with_dict T sm) i = with_dict T <$> flushLatin sm i.
Proof. unfold flushLatin, edgeFrom. commute_block. Qed.

Lemma openLatin_dict_free T sm i :
  openLatin (with_dict T sm) i = with_dict T (openLatin sm i).
Proof. unfold openLatin. commute_block. Qed.

Lemma openSpace_dict_free T sm i :
  openSpace (with_dict T sm) i = with_dict T (openSpace sm i).
Proof. unfold openSpace. commute_block. Qed.

Lemma closeLatin_dict_free T sm i :
  closeLatin (with_dict T sm) i = with_dict T <$> closeLatin sm i.
Proof. unfold closeLatin, edgeFrom. commute_block. Qed.

Lemma closeSpace_dict_free T sm i :
  closeSpace (with_dict T sm) i = with_dict T <$> closeSpace sm i.
Proof. unfold closeSpace, edgeFrom. commute_block. Qed.

Lemma commitEdge_dict_free T sm i :
  commitEdge (with_dict T sm) i = with_dict T <$> commitEdge sm i.
Proof. unfold commitEdge. commute_block. Qed.

Lemma considerPointer_dict_free T sm i q :
  considerPointer (with_dict T sm) i q = with_dict T <$> considerPointer sm i q.
Proof. unfold considerPointer, edgeFrom. commute_block. Qed.

Lemma chooseDictEdge_dict_free T i ptrs : forall sm,
  chooseDictEdge (with_dict T sm) i ptrs = with_dict T <$> chooseDictEdge sm i ptrs.
Proof.
  induction ptrs as [|q ptrs IH]; intros sm; cbn [chooseDictEdge]; [done|].
  rewrite considerPointer_dict_free.
  destruct (considerPointer sm i q) as [sm1|]; simpl_opt; [|done]. apply IH.
Qed.

Lemma stepPointer_agree T1 T2 ch p :
  agree_on_text T1 T2 -> IsText ch = true ->
  stepPointer T1 ch p = stepPointer T2 ch p.
Proof.
  intros Hagree Ht. unfold stepPointer.
  by rewrite (Hagree (PrefixTreeNode.mk _ _ ch) Ht).
Qed.

Lemma advancePointers_agree T sm ch :
  agree_on_text (Segmenter.dict sm) T -> IsText ch = true ->
  advancePointers (with_dict T sm) ch = with_dict T <$> advancePointers sm ch.
Proof.
  intros Hagree Ht. rewrite !advancePointers_eq. cbn. do 3 f_equal.
  apply list_omap_ext, Forall_Forall2_diag, Forall_forall. intros p _.
  symmetry. by apply stepPointer_agree.
Qed.

Lemma scanRune_agree T sm i ch :
  agree_on_text (Segmenter.dict sm) T ->
  scanRune (with_dict T sm) i ch = with_dict T <$> scanRune sm i ch.
Proof.
  intros Hagree. unfold scanRune.
  change (set_foundBestEdge false (set_bestEdge (Edge.mk 0 0 0) (with_dict T sm)))
    with (with_dict T (resetBest sm)).
  change (set_foundBestEdge false (set_bestEdge (Edge.mk 0 0 0) sm))
    with (resetBest sm).
  assert (agree_on_text (Segmenter.dict (resetBest sm)) T) as Hagree0 by done.
  generalize dependent (resetBest sm). clear sm Hagree. intros sm Hagree.
  destruct (IsLatin ch) eqn:HL; [|destruct (IsSpace ch) eqn:HS].
  - rewrite flushSpace_dict_free. destruct (flushSpace sm i) as [s1|]; simpl_opt; [|done].
    rewrite openLatin_dict_free, closeLatin_dict_free.
    destruct (closeLatin _ _) as [s2|]; simpl_opt; [|done].
    apply commitEdge_dict_free.
  - rewrite flushLatin_dict_free. destruct (flushLatin sm i) as [s1|]; simpl_opt; [|done].
    rewrite openSpace_dict_free, closeSpace_dict_free.
    destruct (closeSpace _ _) as [s2|]; simpl_opt; [|done].
    apply commitEdge_dict_free.
  - rewrite flushSpace_dict_free.
    destruct (flushSpace sm i) as [s1|] eqn:H1; simpl_opt; [|done].
    rewrite flushLatin_dict_free.
    destruct (flushLatin s1 i) as [s2|] eqn:H2; simpl_opt; [|done].
    rewrite advancePointers_agree.
    + destruct (advancePointers s2 ch) as [s3|]; simpl_opt; [|done].
      change (Segmenter.pointers (with_dict T s3)) with (Segmenter.pointers s3).
      rewrite chooseDictEdge_dict_free.
      destruct (chooseDictEdge _ _ _) as [s4|]; simpl_opt; [|done].
      apply commitEdge_dict_free.
    + apply flushSpace_dict in H1. apply flushLatin_dict in H2. by rewrite H2, H1.
    + unfold IsText. by rewrite HL, HS.
Qed.

Lemma scanFrom_agree T line : forall sm i,
  agree_on_text (Segmenter.dict sm) T ->
  scanFrom (with_dict T sm) i line = with_dict T <$> scanFrom sm i line.
Proof.
  induction line as [|ch line IH]; intros sm i Hagree; cbn [scanFrom]; [done|].
  rewrite scanRune_agree by done.
  destruct (scanRune sm i ch) as [sm1|] eqn:H1; simpl_opt; [|done].
  apply IH. apply scanRune_dict in H1. by rewrite H1.
Qed.

Lemma resetScratch_dict_free T sm line :
  resetScratch (with_dict T sm) line = with_dict T <$> resetScratch sm line.
Proof.
  destruct sm as [d p lb sL fL sS fS be fbe ptrs len].
  unfold resetScratch. cbn -[Nat.iter].
  destruct p as [|p]; cbn -[Nat.iter].
  - destruct (slice_make _ _) as [p'|]; simpl_opt; [|done]. cbn.
    destruct ptrs as [|ptrs]; cbn; [done|].
    by destruct (slice_take _ _).
  - destruct (slice_take (SData p) 0) as [p'|]; simpl_opt; [|done]. cbn -[Nat.iter].
    destruct ptrs as [|ptrs]; cbn -[Nat.iter]; [done|].
    by destruct (slice_take _ _).
Qed.

Lemma BuildPath_agree T sm line :
  agree_on_text (Segmenter.dict sm) T ->
  BuildPath (with_dict T sm) line = with_dict T <$> BuildPath sm line.
Proof.
  intros Hagree. unfold BuildPath. rewrite resetScratch_dict_free.
  destruct (resetScratch sm line) as [sm0|] eqn:H0; simpl_opt; [|done].
  apply scanFrom_agree.
  destruct (resetScratch_eq sm line) as (ptrs & Heq & _).
  rewrite Heq in H0. by simplify_eq.
Qed.

(** Changing the trie on transitions labelled by Latin or space
    codepoints changes nothing in the tokens: those transitions are never
    looked up. *)
Lemma segment_agree T1 T2 L :
  agree_on_text T1 T2 -> segment L T2 = segment L T1.
Proof.
  intros Hagree. unfold segment, Segment.
  change (Segmenter.new T2) with (with_dict T2 (Segmenter.new T1)).
  rewrite BuildPath_agree by done.
  destruct (BuildPath (Segmenter.new T1) L) as [sm|]; simpl_opt; [|done].
  change (Segmenter.path (with_dict T2 sm)) with (Segmenter.path sm).
  unfold mbind, option_bind, fmap, option_fmap, option_map.
  repeat (case_match; simplify_eq; try done).
Qed.

(** ** The words that the live pointers have matched *)

Lemma walkFrom_snoc T w ch : forall node depth final,
  walkFrom T node depth final (w ++ [ch]) =
  r ← walkFrom T node depth final w;
  child ← T !! PrefixTreeNode.mk r.1 (depth + Z.of_nat (length w)) ch;
  Some (PrefixTreePointer.ChildID child, PrefixTreePointer.IsFinal child).
Proof.
  induction w as [|c w IH]; intros node depth final; cbn [app walkFrom length].
  - simpl_opt. cbn. rewrite Z.add_0_r. by destruct (T !! _).
  - destruct (T !! PrefixTreeNode.mk node depth c) as [child|]; simpl_opt; [|done].
    rewrite IH. by replace (depth + 1 + Z.of_nat (length w)) with (depth + Z.of_nat (S (length w))) by lia.
Qed.

Lemma walk_snoc T w ch :
  walk T (w ++ [ch]) =
  r ← walk T w;
  child ← T !! PrefixTreeNode.mk r.1 (Z.of_nat (length w)) ch;
  Some (PrefixTreePointer.ChildID child, PrefixTreePointer.IsFinal child).
Proof. unfold walk. by rewrite walkFrom_snoc, Z.add_0_l. Qed.

Lemma livePointers_matched T seen :
  Forall (matched T (filter (fun ch => IsText ch = true) seen)) (livePointers T seen).
Proof.
  induction seen as [|ch seen IH] using rev_ind; [constructor|].
  rewrite livePointers_snoc, filter_app. cbn [filter list_filter].
  destruct (IsText ch) eqn:Ht.
  - rewrite decide_True by done. apply Forall_forall.
    intros q' (q & Hq & Hstep)%list_elem_of_omap.
    assert (matched T (filter (fun ch => IsText ch = true) seen) q)
      as (w & Hsuf & Hlen & Hwalk).
    { apply elem_of_app in Hq as [Hq| ->%list_elem_of_singleton].
      - rewrite Forall_forall in IH. by apply IH.
      - exists []. split; [apply suffix_nil|done]. }
    unfold stepPointer in Hstep. apply bind_Some in Hstep as (child & Hchild & Hq').
    simplify_eq. exists (w ++ [ch]). split; [by apply suffix_snoc|].
    split; [rewrite length_app; cbn; lia|].
    rewrite walk_snoc, Hwalk. simpl_opt. cbn [fst]. rewrite Hlen, Hchild. done.
  - rewrite decide_False by congruence. by rewrite app_nil_r.
Qed.

(** The codepoints a live pointer has matched are text codepoints. *)
Lemma matched_text T seen q :
  matched T (filter (fun ch => IsText ch = true) seen) q ->
  exists w, Forall (fun ch => IsText ch = true) w /\
            Z.of_nat (length w) = DictBuilderPointer.Offset q /\
            w `suffix_of` filter (fun ch => IsText ch = true) seen /\
            walk T w = Some (DictBuilderPointer.NodeID q, DictBuilderPointer.IsFinal q).
Proof.
  intros (w & Hsuf & Hlen & Hwalk). exists w. split; [|done].
  destruct Hsuf as [k Hk]. apply Forall_forall. intros c Hc.
  assert (c ∈ filter (fun ch => IsText ch = true) seen) as Hin.
  { rewrite Hk. apply elem_of_app. by right. }
  by apply list_elem_of_filter in Hin as [? _].
Qed.

(** ** The trie accepts dictionary words only *)

Lemma walkFrom_insert_fresh tab key v w : forall node depth final r,
  tab !! key = None ->
  walkFrom tab node depth final w = Some r ->
  walkFrom (<[key := v]> tab) node depth final w = Some r.
Proof.
  induction w as [|c w IH]; intros node depth final r Hkey H; cbn [walkFrom] in *; [done|].
  apply bind_Some in H as (child & Hchild & H).
  rewrite lookup_insert_ne by congruence. rewrite Hchild. simpl_opt. by apply IH.
Qed.

Lemma walk_insert_fresh tab key v w r :
  tab !! key = None -> walk tab w = Some r -> walk (<[key := v]> tab) w = Some r.
Proof. apply walkFrom_insert_fresh. Qed.

(** The walks of a table extended by one fresh transition out of the
    node that the prefix [p] reaches, into a node without transitions:
    the old walks, and the walk along [p] and the new transition. *)
Lemma walk_insert_inv tab rowNo j ch v p w r :
  tab !! PrefixTreeNode.mk rowNo j ch = None ->
  Z.of_nat (length p) = j ->
  (forall w' r', walk tab w' = Some r' -> r'.1 = rowNo ->
                 Z.of_nat (length w') = j -> w' = p) ->
  (forall c, tab !! PrefixTreeNode.mk (PrefixTreePointer.ChildID v) (j + 1) c = None) ->
  walk (<[PrefixTreeNode.mk rowNo j ch := v]> tab) w = Some r ->
  walk tab w = Some r \/
  (w = p ++ [ch] /\ r = (PrefixTreePointer.ChildID v, PrefixTreePointer.IsFinal v)).
Proof.
  intros Hkey Hp Huniq Hfresh. revert r.
  induction w as [|c w IH] using rev_ind; intros r H; [by left|].
  rewrite walk_snoc in H. apply bind_Some in H as (r1 & H1 & H).
  apply bind_Some in H as (child & Hchild & H). simplify_eq.
  destruct (IH _ H1) as [Hold|[-> ->]].
  - destruct (decide (PrefixTreeNode.mk r1.1 (Z.of_nat (length w)) c
                      = PrefixTreeNode.mk rowNo (Z.of_nat (length p)) ch)) as [Heq|Hne].
    + rewrite Heq, lookup_insert_eq in Hchild. simplify_eq. right.
      rewrite (Huniq w r1); [done|done|congruence|congruence].
    + rewrite lookup_insert_ne in Hchild by done. left.
      rewrite walk_snoc, Hold. simpl_opt. rewrite Hchild. done.
  - cbn [fst] in Hchild. rewrite lookup_insert_ne in Hchild.
    + rewrite length_app in Hchild. cbn [length] in Hchild.
      replace (Z.of_nat (length p + 1)) with (Z.of_nat (length p) + 1) in Hchild by lia.
      by rewrite Hfresh in Hchild.
    + intros Heq. apply (f_equal PrefixTreeNode.Offset) in Heq. cbn in Heq.
      rewrite length_app in Heq. cbn in Heq. lia.
Qed.

Lemma prefix_same_length {A} (w1 w2 word : list A) :
  w1 `prefix_of` word -> w2 `prefix_of` word -> length w1 = length w2 -> w1 = w2.
Proof.
  intros [k1 ->] [k2 Hk2] Hlen.
  apply (f_equal (take (length w1))) in Hk2.
  rewrite take_app_length in Hk2. rewrite Hlen, take_app_length in Hk2. done.
Qed.

(** The inner loop of [MakePrefixTree] keeps the walks in order. *)
Lemma insert_runes_ok sw k w0 runes : forall j rowNo tab,
  sw !! k = Some w0 ->
  drop j w0 = runes ->
  (exists f, walk tab (take j w0) = Some (rowNo, f)) ->
  walks_ok sw k w0 j tab -> keys_reachable tab ->
  walks_ok sw k w0 (length w0)
    (insert_runes tab (Z.of_nat k) (Z.of_nat (length w0)) rowNo (Z.of_nat j) runes) /\
  keys_reachable
    (insert_runes tab (Z.of_nat k) (Z.of_nat (length w0)) rowNo (Z.of_nat j) runes).
Proof.
  induction runes as [|ch rest IH]; intros j rowNo tab Hw0 Hdrop [fp Hp] Hwalks Hkeys.
  - cbn [insert_runes]. split; [|done].
    assert (length w0 <= j)%nat as Hj.
    { destruct (decide (length w0 <= j)%nat); [done|].
      apply (f_equal length) in Hdrop. rewrite length_drop in Hdrop. cbn in Hdrop. lia. }
    intros w n f Hne Hw. destruct (Hwalks w n f Hne Hw) as (word & Hn & Hword & Hpre & Hcase).
    exists word. repeat split; try done.
    destruct Hcase as [?|(Hnk & Hlen & Hf)]; [by left|right].
    repeat split; try done. rewrite Hnk, Hw0 in Hword. simplify_eq.
    by apply prefix_length.
  - assert (w0 !! j = Some ch) as Hch.
    { rewrite <- (Nat.add_0_r j), <- lookup_drop, Hdrop. done. }
    assert (drop (S j) w0 = rest) as Hrest.
    { replace (S j) with (j + 1)%nat by lia. by rewrite <- drop_drop, Hdrop. }
    assert (j < length w0)%nat as Hj by (by eapply lookup_lt_Some).
    assert (take (S j) w0 = take j w0 ++ [ch]) as Htake by (by apply take_S_r).
    assert (length (take j w0) = j) as Hlenp by (rewrite length_take; lia).
    cbn [insert_runes].
    replace (Z.of_nat j + 1) with (Z.of_nat (S j)) by lia.
    destruct (tab !! PrefixTreeNode.mk rowNo (Z.of_nat j) ch) as [child|] eqn:Hkey.
    + apply IH; try done.
      * exists (PrefixTreePointer.IsFinal child).
        rewrite Htake, walk_snoc, Hp. simpl_opt. cbn [fst]. rewrite Hlenp, Hkey. done.
      * intros w n f Hne Hw.
        destruct (Hwalks w n f Hne Hw) as (word & Hn & Hword & Hpre & Hcase).
        exists word. repeat split; try done.
        destruct Hcase as [?|(Hnk & Hlen & Hf)]; [by left|right]. repeat split; try done. lia.
    + set (v := PrefixTreePointer.mk (Z.of_nat k) (Z.of_nat (S j) =? Z.of_nat (length w0))).
      assert (forall w' r', walk tab w' = Some r' -> r'.1 = rowNo ->
                Z.of_nat (length w') = Z.of_nat j -> w' = take j w0) as Huniq.
      { intros w' [n' f'] Hw' Hn' Hlen'. cbn in Hn'. subst n'.
        destruct (decide (j = 0)%nat) as [->|Hj0].
        { destruct w'; [by rewrite take_0|]. cbn in Hlen'. lia. }
        assert (w' <> []) as Hne' by (intros ->; cbn in Hlen'; lia).
        assert (take j w0 <> []) as Hnep.
        { intros Hnil. rewrite Hnil in Hlenp. cbn in Hlenp. lia. }
        destruct (Hwalks w' rowNo f' Hne' Hw') as (word' & _ & Hword' & Hpre' & _).
        destruct (Hwalks _ rowNo fp Hnep Hp) as (word & _ & Hword & Hpre & _).
        simplify_eq. eapply prefix_same_length; [done..|lia]. }
      assert (forall c, tab !! PrefixTreeNode.mk (Z.of_nat k) (Z.of_nat j + 1) c = None)
        as Hfresh.
      { intros c.
        destruct (tab !! PrefixTreeNode.mk (Z.of_nat k) (Z.of_nat j + 1) c)
          as [v'|] eqn:Hc; [|done]. exfalso.
        destruct (Hkeys _ _ Hc) as (w' & [n' f'] & Hw' & Hn' & Hlen'). cbn in Hn', Hlen'. subst n'.
        assert (w' <> []) as Hne' by (intros ->; cbn in Hlen'; lia).
        destruct (Hwalks w' _ f' Hne' Hw') as (word' & _ & _ & _ & Hcase).
        destruct Hcase as [[Hlt _]|(_ & Hle & _)]; lia. }
      apply IH; try done.
      * exists (PrefixTreePointer.IsFinal v).
        rewrite Htake, walk_snoc. rewrite (walk_insert_fresh _ _ _ _ _ Hkey Hp).
        simpl_opt. cbn [fst]. rewrite Hlenp, lookup_insert_eq. done.
      * intros w n f Hne Hw. fold v in Hw.
        apply (walk_insert_inv tab rowNo (Z.of_nat j) ch v (take j w0)) in Hw;
          [|done|lia|done|done].
        destruct Hw as [Hw|[-> Hr]].
        -- destruct (Hwalks w n f Hne Hw) as (word & Hn & Hword & Hpre & Hcase).
           exists word. repeat split; try done.
           destruct Hcase as [?|(Hnk & Hlen & Hf)]; [by left|right].
           repeat split; try done. lia.
        -- simplify_eq. exists w0. subst v. cbn [PrefixTreePointer.ChildID PrefixTreePointer.IsFinal].
           rewrite Nat2Z.id.
           split; [lia|]. split; [done|]. split.
           { rewrite <- Htake. apply prefix_take. }
           right. split; [done|]. split; [rewrite length_app; cbn; lia|].
           intros Hfin%Z.eqb_eq. rewrite <- Htake. apply take_ge. lia.
      * intros key' v' Hkey'.
        destruct (decide (key' = PrefixTreeNode.mk rowNo (Z.of_nat j) ch)) as [->|Hne].
        -- exists (take j w0), (rowNo, fp).
           split; [by apply walk_insert_fresh|]. split; [done|]. cbn. lia.
        -- rewrite lookup_insert_ne in Hkey' by done.
           destruct (Hkeys _ _ Hkey') as (w' & r' & Hw' & Hr').
           exists w', r'. split; [by apply walk_insert_fresh|done].
Qed.

Lemma insert_words_ok sw words : forall k tab,
  drop k sw = words -> words_ok sw k tab -> keys_reachable tab ->
  words_ok sw (length sw) (insert_words tab (Z.of_nat k) words).
Proof.
  induction words as [|w0 words IH]; intros k tab Hdrop Hwords Hkeys.
  - cbn [insert_words].
    assert (length sw <= k)%nat as Hk.
    { destruct (decide (length sw <= k)%nat); [done|].
      apply (f_equal length) in Hdrop. rewrite length_drop in Hdrop. cbn in Hdrop. lia. }
    intros w n f Hne Hw. destruct (Hwords w n f Hne Hw) as (word & Hn & Hword & Hpre & Hlt & Hf).
    exists word. repeat split; try done.
    + by eapply lookup_lt_Some.
    + intros Hfin. specialize (Hf Hfin). by rewrite take_ge in * by lia.
  - assert (sw !! k = Some w0) as Hw0.
    { rewrite <- (Nat.add_0_r k), <- lookup_drop, Hdrop. done. }
    assert (drop (S k) sw = words) as Hrest.
    { replace (S k) with (k + 1)%nat by lia. by rewrite <- drop_drop, Hdrop. }
    cbn [insert_words].
    destruct (insert_runes_ok sw k w0 w0 0 0 tab) as [Hwalks' Hkeys']; try done.
    { by exists false. }
    { intros w n f Hne Hw. destruct (Hwords w n f Hne Hw) as (word & Hn & Hword & Hpre & Hlt & Hf).
      exists word. repeat split; try done. by left. }
    change (Z.of_nat 0) with 0 in Hwalks', Hkeys'.
    replace (Z.of_nat k + 1) with (Z.of_nat (S k)) by lia.
    apply IH; [done| |done].
    intros w n f Hne Hw.
    destruct (Hwalks' w n f Hne Hw) as (word & Hn & Hword & Hpre & Hcase).
    exists word. repeat split; try done.
    + destruct Hcase as [[Hlt _]|[Heq _]]; lia.
    + intros Hfin. rewrite (take_S_r sw k w0 Hw0). apply elem_of_app.
      destruct Hcase as [[_ Hf]|(_ & _ & Hf)]; [left; by apply Hf|right].
      rewrite (Hf Hfin). by apply list_elem_of_singleton.
Qed.

Lemma elem_of_sort_insert w x ws : x ∈ sort_insert w ws <-> x = w \/ x ∈ ws.
Proof.
  induction ws as [|v ws IH]; cbn [sort_insert].
  - rewrite list_elem_of_singleton. split; [by left|].
    intros [H|H]; [done|by apply elem_of_nil in H].
  - destruct (string_le w v); rewrite !elem_of_cons; [done|]. rewrite IH. tauto.
Qed.

Lemma elem_of_sort_Strings x ws : x ∈ sort_Strings ws <-> x ∈ ws.
Proof.
  unfold sort_Strings. induction ws as [|w ws IH]; cbn [foldr]; [done|].
  rewrite elem_of_sort_insert, elem_of_cons, IH. done.
Qed.

(** A walk of the trie of [MakePrefixTree] ends on a final transition only
    along a word of the list. *)
Lemma MakePrefixTree_sound ws w n :
  walk (MakePrefixTree ws) w = Some (n, true) -> w ∈ ws.
Proof.
  intros Hw. apply elem_of_sort_Strings.
  assert (w <> []) as Hne by (intros ->; done).
  assert (words_ok (sort_Strings ws) 0 ∅) as Hwords.
  { intros w' n' f' Hne'. destruct w' as [|c w']; [done|]. cbn. by rewrite lookup_empty. }
  assert (keys_reachable ∅) as Hkeys.
  { by intros key v Hkey%lookup_empty_Some. }
  destruct (insert_words_ok (sort_Strings ws) (sort_Strings ws) 0 ∅ eq_refl Hwords Hkeys
              w n true Hne Hw) as (word & _ & _ & _ & _ & Hf).
  specialize (Hf eq_refl). by rewrite firstn_all in Hf.
Qed.

(** ** The flags that a call leaves behind *)

(** Every round ends with [foundBestEdge] up, and leaves a Latin run
    open only before the last codepoint of the line. *)
Lemma scanRune_flags sm i ch sm' :
  scanRune sm i ch = Some sm' ->
  Segmenter.length sm' = Segmenter.length sm /\
  Segmenter.foundBestEdge sm' = true /\
  (Segmenter.foundLatin sm' = true -> i <> Segmenter.length sm - 1).
Proof.
  intros H. destruct (IsText ch) eqn:Ht.
  - rewrite scanRune_text in H by done.
    apply bind_Some in H as (sm3 & H3 & H). apply bind_Some in H as (sm4 & H4 & H).
    apply chooseDictEdge_effect in H4 as [Heq4 _].
    apply commitEdge_effect in H as (lb & be & -> & _ & _).
    unfold beforeChoice, resetBest in H3.
    apply bind_Some in H3 as (sm1 & H1 & H3). apply bind_Some in H3 as (sm2 & H2 & H3).
    rewrite advancePointers_eq in H3.
    apply flushSpace_effect in H1 as (p1 & -> & _).
    apply flushLatin_effect in H2 as (p2 & -> & _).
    rewrite Heq4. simplify_eq. destruct sm as [d p lb0 sL fL sS fS be0 fbe ptrs len].
    cbn. destruct fS, fL; cbn; done.
  - unfold IsText in Ht. unfold scanRune in H.
    apply bind_Some in H as (sm2 & H2 & H).
    apply commitEdge_effect in H as (lb & be & -> & _ & _).
    destruct sm as [d p lb0 sL fL sS fS be0 fbe ptrs len].
    unfold flushSpace, flushLatin, openLatin, openSpace, closeLatin, closeSpace, edgeFrom
      in H2.
    cbn in H2 |- *.
    destruct (IsLatin ch); [|destruct (IsSpace ch); [|done]].
    + destruct fS, fL, (i =? len - 1) eqn:Hlast; cbn in H2; open_block; cbn in *;
        (split; [done|]); (split; [done|]); intros; try done; lia.
    + destruct fS, fL, (i =? len - 1) eqn:Hlast; cbn in H2; open_block; cbn in *;
        (split; [done|]); (split; [done|]); intros; try done; lia.
Qed.

Lemma scanFrom_flags line : forall sm i sm',
  scanFrom sm i line = Some sm' ->
  i + Z.of_nat (length line) = Segmenter.length sm ->
  (Segmenter.foundLatin sm = true -> line <> []) ->
  Segmenter.foundLatin sm' = false /\
  Segmenter.foundBestEdge sm' =
    match line with [] => Segmenter.foundBestEdge sm | _ :: _ => true end.
Proof.
  induction line as [|ch line IH]; intros sm i sm' H Hlen Hopen; cbn [scanFrom] in H.
  - simplify_eq. split; [|done].
    destruct (Segmenter.foundLatin sm'); [|done]. by destruct Hopen.
  - apply bind_Some in H as (sm1 & H1 & H).
    apply scanRune_flags in H1 as (Hlen1 & Hbest1 & Hlatin1).
    cbn [length] in Hlen.
    destruct (IH sm1 (i + 1) sm' H) as [HfL Hbest].
    + lia.
    + intros Hf ->. apply Hlatin1 in Hf. cbn in Hlen. lia.
    + split; [done|]. rewrite Hbest. by destruct line.
Qed.

(** When [BuildPath] returns no Latin run is open, and [foundBestEdge]
    is up unless the line was empty, in which case no round touched it. *)
Lemma BuildPath_flags sm line sm' :
  BuildPath sm line = Some sm' ->
  Segmenter.foundLatin sm' = false /\
  Segmenter.foundBestEdge sm' =
    match line with [] => Segmenter.foundBestEdge sm | _ :: _ => true end.
Proof.
  unfold BuildPath. intros H. apply bind_Some in H as (sm0 & H0 & H).
  destruct (resetScratch_eq sm line) as (ptrs & Heq & _).
  rewrite Heq in H0. simplify_eq.
  apply scanFrom_flags in H; [done|done|done].
Qed.

Lemma Segment_BuildPath sm line out sm' :
  Segment sm line = Some (out, sm') -> BuildPath sm line = Some sm'.
Proof.
  unfold Segment. intros H. apply bind_Some in H as (sm1 & H1 & H).
  rewrite H1. f_equal. open_block. done.
Qed.

Lemma SegmentAll_flags lines : forall sm outs sm',
  SegmentAll sm lines = Some (outs, sm') ->
  Segmenter.foundLatin sm = false ->
  Segmenter.foundLatin sm' = false /\
  (Segmenter.foundBestEdge sm' = true <->
   Segmenter.foundBestEdge sm = true \/ exists L, L ∈ lines /\ L <> []).
Proof.
  induction lines as [|L lines IH]; intros sm outs sm' H HfL; cbn [SegmentAll] in H.
  - simplify_eq. split; [done|]. split; [by left|].
    intros [?|(L & []%elem_of_nil & _)]. done.
  - apply bind_Some in H as ([tokens sm1] & H1 & H).
    apply bind_Some in H as ([out sm2] & H2 & H). simplify_eq.
    apply Segment_BuildPath, BuildPath_flags in H1 as [HfL1 Hbest1].
    destruct (IH _ _ _ H2 HfL1) as [HfL2 Hbest2]. split; [done|].
    rewrite Hbest2, Hbest1. split.
    + intros [Hb|(L' & Hin & Hne)].
      * destruct L as [|c L]; [by left|]. right. exists (c :: L).
        split; [apply elem_of_cons; by left|done].
      * right. exists L'. split; [apply elem_of_cons; by right|done].
    + intros [Hb|(L' & Hin & Hne)].
      * left. by destruct L.
      * apply elem_of_cons in Hin as [->|Hin].
        -- left. by destruct L.
        -- right. by exists L'.
Qed.

(** ** The embedding against the tests of the repository *)

(** [TestOneWordPrefixTree] and [TestTwoWordsPrefixTree] of the
    repository, on the embedded [MakePrefixTree]. *)
Example TestTwoWordsPrefixTree :
  MakePrefixTree [[65; 66]] !! PrefixTreeNode.mk 0 0 65
    = Some (PrefixTreePointer.mk 0 false) /\
  MakePrefixTree [[65; 66]] !! PrefixTreeNode.mk 0 1 66
    = Some (PrefixTreePointer.mk 0 true) /\
  MakePrefixTree [[65; 66]; [65; 67]; [68]] !! PrefixTreeNode.mk 0 0 65
    = Some (PrefixTreePointer.mk 0 false) /\
  MakePrefixTree [[65; 66]; [65; 67]; [68]] !! PrefixTreeNode.mk 0 1 66
    = Some (PrefixTreePointer.mk 0 true) /\
  MakePrefixTree [[65; 66]; [65; 67]; [68]] !! PrefixTreeNode.mk 0 1 67
    = Some (PrefixTreePointer.mk 1 true) /\
  MakePrefixTree [[65; 66]; [65; 67]; [68]] !! PrefixTreeNode.mk 0 0 68
    = Some (PrefixTreePointer.mk 2 true).
Proof. repeat split; vm_compute; reflexivity. Qed.

(** [TestKaPrefixTree] of the repository. *)
Example TestKaPrefixTree :
  MakePrefixTree [[3585; 3634]] !! PrefixTreeNode.mk 0 0 3585
    = Some (PrefixTreePointer.mk 0 false) /\
  MakePrefixTree [[3585; 3634]] !! PrefixTreeNode.mk 0 1 3634
    = Some (PrefixTreePointer.mk 0 true).
Proof. repeat split; vm_compute; reflexivity. Qed.

(** A Latin run, a space run and a Latin run: "ab cd" gives "ab", " ",
    "cd" whatever the dictionary says about "ab". *)
Example latin_space_latin :
  segment [97; 98; 32; 99; 100] (MakePrefixTree [[97; 98]])
  = Some [[97; 98]; [32]; [99; 100]].
Proof. vm_compute. reflexivity. Qed.

(** A word of the dictionary between two unknown codepoints. *)
Example unknown_word_unknown :
  segment [3585; 3617; 3634; 3585] (MakePrefixTree [[3617; 3634]])
  = Some [[3585]; [3617; 3634]; [3585]].
Proof. vm_compute. reflexivity. Qed.

(** * The claims *)

(** C1: for every trie and every line, [segment] returns tokens whose
    concatenation, in order, is the line itself; no token is empty, so
    the tokens partition the codepoints of the line. *)
Theorem segment_concat (T : PrefixTree) (L : list rune) :
  exists tokens,
    segment L T = Some tokens /\ concat tokens = L /\
    Forall (fun tok => tok <> []) tokens.
Proof.
  destruct (segment_spec L T) as (out & E & last & H & _ & _ & _ & _ & Hcat & Hne & _).
  eauto.
Qed.

(** C2, as the code has it: 'A', 'B', 'C' and 'D' are Latin letters, so
    the scan never consults the dictionary {"AB","AC","D"} on "ABDAC": the
    whole line is one Latin run and comes back as a single token. *)
Theorem scenario2_latin_run :
  segment [65; 66; 68; 65; 67] (MakePrefixTree [[65; 66]; [65; 67]; [68]])
  = Some [[65; 66; 68; 65; 67]].
Proof. vm_compute. reflexivity. Qed.

(** C2, as the specification states it, fails: the tokens are not
    ["AB","D","AC"]. *)
Lemma scenario2_counterexample :
  segment [65; 66; 68; 65; 67] (MakePrefixTree [[65; 66]; [65; 67]; [68]])
  <> Some [[65; 66]; [68]; [65; 67]].
Proof. vm_compute. discriminate. Qed.

(** C3, as the code has it: the candidate loop meets the candidates
    longest first and lets a later candidate of equal cost replace the
    best one, so the edge written to [E[i + 1]] is a candidate of least
    cost [(unk_count, word_count)] and, among the candidates of that same
    cost, the one met last: the shortest match, produced by the live
    pointer of smallest depth (greatest start index). *)
Theorem tie_goes_to_shortest_match (T : PrefixTree) (L : list rune) (i : nat)
    (ch : rune) :
  L !! i = Some ch -> IsText ch = true ->
  exists cands E best,
    candidatesAt T L i = Some cands /\
    edges L T = Some E /\ E !! S i = Some best /\
    (cands <> [] -> best ∈ cands) /\
    forall c, c ∈ cands ->
      supersedes best c = true /\
      (Edge.UnkCount c = Edge.UnkCount best ->
       Edge.WordCount c = Edge.WordCount best ->
       Edge.S c <= Edge.S best).
Proof.
  intros Hch Ht.
  destruct (text_round T L i ch Hch Ht) as (sm3 & E & best & H3 & _ & Hptrs & HE & Hbest & Hpick).
  exists (dictCandidates sm3 (Z.of_nat i)), E, best.
  split; [unfold candidatesAt; by rewrite H3|]. split; [done|]. split; [done|].
  assert (deepest_first (elems (Segmenter.pointers sm3))) as Hdeep.
  { rewrite Hptrs. apply livePointers_deepest_first. }
  apply (dictCandidates_sorted _ (Z.of_nat i)) in Hdeep.
  destruct (dictCandidates sm3 (Z.of_nat i)) as [|c0 cands]; [split; [done|]|].
  { intros c Hc. by apply elem_of_nil in Hc. }
  specialize (Hpick ltac:(done)).
  apply pickBest_None_last in Hpick as (l1 & l2 & Heq & H1 & H2).
  rewrite Heq in *. split.
  { intros _. apply elem_of_app. right. by left. }
  intros c Hc. apply elem_of_app in Hc as [Hc|Hc].
  - split; [by apply H1|]. intros _ _.
    apply (StronglySorted_app_1_elem_of _ _ _ c best) in Hdeep; [cbn in Hdeep; lia|done|by left].
  - apply elem_of_cons in Hc as [->|Hc]; [split; [apply supersedes_refl|lia]|].
    specialize (H2 _ Hc). split; [by apply supersedes_total|].
    intros Hu Hw. apply not_true_iff_false in H2. rewrite supersedes_spec in H2. lia.
Qed.

Lemma tie_goes_to_shortest_match_witness :
  [3585; 3586; 3587] !! 2%nat = Some 3587 /\ IsText 3587 = true /\
  exists cands E best,
    candidatesAt (MakePrefixTree [[3586; 3587]; [3587]]) [3585; 3586; 3587] 2 = Some cands /\
    edges [3585; 3586; 3587] (MakePrefixTree [[3586; 3587]; [3587]]) = Some E /\
    E !! 3%nat = Some best /\
    (cands <> [] -> best ∈ cands) /\
    forall c, c ∈ cands ->
      supersedes best c = true /\
      (Edge.UnkCount c = Edge.UnkCount best ->
       Edge.WordCount c = Edge.WordCount best ->
       Edge.S c <= Edge.S best).
Proof.
  split; [reflexivity|]. split; [reflexivity|].
  apply (tie_goes_to_shortest_match (MakePrefixTree [[3586; 3587]; [3587]])
           [3585; 3586; 3587] 2 3587); reflexivity.
Defined.

(** C3, as the specification states it, fails: with the words "ขค" and
    "ค" and the line "กขค", both words end at the last codepoint with one
    unknown and two words each, and the edge written to [E[3]] is the one
    of "ค", not the longer "ขค". *)
Lemma tie_longest_counterexample :
  exists longest best,
    candidatesAt (MakePrefixTree [[3586; 3587]; [3587]]) [3585; 3586; 3587] 2
      = Some [longest; best] /\
    (edges [3585; 3586; 3587] (MakePrefixTree [[3586; 3587]; [3587]])
       ≫= fun E => E !! 3%nat) = Some best /\
    Edge.UnkCount longest = Edge.UnkCount best /\
    Edge.WordCount longest = Edge.WordCount best /\
    Edge.S longest < Edge.S best.
Proof.
  exists (Edge.mk 1 2 1), (Edge.mk 2 2 1).
  split; [vm_compute; reflexivity|]. split; [vm_compute; reflexivity|].
  cbn. lia.
Qed.

(** C4: after [BuildPath] on a line of [N] codepoints, every entry
    [E[i]] with [1 <= i <= N] starts strictly before [i], and the word
    count at its start is one less than its own. *)
Theorem edge_array_sound (T : PrefixTree) (L : list rune) (i : Z) :
  1 <= i <= Z.of_nat (length L) ->
  exists E e src,
    edges L T = Some E /\
    E !! Z.to_nat i = Some e /\
    0 <= Edge.S e < i /\
    E !! Z.to_nat (Edge.S e) = Some src /\
    Edge.WordCount src + 1 = Edge.WordCount e.
Proof.
  intros Hi.
  destruct (segment_spec L T) as (out & E & last & _ & HE & Hlen & [_ Hok] & _).
  destruct (lookup_lt_is_Some_2 E (Z.to_nat i)) as [e He]; [lia|].
  destruct (Hok i e Hi He) as [Hs (src & Hsrc & Hwc & _)].
  exists E, e, src. eauto.
Qed.

Lemma edge_array_sound_witness :
  1 <= 3 <= Z.of_nat (length [3585; 65; 3586]) /\
  exists E e src,
    edges [3585; 65; 3586] (MakePrefixTree [[3585; 3586]]) = Some E /\
    E !! Z.to_nat 3 = Some e /\
    0 <= Edge.S e < 3 /\
    E !! Z.to_nat (Edge.S e) = Some src /\
    Edge.WordCount src + 1 = Edge.WordCount e.
Proof.
  split; [simpl; lia|].
  apply (edge_array_sound (MakePrefixTree [[3585; 3586]]) [3585; 65; 3586] 3).
  simpl; lia.
Defined.

(** C5: the number of tokens [segment] returns is the word count stored
    in the last entry [E[N]] of the edge array built for the line. *)
Theorem token_count_is_word_count (T : PrefixTree) (L : list rune) :
  exists tokens E last,
    segment L T = Some tokens /\ edges L T = Some E /\
    E !! length L = Some last /\
    Z.of_nat (length tokens) = Edge.WordCount last.
Proof.
  destruct (segment_spec L T) as (out & E & last & H & HE & _ & _ & Hlast & _ & _ & Hcnt).
  eauto 10.
Qed.

(** C6: with the words "กา", "กาแฟ" and "แฟ", the line "กาแฟ" comes back
    as the single token "กาแฟ".  "กา" ends at boundary 2 with no unknown;
    at the last codepoint the candidates are "กาแฟ" from boundary 0 (one
    word, no unknown) and "แฟ" from boundary 2 (two words, no unknown),
    and the one-word edge is the one written to [E[4]]. *)
Theorem scenario3_single_token :
  segment [3585; 3634; 3649; 3615]
    (MakePrefixTree [[3585; 3634]; [3585; 3634; 3649; 3615]; [3649; 3615]])
  = Some [[3585; 3634; 3649; 3615]] /\
  candidatesAt
    (MakePrefixTree [[3585; 3634]; [3585; 3634; 3649; 3615]; [3649; 3615]])
    [3585; 3634; 3649; 3615] 3
  = Some [Edge.mk 0 1 0; Edge.mk 2 2 0] /\
  edges [3585; 3634; 3649; 3615]
    (MakePrefixTree [[3585; 3634]; [3585; 3634; 3649; 3615]; [3649; 3615]])
  = Some [Edge.mk 0 0 0; Edge.mk 0 1 1; Edge.mk 0 1 0; Edge.mk 2 2 1; Edge.mk 0 1 0].
Proof. repeat split; vm_compute; reflexivity. Qed.

(** C7: with the empty trie, a non-empty line made of text codepoints
    only comes back as one token, the whole line, and the last entry of
    the edge array counts it as one word and one unknown: the unknown run
    is never cut, because [leftBoundary] stays where it is. *)
Theorem empty_trie_single_unknown (L : list rune) :
  L <> [] -> Forall (fun ch => IsText ch = true) L ->
  MakePrefixTree [] = ∅ /\
  segment L (MakePrefixTree []) = Some [L] /\
  exists E, edges L (MakePrefixTree []) = Some E /\
            E !! length L = Some (Edge.mk 0 1 1) /\
            Forall (fun e => Edge.S e = 0) E.
Proof.
  intros Hne Hall. split; [done|]. change (MakePrefixTree []) with (∅ : PrefixTree).
  destruct (segment_spec L ∅)
    as (out & E & last & Hseg & HE & Hlen & _ & Hlast & Hcat & _ & Hcnt).
  assert (E = zeroEdge :: replicate (length L) unknownFromStart) as ->.
  { unfold edges, BuildPath in HE.
    destruct (resetScratch_eq (Segmenter.new ∅) L) as (ptrs & Hreset & Hptrs).
    rewrite Hreset in HE. cbn [mbind option_bind] in HE.
    destruct (scanFrom_empty_trie L
                (Segmenter.mk ∅ (SData (replicate (S (length L)) zeroEdge)) 0 0 false 0
                   false (Edge.mk 0 0 0) false ptrs (Z.of_nat (length L))) 0)
      as (sm' & Hscan & Hp'); [done..|].
    change (Z.of_nat 0) with 0 in Hscan. cbn in HE, Hscan. rewrite Hscan in HE.
    cbn in HE. rewrite Hp' in HE. by simplify_eq. }
  destruct L as [|ch L]; [done|].
  cbn [length] in Hlast. rewrite lookup_cons in Hlast.
  rewrite lookup_replicate_2 in Hlast by (cbn; lia). simplify_eq.
  cbn in Hcnt. destruct out as [|tok [|tok' out]]; cbn in Hcnt; try lia.
  cbn in Hcat. rewrite app_nil_r in Hcat. subst tok.
  split; [done|]. eexists; split; [done|]. split.
  - cbn [length]. rewrite lookup_cons. by rewrite lookup_replicate_2 by (cbn; lia).
  - constructor; [done|]. by apply Forall_replicate.
Qed.

Lemma empty_trie_single_unknown_witness :
  [3585; 3634; 3649] <> [] /\
  Forall (fun ch => IsText ch = true) [3585; 3634; 3649] /\
  MakePrefixTree [] = ∅ /\
  segment [3585; 3634; 3649] (MakePrefixTree []) = Some [[3585; 3634; 3649]] /\
  exists E, edges [3585; 3634; 3649] (MakePrefixTree []) = Some E /\
            E !! length [3585; 3634; 3649] = Some (Edge.mk 0 1 1) /\
            Forall (fun e => Edge.S e = 0) E.
Proof.
  assert ([3585; 3634; 3649] <> []) as Hne by discriminate.
  assert (Forall (fun ch => IsText ch = true) [3585; 3634; 3649]) as Hall
    by (repeat constructor).
  split; [exact Hne|]. split; [exact Hall|].
  exact (empty_trie_single_unknown [3585; 3634; 3649] Hne Hall).
Defined.

(** C8: on the empty line [segment] returns no token, and on every line
    it returns: no index of the scan or of the walk back is ever out of
    range. *)
Theorem segment_never_fails (T : PrefixTree) :
  segment [] T = Some [] /\ forall L, exists tokens, segment L T = Some tokens.
Proof.
  split.
  - destruct (segment_spec [] T) as (out & E & last & -> & _ & _ & _ & _ & Hcat & Hne & _).
    destruct out as [|tok out]; [done|].
    apply Forall_cons in Hne as [Hne _]. cbn in Hcat.
    apply app_eq_nil in Hcat as [-> _]. done.
  - intros L. destruct (segment_spec L T) as (out & E & last & -> & _). eauto.
Qed.

(** C9, as the code has it: one segmenter reused for a whole sequence of
    lines returns, line by line, exactly the tokens that a segmenter made
    anew for each line returns.  Whenever a call returns, [foundLatin]
    and [foundSpace] are false as in a new segmenter, [foundSpace]
    although the reset block of [BuildPath] leaves it alone.
    [foundBestEdge] is not back in its initial state: it is true as soon
    as one of the lines was not empty.  It does no harm, since every
    round of the scan lowers it before reading it: a segmenter over the
    same dictionary with no open space run returns the tokens of a new
    one whatever else it holds. *)
Theorem reuse_equals_fresh (d : PrefixTree) (lines : list (list rune)) :
  (exists outs sm',
     SegmentAll (Segmenter.new d) lines = Some (outs, sm') /\
     Forall2 (fun L tokens => segment L d = Some tokens) lines outs /\
     Segmenter.foundLatin sm' = false /\
     Segmenter.foundSpace sm' = false /\
     (Segmenter.foundBestEdge sm' = true <-> exists L, L ∈ lines /\ L <> [])) /\
  (forall sm L, Segmenter.dict sm = d -> Segmenter.foundSpace sm = false ->
                fst <$> Segment sm L = segment L d).
Proof.
  split.
  - destruct (SegmentAll_fresh d lines (Segmenter.new d) eq_refl eq_refl)
      as (outs & sm' & H & Hall & _ & HfS).
    destruct (SegmentAll_flags lines _ _ _ H eq_refl) as [HfL Hbest].
    exists outs, sm'. repeat split; try done.
    + intros Hb. apply Hbest in Hb as [Hb|Hb]; done.
    + intros Hex. apply Hbest. by right.
  - intros sm L Hd HfS. unfold segment. by apply Segment_alike.
Qed.

(** C9, as stated, fails in its last part: [foundBestEdge] is a flag of
    the scan that the reset block leaves alone, it is false in a new
    segmenter and true when [BuildPath] returns from the one-codepoint
    line "ก", and it stays true through a later call on the empty
    line. *)
Lemma foundBestEdge_counterexample :
  Segmenter.foundBestEdge (Segmenter.new ∅) = false /\
  Segmenter.foundBestEdge <$> BuildPath (Segmenter.new ∅) [3585] = Some true /\
  (Segmenter.foundBestEdge ∘ snd) <$> Segment (Segmenter.new ∅) [3585] = Some true /\
  (Segmenter.foundBestEdge ∘ snd) <$> SegmentAll (Segmenter.new ∅) [[3585]; []]
    = Some true.
Proof. repeat split; vm_compute; reflexivity. Qed.

(** C10: the last part of the claim fails on the code.  A round on a
    Latin or space codepoint neither advances nor drops the live
    pointers, while the candidate loop computes the start of a
    dictionary edge as [1 + i - pointer.Offset], as if the codepoints
    matched were contiguous.  With the word "กข" and the line "กAข" the
    pointer spawned at "ก" outlives the Latin letter and is final at "ข":
    the dictionary candidate of that round starts at boundary 1, it is
    written to [E[3]], and the tokens are "ก" and "Aข".  The token
    selected by the dictionary edge holds a Latin letter, and is not the
    word that was matched.  On "กABข" the dictionary edge starts inside
    the Latin run: the tokens are "กA" and "Bข". *)
Theorem dictionary_edge_across_a_latin_run :
  candidatesAt (MakePrefixTree [[3585; 3586]]) [3585; 65; 3586] 2
    = Some [Edge.mk 1 2 1] /\
  (edges [3585; 65; 3586] (MakePrefixTree [[3585; 3586]]) ≫= fun E => E !! 3%nat)
    = Some (Edge.mk 1 2 1) /\
  segment [3585; 65; 3586] (MakePrefixTree [[3585; 3586]])
    = Some [[3585]; [65; 3586]] /\
  IsLatin 65 = true /\
  ~ Forall (fun x => IsText x = true) [65; 3586] /\
  candidatesAt (MakePrefixTree [[3585; 3586]]) [3585; 65; 66; 3586] 3
    = Some [Edge.mk 2 2 1] /\
  segment [3585; 65; 66; 3586] (MakePrefixTree [[3585; 3586]])
    = Some [[3585; 65]; [66; 3586]].
Proof.
  split; [vm_compute; reflexivity|]. split; [vm_compute; reflexivity|].
  split; [vm_compute; reflexivity|]. split; [reflexivity|].
  split; [|split; vm_compute; reflexivity].
  intros [H _]%Forall_cons. vm_compute in H. discriminate.
Qed.

(** * Further properties of the code *)

(** ** What the walks of a prefix tree are *)

Lemma firstWith_Some ws w n f :
  firstWith ws w = Some (n, f) ->
  exists i word, n = Z.of_nat i /\ ws !! i = Some word /\ w `prefix_of` word /\
                 f = bool_decide (word = w) /\
                 forall i' word', (i' < i)%nat -> ws !! i' = Some word' ->
                                  ~ w `prefix_of` word'.
Proof.
  unfold firstWith. intros ([i word] & Hfind & H)%bind_Some. simplify_eq.
  apply list_find_Some in Hfind as (Hword & Hpre & Hfirst).
  exists i, word. repeat split; try done. intros i' word' Hlt Hw'. by eapply Hfirst.
Qed.

Lemma firstWith_None ws w :
  firstWith ws w = None <-> Forall (fun word => ~ w `prefix_of` word) ws.
Proof.
  unfold firstWith. rewrite <- (list_find_None (fun word => w `prefix_of` word)).
  destruct (list_find (fun word => w `prefix_of` word) ws) as [[i word]|];
    simpl_opt; split; done.
Qed.

Lemma firstWith_snoc ws w0 w :
  firstWith (ws ++ [w0]) w =
  match firstWith ws w with
  | Some r => Some r
  | None => if bool_decide (w `prefix_of` w0)
            then Some (Z.of_nat (length ws), bool_decide (w0 = w))
            else None
  end.
Proof.
  unfold firstWith.
  destruct (list_find (fun word => w `prefix_of` word) ws) as [[i word]|] eqn:Hfind.
  - by rewrite (list_find_app_l _ _ _ _ _ Hfind).
  - rewrite (list_find_app_r _ _ _ Hfind). cbn [list_find].
    case_bool_decide as Hpre.
    + rewrite decide_True by done. done.
    + rewrite decide_False by done. done.
Qed.

Lemma prefix_snoc_inv {A} (w p : list A) c :
  w `prefix_of` p ++ [c] -> w `prefix_of` p \/ w = p ++ [c].
Proof.
  intros [k Hk]. destruct k as [|x k _] using rev_ind.
  - right. by rewrite app_nil_r in Hk.
  - left. rewrite app_assoc in Hk. apply app_inj_tail in Hk as [-> _]. by exists k.
Qed.

Lemma prefix_take_S {A} `{!EqDecision A} (w w0 : list A) j ch :
  take (S j) w0 = take j w0 ++ [ch] -> w <> take (S j) w0 ->
  bool_decide (w `prefix_of` take (S j) w0) = bool_decide (w `prefix_of` take j w0).
Proof.
  intros Htake Hw. apply bool_decide_ext. rewrite Htake. split.
  - intros [?| ->]%prefix_snoc_inv; [done|]. by rewrite Htake in Hw.
  - intros H. by apply prefix_app_r.
Qed.

Lemma final_flag_eq (w0 : list rune) j :
  (j < length w0)%nat ->
  (Z.of_nat (S j) =? Z.of_nat (length w0)) = bool_decide (w0 = take (S j) w0).
Proof.
  intros Hj. case_bool_decide as H.
  - apply Z.eqb_eq. apply (f_equal length) in H. rewrite length_take in H. lia.
  - apply Z.eqb_neq. intros Heq. apply H. symmetry. apply take_ge. lia.
Qed.

Lemma firstWith_lt ws w n f : firstWith ws w = Some (n, f) -> 0 <= n < Z.of_nat (length ws).
Proof.
  intros (i & word & -> & Hword & _)%firstWith_Some.
  apply lookup_lt_Some in Hword. lia.
Qed.

(** In a table that holds words, the node and the depth tell the
    codepoints walked. *)
Lemma trie_at_walk_inj ws w0 j tab w1 w2 n f1 f2 :
  trie_at ws w0 j tab ->
  walk tab w1 = Some (n, f1) -> walk tab w2 = Some (n, f2) ->
  length w1 = length w2 -> w1 = w2.
Proof.
  intros Htrie H1 H2 Hlen.
  destruct w1 as [|c1 w1]; [by destruct w2|].
  destruct w2 as [|c2 w2]; [done|].
  rewrite Htrie in H1 by done. rewrite Htrie in H2 by done.
  destruct (firstWith ws (c1 :: w1)) as [[n1 g1]|] eqn:E1;
    destruct (firstWith ws (c2 :: w2)) as [[n2 g2]|] eqn:E2.
  - simplify_eq.
    apply firstWith_Some in E1 as (i1 & word1 & ? & Hw1 & Hp1 & _).
    apply firstWith_Some in E2 as (i2 & word2 & ? & Hw2 & Hp2 & _).
    assert (i1 = i2) by lia. simplify_eq.
    eapply prefix_same_length; [done..|cbn [length] in *; congruence].
  - apply firstWith_lt in E1.
    destruct (bool_decide (c2 :: w2 `prefix_of` take j w0)); simplify_eq. lia.
  - apply firstWith_lt in E2.
    destruct (bool_decide (c1 :: w1 `prefix_of` take j w0)); simplify_eq. lia.
  - destruct (bool_decide (c1 :: w1 `prefix_of` take j w0)) eqn:B1; [|done].
    destruct (bool_decide (c2 :: w2 `prefix_of` take j w0)) eqn:B2; [|done].
    apply bool_decide_eq_true in B1. apply bool_decide_eq_true in B2.
    eapply prefix_same_length; [done..|cbn [length] in *; congruence].
Qed.

(** The inner loop of [MakePrefixTree], codepoint by codepoint. *)
Lemma insert_runes_trie ws w0 runes : forall j rowNo tab,
  drop j w0 = runes ->
  (exists f, walk tab (take j w0) = Some (rowNo, f)) ->
  trie_at ws w0 j tab -> keys_reachable tab ->
  trie_at ws w0 (length w0)
    (insert_runes tab (Z.of_nat (length ws)) (Z.of_nat (length w0)) rowNo
                  (Z.of_nat j) runes) /\
  keys_reachable
    (insert_runes tab (Z.of_nat (length ws)) (Z.of_nat (length w0)) rowNo
                  (Z.of_nat j) runes).
Proof.
  induction runes as [|ch rest IH]; intros j rowNo tab Hdrop [fp Hp] Htrie Hkeys.
  - cbn [insert_runes]. split; [|done].
    assert (length w0 <= j)%nat as Hj.
    { destruct (decide (length w0 <= j)%nat); [done|].
      apply (f_equal length) in Hdrop. rewrite length_drop in Hdrop. cbn in Hdrop. lia. }
    intros w Hne. rewrite (Htrie w Hne). by rewrite !take_ge by lia.
  - assert (w0 !! j = Some ch) as Hch.
    { rewrite <- (Nat.add_0_r j), <- lookup_drop, Hdrop. done. }
    assert (drop (S j) w0 = rest) as Hrest.
    { replace (S j) with (j + 1)%nat by lia. by rewrite <- drop_drop, Hdrop. }
    assert (j < length w0)%nat as Hj by (by eapply lookup_lt_Some).
    assert (take (S j) w0 = take j w0 ++ [ch]) as Htake by (by apply take_S_r).
    assert (length (take j w0) = j) as Hlenp by (rewrite length_take; lia).
    assert (take (S j) w0 <> []) as Hne1 by (rewrite Htake; by destruct (take j w0)).
    cbn [insert_runes].
    replace (Z.of_nat j + 1) with (Z.of_nat (S j)) by lia.
    destruct (tab !! PrefixTreeNode.mk rowNo (Z.of_nat j) ch) as [child|] eqn:Hkey.
    + assert (walk tab (take (S j) w0)
              = Some (PrefixTreePointer.ChildID child, PrefixTreePointer.IsFinal child))
        as Hp1.
      { rewrite Htake, walk_snoc, Hp. simpl_opt. cbn [fst]. rewrite Hlenp, Hkey. done. }
      apply IH; try done; [by eexists|].
      intros w Hne. rewrite (Htrie w Hne).
      destruct (decide (w = take (S j) w0)) as [->|Hw];
        [|by rewrite (prefix_take_S _ _ _ _ Htake Hw)].
      rewrite Htrie in Hp1 by done.
      destruct (firstWith ws (take (S j) w0)) as [r|]; [done|].
      rewrite bool_decide_eq_false_2 in Hp1; [done|].
      intros Hpre%prefix_length. rewrite length_take in Hpre. lia.
    + set (v := PrefixTreePointer.mk (Z.of_nat (length ws))
                  (Z.of_nat (S j) =? Z.of_nat (length w0))).
      assert (walk tab (take (S j) w0) = None) as Hp1.
      { rewrite Htake, walk_snoc, Hp. simpl_opt. cbn [fst]. rewrite Hlenp, Hkey. done. }
      assert (firstWith ws (take (S j) w0) = None) as Hfw1.
      { rewrite Htrie in Hp1 by done. by destruct (firstWith ws (take (S j) w0)). }
      assert (forall w' r', walk tab w' = Some r' -> r'.1 = rowNo ->
                Z.of_nat (length w') = Z.of_nat j -> w' = take j w0) as Huniq.
      { intros w' [n' f'] Hw' Hn' Hlen'. cbn in Hn'. subst n'.
        eapply trie_at_walk_inj; [done..|lia]. }
      assert (forall c, tab !! PrefixTreeNode.mk (Z.of_nat (length ws)) (Z.of_nat j + 1) c
                        = None) as Hfresh.
      { intros c.
        destruct (tab !! PrefixTreeNode.mk (Z.of_nat (length ws)) (Z.of_nat j + 1) c)
          as [v'|] eqn:Hc; [|done]. exfalso.
        destruct (Hkeys _ _ Hc) as (w' & [n' f'] & Hw' & Hn' & Hlen').
        cbn in Hn', Hlen'. subst n'.
        assert (w' <> []) as Hne' by (intros ->; cbn in Hlen'; lia).
        rewrite Htrie in Hw' by done.
        destruct (firstWith ws w') as [[n g]|] eqn:Hfw.
        - apply firstWith_lt in Hfw. simplify_eq. lia.
        - case_bool_decide as Hpre; [|done]. apply prefix_length in Hpre. lia. }
      assert (walk (<[PrefixTreeNode.mk rowNo (Z.of_nat j) ch := v]> tab) (take (S j) w0)
              = Some (Z.of_nat (length ws), Z.of_nat (S j) =? Z.of_nat (length w0)))
        as Hp2.
      { rewrite Htake, walk_snoc. rewrite (walk_insert_fresh _ _ _ _ _ Hkey Hp).
        simpl_opt. cbn [fst]. rewrite Hlenp, lookup_insert_eq. done. }
      apply IH; try done; [by eexists| |].
      * intros w Hne.
        destruct (decide (w = take (S j) w0)) as [->|Hw].
        { rewrite Hp2, Hfw1, bool_decide_eq_true_2 by done.
          by rewrite final_flag_eq. }
        assert (walk (<[PrefixTreeNode.mk rowNo (Z.of_nat j) ch := v]> tab) w = walk tab w)
          as ->.
        { destruct (walk tab w) as [r|] eqn:Hold; [by apply walk_insert_fresh|].
          destruct (walk (<[PrefixTreeNode.mk rowNo (Z.of_nat j) ch := v]> tab) w)
            as [r|] eqn:Hnew; [|done]. exfalso.
          apply (walk_insert_inv tab rowNo (Z.of_nat j) ch v (take j w0)) in Hnew;
            [|done|lia|done|done].
          destruct Hnew as [Hnew|[-> _]]; [congruence|]. by rewrite Htake in Hw. }
        by rewrite (Htrie w Hne), (prefix_take_S _ _ _ _ Htake Hw).
      * intros key' v' Hkey'.
        destruct (decide (key' = PrefixTreeNode.mk rowNo (Z.of_nat j) ch)) as [->|Hne].
        -- exists (take j w0), (rowNo, fp).
           split; [by apply walk_insert_fresh|]. split; [done|]. cbn. lia.
        -- rewrite lookup_insert_ne in Hkey' by done.
           destruct (Hkeys _ _ Hkey') as (w' & r' & Hw' & Hr').
           exists w', r'. split; [by apply walk_insert_fresh|done].
Qed.

(** The outer loop of [MakePrefixTree], word by word. *)
Lemma insert_words_trie words : forall ws tab,
  trie_of ws tab -> keys_reachable tab ->
  trie_of (ws ++ words) (insert_words tab (Z.of_nat (length ws)) words).
Proof.
  induction words as [|w0 words IH]; intros ws tab Htrie Hkeys.
  - cbn [insert_words]. by rewrite app_nil_r.
  - cbn [insert_words].
    destruct (insert_runes_trie ws w0 w0 0 0 tab) as [Htrie' Hkeys']; try done.
    { by exists false. }
    { intros w Hne. rewrite (Htrie w Hne). destruct (firstWith ws w); [done|].
      rewrite bool_decide_eq_false_2; [done|]. rewrite take_0. by intros ->%prefix_nil_inv. }
    change (Z.of_nat 0) with 0 in *.
    replace (Z.of_nat (length ws) + 1) with (Z.of_nat (length (ws ++ [w0])))
      by (rewrite length_app; cbn; lia).
    rewrite cons_middle, app_assoc. apply IH; [|done].
    intros w Hne. rewrite (Htrie' w Hne), firstWith_snoc. by rewrite firstn_all.
Qed.

Lemma insert_words_empty_trie ws : trie_of ws (insert_words ∅ 0 ws).
Proof.
  apply (insert_words_trie ws [] ∅).
  - intros w Hne. destruct w as [|c w]; [done|]. cbn. by rewrite lookup_empty.
  - by intros key v Hkey%lookup_empty_Some.
Qed.

Lemma insert_words_empty_walk ws w :
  w <> [] -> walk (insert_words ∅ 0 ws) w = firstWith ws w.
Proof. apply insert_words_empty_trie. Qed.

(** ** The order of [sort.Strings] *)

Lemma string_le_refl a : string_le a a = true.
Proof.
  induction a as [|x a IH]; cbn [string_le]; [done|].
  rewrite Z.eqb_refl, IH. by rewrite orb_true_r.
Qed.

Lemma string_le_antisym a : forall b,
  string_le a b = true -> string_le b a = true -> a = b.
Proof.
  induction a as [|x a IH]; intros [|y b]; cbn [string_le]; try done.
  intros H1 H2.
  destruct (Z.ltb_spec x y), (Z.ltb_spec y x), (Z.eqb_spec x y), (Z.eqb_spec y x);
    cbn in H1, H2; try done; try lia.
  subst. f_equal. by apply IH.
Qed.

Lemma string_le_trans a : forall b c,
  string_le a b = true -> string_le b c = true -> string_le a c = true.
Proof.
  induction a as [|x a IH]; intros [|y b] [|z c]; cbn [string_le]; try done.
  intros H1 H2.
  destruct (Z.ltb_spec x y), (Z.eqb_spec x y); cbn in H1; try done; try lia;
    destruct (Z.ltb_spec y z), (Z.eqb_spec y z); cbn in H2; try done; try lia;
    destruct (Z.ltb_spec x z), (Z.eqb_spec x z); cbn; try done; try lia.
  by eapply IH.
Qed.

Lemma string_le_total a : forall b, string_le a b = false -> string_le b a = true.
Proof.
  induction a as [|x a IH]; intros [|y b]; cbn [string_le]; try done.
  intros H1.
  destruct (Z.ltb_spec x y), (Z.eqb_spec x y); cbn in H1; try done;
    destruct (Z.ltb_spec y x), (Z.eqb_spec y x); cbn; try done; try lia.
  by apply IH.
Qed.

(** A word comes after each of its prefixes. *)
Lemma string_le_prefix a b : a `prefix_of` b -> string_le a b = true.
Proof.
  intros [k ->]. induction a as [|x a IH]; cbn [string_le app]; [done|].
  rewrite Z.eqb_refl, IH. by rewrite orb_true_r.
Qed.

Lemma sort_insert_sorted w ws : sorted_words ws -> sorted_words (sort_insert w ws).
Proof.
  unfold sorted_words. induction 1 as [|v ws Hs IH Hv]; cbn [sort_insert].
  - repeat constructor.
  - destruct (string_le w v) eqn:Hle.
    + constructor; [by constructor|]. constructor; [done|].
      eapply Forall_impl; [done|]. intros x Hx. by eapply string_le_trans.
    + constructor; [done|]. apply Forall_forall. intros x [->|Hx]%elem_of_sort_insert.
      * by apply string_le_total.
      * rewrite Forall_forall in Hv. by apply Hv.
Qed.

Lemma sort_Strings_sorted ws : sorted_words (sort_Strings ws).
Proof.
  unfold sort_Strings. induction ws as [|w ws IH]; cbn [foldr]; [constructor|].
  by apply sort_insert_sorted.
Qed.

Lemma sort_insert_perm w ws : sort_insert w ws ≡ₚ w :: ws.
Proof.
  induction ws as [|v ws IH]; cbn [sort_insert]; [done|].
  destruct (string_le w v); [done|]. rewrite IH. apply Permutation_swap.
Qed.

Lemma sort_Strings_perm ws : sort_Strings ws ≡ₚ ws.
Proof.
  unfold sort_Strings. induction ws as [|w ws IH]; cbn [foldr]; [done|].
  by rewrite sort_insert_perm, IH.
Qed.

Lemma sorted_words_lookup ws : forall i j a b,
  sorted_words ws -> ws !! i = Some a -> ws !! j = Some b -> (i < j)%nat ->
  string_le a b = true.
Proof.
  unfold sorted_words. intros i j a b Hs. revert i j.
  induction Hs as [|v ws Hs IH Hv]; intros i j Hi Hj Hlt; [done|].
  destruct j as [|j]; [lia|]. cbn in Hj. destruct i as [|i].
  - cbn in Hi. simplify_eq. rewrite Forall_forall in Hv.
    apply Hv. by eapply list_elem_of_lookup_2.
  - cbn in Hi. apply (IH i j); [done..|lia].
Qed.

(** A sorted list that is already in order is left as it is. *)
Lemma sort_Strings_id ws : sorted_words ws -> sort_Strings ws = ws.
Proof.
  unfold sorted_words, sort_Strings.
  induction 1 as [|v ws Hs IH Hv]; cbn [foldr]; [done|].
  rewrite IH. destruct Hv as [|x ws' Hx Hws']; cbn [sort_insert]; [done|].
  by rewrite Hx.
Qed.

(** In a sorted list the first word that starts with a word of the list
    is that word. *)
Lemma firstWith_sorted ws w :
  sorted_words ws -> w ∈ ws -> exists n, firstWith ws w = Some (n, true).
Proof.
  intros Hs (i' & Hi')%list_elem_of_lookup_1.
  destruct (firstWith ws w) as [[n f]|] eqn:Hfw.
  - exists n. f_equal. f_equal.
    apply firstWith_Some in Hfw as (i & word & -> & Hword & Hpre & -> & Hfirst).
    apply bool_decide_eq_true_2.
    destruct (decide (i < i')%nat) as [Hlt|Hge].
    + apply string_le_antisym; [by eapply sorted_words_lookup|by apply string_le_prefix].
    + destruct (decide (i = i')) as [->|Hne]; [congruence|].
      exfalso. apply (Hfirst i' w); [lia|done|done].
  - exfalso. rewrite firstWith_None, Forall_forall in Hfw.
    apply (Hfw w); [by eapply list_elem_of_lookup_2|done].
Qed.

Lemma trie_accepts_exactly_the_words_aux ws w :
  accepts (MakePrefixTree ws) w <-> w ∈ ws /\ w <> [].
Proof.
  unfold accepts, MakePrefixTree. split.
  - intros [n Hw]. assert (w <> []) as Hne by (intros ->; done).
    split; [|done]. rewrite insert_words_empty_walk in Hw by done.
    apply firstWith_Some in Hw as (i & word & _ & Hword & _ & Hf & _).
    symmetry in Hf. apply bool_decide_eq_true in Hf. subst word.
    apply elem_of_sort_Strings. by eapply list_elem_of_lookup_2.
  - intros [Hin Hne]. apply elem_of_sort_Strings in Hin.
    destruct (firstWith_sorted _ _ (sort_Strings_sorted ws) Hin) as [n Hn].
    exists n. by rewrite insert_words_empty_walk.
Qed.

Lemma MakePrefixTree_walks ws w :
  is_Some (walk (MakePrefixTree ws) w) <->
  w = [] \/ exists word, word ∈ ws /\ w `prefix_of` word.
Proof.
  unfold MakePrefixTree. destruct (decide (w = [])) as [->|Hne].
  { split; [by left|]. by eexists. }
  rewrite insert_words_empty_walk by done. split.
  - intros [[n f] Hw]. right.
    apply firstWith_Some in Hw as (i & word & _ & Hword & Hpre & _).
    exists word. split; [|done].
    apply elem_of_sort_Strings. by eapply list_elem_of_lookup_2.
  - intros [?|(word & Hin & Hpre)]; [done|].
    destruct (firstWith (sort_Strings ws) w) as [r|] eqn:Hfw; [done|]. exfalso.
    rewrite firstWith_None, Forall_forall in Hfw.
    apply (Hfw word); [by apply elem_of_sort_Strings|done].
Qed.

(** ** Word lists as Go strings *)

Lemma runes_cons b0 s1 :
  runes (b0 :: s1) =
  if b0 <? 128 then b0 :: runes s1
  else
    match s1 with
    | b1 :: s2 =>
        if (194 <=? b0) && (b0 <=? 223) && isCont b1
        then ((b0 - 192) * 64 + (b1 - 128)) :: runes s2
        else
          match s2 with
          | b2 :: s3 =>
              if second3 b0 b1 && isCont b2
              then ((b0 - 224) * 4096 + (b1 - 128) * 64 + (b2 - 128)) :: runes s3
              else
                match s3 with
                | b3 :: s4 =>
                    if second4 b0 b1 && isCont b2 && isCont b3
                    then ((b0 - 240) * 262144 + (b1 - 128) * 4096
                          + (b2 - 128) * 64 + (b3 - 128)) :: runes s4
                    else RuneError :: runes s1
                | [] => RuneError :: runes s1
                end
          | [] => RuneError :: runes s1
          end
    | [] => RuneError :: runes s1
    end.
Proof. reflexivity. Qed.

Ltac dlia := Z.div_mod_to_equations; lia.

(** Settles the comparisons of the goal that the hypotheses decide. *)
Ltac settle :=
  repeat match goal with
  | |- context [?a <? ?b] =>
      first [ rewrite (proj2 (Z.ltb_lt a b)) by dlia
            | rewrite (proj2 (Z.ltb_ge a b)) by dlia ]
  | |- context [?a <=? ?b] =>
      first [ rewrite (proj2 (Z.leb_le a b)) by dlia
            | rewrite (proj2 (Z.leb_gt a b)) by dlia ]
  | |- context [?a =? ?b] =>
      first [ rewrite (proj2 (Z.eqb_eq a b)) by dlia
            | rewrite (proj2 (Z.eqb_neq a b)) by dlia ]
  end; cbn [andb orb negb].

Ltac split_eqb :=
  repeat match goal with
  | |- context [?a =? ?b] => destruct (Z.eqb_spec a b); settle
  end.

Lemma scalarValue_range r :
  scalarValue r = true <-> 0 <= r < 55296 \/ 57344 <= r <= 1114111.
Proof. unfold scalarValue. rewrite orb_true_iff, !andb_true_iff. lia. Qed.

(** Decoding undoes the encoding of a scalar value. *)
Lemma runes_utf8 r s : scalarValue r = true -> runes (utf8 r ++ s) = r :: runes s.
Proof.
  intros Hr. unfold utf8. rewrite Hr. cbn [negb].
  apply scalarValue_range in Hr.
  destruct (Z.ltb_spec r 128).
  { cbn [app]. rewrite runes_cons. by settle. }
  destruct (Z.ltb_spec r 2048).
  { cbn [app]. rewrite runes_cons. unfold isCont. settle. f_equal. dlia. }
  destruct (Z.ltb_spec r 65536).
  { cbn [app]. rewrite runes_cons. unfold second3, isCont. settle. split_eqb.
    all: f_equal; dlia. }
  cbn [app]. rewrite runes_cons. unfold second3, second4, isCont. settle. split_eqb.
  all: f_equal; dlia.
Qed.

Lemma runes_utf8_string w : scalarValues w -> runes (utf8_string w) = w.
Proof.
  induction 1 as [|r w Hr _ IH]; [done|].
  unfold utf8_string in *. cbn [fmap list_fmap concat].
  by rewrite runes_utf8, IH.
Qed.

Lemma string_le_app u a b : string_le (u ++ a) (u ++ b) = string_le a b.
Proof.
  induction u as [|x u IH]; [done|]. cbn [app string_le].
  by rewrite Z.ltb_irrefl, Z.eqb_refl, IH.
Qed.

Lemma utf8_cons r : exists b0 rest, utf8 r = b0 :: rest.
Proof. unfold utf8. repeat case_match; eauto. Qed.

Ltac compare_bytes :=
  repeat match goal with
  | |- ((?a <? ?b) || _) = _ => destruct (Z.ltb_spec a b); cbn [orb]
  | |- ((?a =? ?b) && _) = _ => destruct (Z.eqb_spec a b); cbn [andb]
  end;
  first [done | exfalso; dlia].

(** The encodings of two scalar values differ at a byte, and compare
    there as the scalar values do. *)
Lemma utf8_lt r1 r2 a b :
  scalarValue r1 = true -> scalarValue r2 = true -> r1 < r2 ->
  string_le (utf8 r1 ++ a) (utf8 r2 ++ b) = true /\
  string_le (utf8 r2 ++ b) (utf8 r1 ++ a) = false.
Proof.
  intros H1 H2 Hlt. unfold utf8. rewrite H1, H2. cbn [negb].
  apply scalarValue_range in H1, H2.
  destruct (Z.ltb_spec r1 128), (Z.ltb_spec r2 128); try lia;
    destruct (Z.ltb_spec r1 2048), (Z.ltb_spec r2 2048); try lia;
    destruct (Z.ltb_spec r1 65536), (Z.ltb_spec r2 65536); try lia;
    cbn [app string_le]; split; compare_bytes.
Qed.

(** On well-formed UTF-8 the order of the bytes is the order of the
    codepoints. *)
Lemma string_le_utf8 a : forall b,
  scalarValues a -> scalarValues b ->
  string_le (utf8_string a) (utf8_string b) = string_le a b.
Proof.
  unfold utf8_string.
  induction a as [|x a IH]; intros b Ha Hb; [done|].
  apply Forall_cons in Ha as [Hx Ha].
  destruct b as [|y b].
  { cbn. destruct (utf8_cons x) as (b0 & rest & ->). done. }
  apply Forall_cons in Hb as [Hy Hb].
  cbn [fmap list_fmap concat string_le].
  destruct (Z.lt_trichotomy x y) as [Hlt|[->|Hgt]].
  - rewrite (proj1 (utf8_lt x y _ _ Hx Hy Hlt)).
    by rewrite (proj2 (Z.ltb_lt x y)) by done.
  - rewrite string_le_app, Z.ltb_irrefl, Z.eqb_refl. cbn. by apply IH.
  - rewrite (proj2 (utf8_lt y x _ _ Hy Hx Hgt)).
    rewrite (proj2 (Z.ltb_ge x y)) by lia.
    by rewrite (proj2 (Z.eqb_neq x y)) by lia.
Qed.

Lemma sort_insert_fmap (f : list Z -> list Z) w ws :
  (forall v, v ∈ ws -> string_le (f w) (f v) = string_le w v) ->
  sort_insert (f w) (f <$> ws) = f <$> sort_insert w ws.
Proof.
  induction ws as [|v ws IH]; intros Hf; cbn [fmap list_fmap sort_insert]; [done|].
  rewrite Hf by (apply elem_of_cons; by left).
  destruct (string_le w v); [done|]. cbn [fmap list_fmap]. f_equal.
  apply IH. intros v' Hv'. apply Hf, elem_of_cons. by right.
Qed.

Lemma sort_Strings_fmap (f : list Z -> list Z) ws :
  (forall a b, a ∈ ws -> b ∈ ws -> string_le (f a) (f b) = string_le a b) ->
  sort_Strings (f <$> ws) = f <$> sort_Strings ws.
Proof.
  unfold sort_Strings.
  induction ws as [|w ws IH]; intros Hf; cbn [fmap list_fmap foldr]; [done|].
  rewrite IH.
  - apply sort_insert_fmap. intros v Hv. apply Hf; [apply elem_of_cons; by left|].
    apply elem_of_cons. right. by apply (elem_of_sort_Strings v ws).
  - intros a b Ha Hb. apply Hf; apply elem_of_cons; by right.
Qed.

(** Sorting well-formed strings by their bytes and decoding them gives
    the codepoint sequences sorted by codepoints. *)
Lemma sort_Strings_utf8 ws :
  Forall scalarValues ws ->
  runes <$> sort_Strings (utf8_string <$> ws) = sort_Strings ws.
Proof.
  intros Hws. rewrite sort_Strings_fmap.
  - assert (Forall scalarValues (sort_Strings ws)) as Hsorted.
    { rewrite Forall_forall in Hws |- *. intros w Hw.
      by apply Hws, elem_of_sort_Strings. }
    induction Hsorted as [|w l Hw _ IH]; [done|].
    cbn [fmap list_fmap]. by rewrite runes_utf8_string, IH.
  - rewrite Forall_forall in Hws.
    intros a b Ha Hb. apply string_le_utf8; by apply Hws.
Qed.

Lemma MakePrefixTree_utf8 ws :
  Forall scalarValues ws ->
  Bytes.MakePrefixTree (utf8_string <$> ws) = MakePrefixTree ws.
Proof.
  intros Hws. unfold Bytes.MakePrefixTree, MakePrefixTree.
  by rewrite sort_Strings_utf8.
Qed.

Lemma utf8_string_length w : length (utf8_string w) <> 0%nat <-> length w <> 0%nat.
Proof.
  destruct w as [|r w]; [done|]. unfold utf8_string. cbn [fmap list_fmap concat].
  destruct (utf8_cons r) as (b0 & rest & ->). done.
Qed.

Lemma wordLines_utf8 ws :
  wordLines (utf8_string <$> ws) = utf8_string <$> wordLines ws.
Proof.
  unfold wordLines. induction ws as [|w ws IH]; [done|].
  cbn [fmap list_fmap]. rewrite !filter_cons, IH.
  pose proof (utf8_string_length w) as Hw.
  destruct (decide (length (utf8_string w) <> 0%nat)),
    (decide (length w <> 0%nat)); try tauto; done.
Qed.

Lemma wordLines_scalarValues ws :
  Forall scalarValues ws -> Forall scalarValues (wordLines ws).
Proof.
  unfold wordLines. rewrite !Forall_forall. intros H w Hw.
  apply list_elem_of_filter in Hw as [_ Hw]. by apply H.
Qed.

Lemma LoadDict_utf8 ws :
  Forall scalarValues ws ->
  Bytes.LoadDict (utf8_string <$> ws) = LoadDict ws.
Proof.
  intros Hws. unfold Bytes.LoadDict, LoadDict.
  rewrite wordLines_utf8. by apply MakePrefixTree_utf8, wordLines_scalarValues.
Qed.

(** ** The prefix tree, read back by walking it *)

(** X1 ([MakePrefixTree] of main.go): whatever the order of the word
    list, the walk along a non-empty sequence of codepoints succeeds
    exactly when some word starts with it; it then ends in the node
    numbered by the first such word of the list, and its last transition
    is final exactly when that first word is the sequence itself. *)
Theorem main_trie_walk_first_word (ws : list (list rune)) (ch : rune) (w : list rune) :
  walk (Main.MakePrefixTree ws) (ch :: w) = firstWith ws (ch :: w).
Proof. by apply insert_words_empty_trie. Qed.

(** X2 ([MakePrefixTree] of prefixtree.go): for a word list of well-formed
    UTF-8 strings, the strings [utf8_string w] of the sequences [w] of
    scalar values, the trie accepts exactly the codepoint sequences of
    the non-empty words of the list. *)
Theorem trie_accepts_exactly_the_words (ws : list (list rune)) (w : list rune) :
  Forall scalarValues ws ->
  (accepts (Bytes.MakePrefixTree (utf8_string <$> ws)) w <-> w ∈ ws /\ w <> []).
Proof.
  intros Hws. rewrite MakePrefixTree_utf8 by done.
  apply trie_accepts_exactly_the_words_aux.
Qed.

Lemma trie_accepts_exactly_the_words_witness :
  utf8_string <$> [[3585; 3634]; []; [233; 65; 128512]]
    = [[224; 184; 129; 224; 184; 178]; []; [195; 169; 65; 240; 159; 152; 128]] /\
  (accepts (Bytes.MakePrefixTree
              (utf8_string <$> [[3585; 3634]; []; [233; 65; 128512]]))
           [233; 65; 128512]
   <-> [233; 65; 128512] ∈ [[3585; 3634]; []; [233; 65; 128512]]
       /\ [233; 65; 128512] <> []).
Proof.
  split; [vm_compute; reflexivity|].
  apply (trie_accepts_exactly_the_words
           [[3585; 3634]; []; [233; 65; 128512]] [233; 65; 128512]).
  repeat constructor.
Defined.

(** X3 ([MakePrefixTree] of prefixtree.go): the sequences of codepoints
    that can be walked from the root are the prefixes of the words. *)
Theorem trie_walks_are_the_prefixes (ws : list (list rune)) (w : list rune) :
  is_Some (walk (MakePrefixTree ws) w) <->
  w = [] \/ exists word, word ∈ ws /\ w `prefix_of` word.
Proof. apply MakePrefixTree_walks. Qed.

(** X4 ([MakePrefixTree], sorted or not): a node number and a depth
    address one prefix: two walks of the same length that end in the same
    node spell the same codepoints. *)
Theorem trie_node_and_depth_address_one_prefix
    (ws : list (list rune)) (w1 w2 : list rune) (n : Z) (f1 f2 : bool) :
  walk (Main.MakePrefixTree ws) w1 = Some (n, f1) ->
  walk (Main.MakePrefixTree ws) w2 = Some (n, f2) ->
  length w1 = length w2 -> w1 = w2.
Proof.
  apply (trie_at_walk_inj ws [] 0). intros w Hne.
  unfold Main.MakePrefixTree.
  rewrite (insert_words_empty_walk ws w Hne). destruct (firstWith ws w); [done|].
  rewrite bool_decide_eq_false_2; [done|]. by intros ->%prefix_nil_inv.
Qed.

Lemma trie_node_and_depth_address_one_prefix_witness :
  walk (Main.MakePrefixTree [[3585; 3634]; [3585; 3637]]) [3585] = Some (0, false) /\
  [3585] = [3585].
Proof.
  split; [reflexivity|].
  apply (trie_node_and_depth_address_one_prefix
           [[3585; 3634]; [3585; 3637]] [3585] [3585] 0 false false); reflexivity.
Defined.

(** X5 ([MakePrefixTree] of main.go): the word list must come sorted.  A
    word whose first occurrence comes after a longer word that starts
    with it, with no word starting with it before, is not accepted. *)
Theorem unsorted_word_list_loses_a_word
    (ws1 ws2 : list (list rune)) (word w : list rune) :
  Forall (fun x => ~ w `prefix_of` x) ws1 ->
  w `prefix_of` word -> w <> word ->
  ~ accepts (Main.MakePrefixTree (ws1 ++ word :: ws2 ++ [w])) w.
Proof.
  intros Hws1 Hpre Hne [n Hw]. destruct w as [|c w]; [done|].
  unfold Main.MakePrefixTree in Hw. rewrite insert_words_empty_walk in Hw by done.
  apply firstWith_Some in Hw as (i & word' & _ & Hword' & Hpre' & Hf & Hfirst).
  symmetry in Hf. apply bool_decide_eq_true in Hf. subst word'.
  destruct (decide (i < length ws1)%nat) as [Hlt|Hge].
  - rewrite lookup_app_l in Hword' by done.
    rewrite Forall_forall in Hws1. apply (Hws1 (c :: w)); [|done].
    by eapply list_elem_of_lookup_2.
  - destruct (decide (i = length ws1)) as [->|Hi].
    + rewrite list_lookup_middle in Hword' by done. congruence.
    + apply (Hfirst (length ws1) word); [lia| |done].
      by rewrite list_lookup_middle.
Qed.

Lemma unsorted_word_list_loses_a_word_witness :
  ~ accepts (Main.MakePrefixTree ([] ++ [3585; 3634] :: [] ++ [[3585]])) [3585].
Proof.
  apply (unsorted_word_list_loses_a_word [] [] [3585; 3634] [3585]).
  - constructor.
  - exists [3634]. reflexivity.
  - discriminate.
Defined.

(** X6 ([LoadDict] of dict.go and of main.go): sorting in [LoadDict]
    and then building, or building with the [MakePrefixTree] that sorts,
    gives the same table, whatever the bytes of the word file are.  When
    the lines of the word file are well-formed UTF-8, this table accepts
    exactly the codepoint sequences of the lines that are not empty. *)
Theorem LoadDict_accepts_the_lines
    (lines : list (list Z)) (ws : list (list rune)) (w : list rune) :
  Bytes.Main.LoadDict lines = Bytes.LoadDict lines /\
  (Forall scalarValues ws ->
   (accepts (Bytes.LoadDict (utf8_string <$> ws)) w <-> w ∈ ws /\ w <> [])).
Proof.
  split; [done|]. intros Hws. rewrite LoadDict_utf8 by done.
  unfold LoadDict. rewrite trie_accepts_exactly_the_words_aux.
  unfold wordLines. rewrite list_elem_of_filter. split.
  - intros [[_ Hin] Hne]. done.
  - intros [Hin Hne]. repeat split; try done. by destruct w.
Qed.

Lemma LoadDict_accepts_the_lines_witness :
  Bytes.Main.LoadDict [[255]; []; [224; 184; 129]]
    = Bytes.LoadDict [[255]; []; [224; 184; 129]] /\
  (Forall scalarValues [[3585; 3634]; []; [3585]] ->
   (accepts (Bytes.LoadDict (utf8_string <$> [[3585; 3634]; []; [3585]])) [3585]
    <-> [3585] ∈ [[3585; 3634]; []; [3585]] /\ [3585] <> [])).
Proof.
  apply (LoadDict_accepts_the_lines
           [[255]; []; [224; 184; 129]] [[3585; 3634]; []; [3585]] [3585]).
Defined.

(** X7 ([MakePrefixTree] of prefixtree.go): the table does not depend on
    the order in which the words are given. *)
Theorem MakePrefixTree_order_irrelevant (ws1 ws2 : list (list rune)) :
  ws1 ≡ₚ ws2 -> MakePrefixTree ws1 = MakePrefixTree ws2.
Proof.
  intros Hperm. unfold MakePrefixTree. f_equal.
  apply (StronglySorted_unique_strong (fun a b => string_le a b = true)).
  - intros a b _ _. apply string_le_antisym.
  - apply sort_Strings_sorted.
  - apply sort_Strings_sorted.
  - by rewrite !sort_Strings_perm.
Qed.

Lemma MakePrefixTree_order_irrelevant_witness :
  MakePrefixTree [[3586]; [3585; 3634]; [3585]]
  = MakePrefixTree [[3585]; [3586]; [3585; 3634]].
Proof.
  apply (MakePrefixTree_order_irrelevant [[3586]; [3585; 3634]; [3585]]
                                         [[3585]; [3586]; [3585; 3634]]).
  etrans; [apply perm_skip, perm_swap|]. apply perm_swap.
Defined.

(** X8 ([MakePrefixTree] of main.go against that of prefixtree.go): on a
    word list that is already sorted the two build the same table. *)
Theorem MakePrefixTree_of_sorted_list (ws : list (list rune)) :
  sorted_words ws -> Main.MakePrefixTree ws = MakePrefixTree ws.
Proof.
  intros Hs. unfold Main.MakePrefixTree, MakePrefixTree. by rewrite sort_Strings_id.
Qed.

Lemma MakePrefixTree_of_sorted_list_witness :
  Main.MakePrefixTree [[3585]; [3585; 3634]; [3586]]
  = MakePrefixTree [[3585]; [3585; 3634]; [3586]].
Proof.
  apply (MakePrefixTree_of_sorted_list [[3585]; [3585; 3634]; [3586]]).
  repeat constructor.
Defined.

(** X19 ([MakePrefixTree] of prefixtree.go): on word lists of well-formed
    UTF-8 strings the table is the one computed from the codepoint
    sequences of the words, sorted by codepoints; and so is the table of
    [LoadDict] on the lines of a well-formed word file. *)
Theorem well_formed_words_by_their_codepoints (ws : list (list rune)) :
  Forall scalarValues ws ->
  runes <$> (utf8_string <$> ws) = ws /\
  runes <$> sort_Strings (utf8_string <$> ws) = sort_Strings ws /\
  Bytes.MakePrefixTree (utf8_string <$> ws) = MakePrefixTree ws /\
  Bytes.LoadDict (utf8_string <$> ws) = LoadDict ws.
Proof.
  intros Hws. split; [|split; [|split]].
  - induction Hws as [|w ws Hw _ IH]; [done|].
    cbn [fmap list_fmap]. by rewrite runes_utf8_string, IH.
  - by apply sort_Strings_utf8.
  - by apply MakePrefixTree_utf8.
  - by apply LoadDict_utf8.
Qed.

Lemma well_formed_words_by_their_codepoints_witness :
  Forall scalarValues [[3586; 128512]; [233]; [3585; 65]] /\
  sort_Strings (utf8_string <$> [[3586; 128512]; [233]; [3585; 65]])
    = [[195; 169]; [224; 184; 129; 65]; [224; 184; 130; 240; 159; 152; 128]] /\
  runes <$> (utf8_string <$> [[3586; 128512]; [233]; [3585; 65]])
    = [[3586; 128512]; [233]; [3585; 65]] /\
  runes <$> sort_Strings (utf8_string <$> [[3586; 128512]; [233]; [3585; 65]])
    = sort_Strings [[3586; 128512]; [233]; [3585; 65]] /\
  Bytes.MakePrefixTree (utf8_string <$> [[3586; 128512]; [233]; [3585; 65]])
    = MakePrefixTree [[3586; 128512]; [233]; [3585; 65]] /\
  Bytes.LoadDict (utf8_string <$> [[3586; 128512]; [233]; [3585; 65]])
    = LoadDict [[3586; 128512]; [233]; [3585; 65]].
Proof.
  split; [repeat constructor|]. split; [vm_compute; reflexivity|].
  apply (well_formed_words_by_their_codepoints [[3586; 128512]; [233]; [3585; 65]]).
  repeat constructor.
Defined.

(** X20 ([MakePrefixTree] of prefixtree.go): on every word list,
    well-formed UTF-8 or not, the walk along a non-empty sequence of
    codepoints succeeds exactly when the decoding of some word starts
    with it; it then ends in the node numbered by the first such word in
    the bytewise order of [sort.Strings], and its last transition is
    final exactly when the decoding of that first word is the sequence
    itself. *)
Theorem walk_first_word_in_byte_order (ss : list (list Z)) (ch : rune) (w : list rune) :
  walk (Bytes.MakePrefixTree ss) (ch :: w)
  = firstWith (runes <$> sort_Strings ss) (ch :: w).
Proof. unfold Bytes.MakePrefixTree. by apply insert_words_empty_walk. Qed.

(** X21 ([MakePrefixTree] of prefixtree.go): a word list with an
    ill-formed word can lose a listed word.  Of the two words, the byte
    FF alone and U+FFFD followed by "x", the second, whose bytes are
    EF BF BD 78, sorts first; both
    decode to a sequence that starts with U+FFFD, so the second word
    creates the transition on U+FFFD, not final, and the first word,
    which is U+FFFD alone once decoded, finds it there and leaves it as
    it is.  The trie does not accept U+FFFD, the codepoint sequence of a
    listed word, which the trie of the codepoint sequences sorted by
    codepoints accepts. *)
Theorem ill_formed_word_is_not_accepted :
  sort_Strings [[255]; [239; 191; 189; 120]] = [[239; 191; 189; 120]; [255]] /\
  runes [255] = [65533] /\
  runes [239; 191; 189; 120] = [65533; 120] /\
  walk (Bytes.MakePrefixTree [[255]; [239; 191; 189; 120]]) [65533]
    = Some (0, false) /\
  ~ accepts (Bytes.MakePrefixTree [[255]; [239; 191; 189; 120]]) (runes [255]) /\
  accepts (Bytes.MakePrefixTree [[255]; [239; 191; 189; 120]]) [65533; 120] /\
  accepts (MakePrefixTree [runes [255]; runes [239; 191; 189; 120]]) (runes [255]).
Proof.
  split; [vm_compute; reflexivity|]. split; [reflexivity|]. split; [reflexivity|].
  split; [vm_compute; reflexivity|].
  split; [|split].
  - intros [n Hn]. vm_compute in Hn. discriminate.
  - exists 0. vm_compute. reflexivity.
  - exists 0. vm_compute. reflexivity.
Qed.

(** ** The entry that a round on a text codepoint writes *)

Lemma scanFrom_inv_upto N line : forall i sm,
  0 <= i -> i + Z.of_nat (length line) <= N -> scan_inv N i i sm ->
  exists sm', scanFrom sm i line = Some sm' /\
    scan_inv N (i + Z.of_nat (length line)) (i + Z.of_nat (length line)) sm'.
Proof.
  induction line as [|ch line IH]; intros i sm Hi HN Hinv; cbn [scanFrom].
  - exists sm. split; [done|]. cbn [length]. by rewrite Z.add_0_r.
  - cbn [length] in *.
    destruct (scanRune_inv N i sm ch) as (sm1 & -> & Hinv1 & _); [lia|done|].
    simpl_opt. destruct (IH (i + 1) sm1) as (sm' & -> & Hinv'); [lia|lia|done|].
    exists sm'. split; [done|].
    by replace (i + Z.of_nat (S (length line))) with (i + 1 + Z.of_nat (length line)) by lia.
Qed.

Lemma roundState_inv T L i :
  (i <= length L)%nat ->
  exists sm, roundState T L i = Some sm /\
    scan_inv (Z.of_nat (length L)) (Z.of_nat i) (Z.of_nat i) sm.
Proof.
  intros Hi. unfold roundState.
  destruct (resetScratch_inv (Segmenter.new T) L eq_refl) as (sm0 & -> & Hinv0 & _).
  simpl_opt.
  destruct (scanFrom_inv_upto (Z.of_nat (length L)) (take i L) 0 sm0) as (sm & -> & Hinv);
    [lia|rewrite length_take; lia|done|].
  exists sm. split; [done|]. rewrite length_take, Nat.min_l in Hinv by done.
  by rewrite Z.add_0_l in Hinv.
Qed.

Lemma beforeChoice_left sm i ch sm3 :
  beforeChoice sm i ch = Some sm3 ->
  Segmenter.leftBoundary sm3 = Segmenter.leftBoundary sm \/
  Segmenter.leftBoundary sm3 = i.
Proof.
  unfold beforeChoice, resetBest. intros H.
  apply bind_Some in H as (sm1 & H1 & H). apply bind_Some in H as (sm2 & H2 & H).
  rewrite advancePointers_eq in H. simplify_eq.
  apply flushSpace_effect in H1 as (p1 & -> & Hp1).
  apply flushLatin_effect in H2 as (p2 & -> & Hp2).
  destruct sm as [d p lb sL fL sS fS be fbe ptrs len]. cbn in *.
  destruct fS, fL; cbn in *; auto.
Qed.

Lemma pickBest_Some b cands : pickBest (Some b) cands <> None.
Proof.
  revert b. induction cands as [|x l IHl]; intros b; cbn; [done|].
  destruct (supersedes x b); apply IHl.
Qed.

Lemma pickBest_None_nil cands : pickBest None cands = None -> cands = [].
Proof.
  destruct cands as [|c cands]; [done|]. cbn. intros H. by apply pickBest_Some in H.
Qed.

(** The edge picked supersedes every candidate, and is one of them. *)
Lemma pickBest_least cands b :
  pickBest None cands = Some b ->
  b ∈ cands /\ forall c, c ∈ cands -> supersedes b c = true.
Proof.
  destruct cands as [|c0 cands]; [done|].
  intros (l1 & l2 & Heq & H1 & H2)%pickBest_None_last. rewrite Heq. split.
  - apply elem_of_app. right. by left.
  - intros c [Hc|[->|Hc]%elem_of_cons]%elem_of_app.
    + by apply H1.
    + apply supersedes_refl.
    + apply supersedes_total. by apply H2.
Qed.

(** A round on a text codepoint writes, at [i + 1], the edge picked among
    the candidates or, when there is none, the unknown edge from the
    left boundary. *)
Lemma scanRune_text_entry sm i ch sm' :
  IsText ch = true -> scanRune sm i ch = Some sm' ->
  exists sm3 best,
    beforeChoice sm i ch = Some sm3 /\
    0 <= i + 1 < slice_len (Segmenter.path sm3) /\
    Segmenter.path sm' =
      SData (<[Z.to_nat (i + 1) := best]> (elems (Segmenter.path sm3))) /\
    match pickBest None (dictCandidates sm3 i) with
    | Some b => best = b
    | None => unknownOver (elems (Segmenter.path sm3)) (Segmenter.leftBoundary sm3)
              = Some best
    end.
Proof.
  intros Ht H. rewrite scanRune_text in H by done.
  apply bind_Some in H as (sm3 & H3 & H). apply bind_Some in H as (sm4 & H4 & H).
  pose proof (beforeChoice_effect _ _ _ _ H3) as (Hd & Hptr & HfS & HfL & Hfb & _).
  apply chooseDictEdge_effect in H4 as [Heq4 Hbest4].
  unfold currentBest in Hbest4. rewrite Hfb in Hbest4.
  exists sm3. rewrite <- Hbest4. clear Hbest4.
  destruct sm3 as [d3 p3 lb3 sL3 fL3 sS3 fS3 be3 fbe3 ptrs3 len3].
  destruct sm4 as [d4 p4 lb4 sL4 fL4 sS4 fS4 be4 fbe4 ptrs4 len4].
  cbn in Heq4. injection Heq4; intros; subst. clear Heq4.
  unfold commitEdge in H. cbn in H.
  destruct fbe4; cbn in H.
  - apply bind_Some in H as (p & Hp & H). apply slice_set_Some in Hp as [Hi ->].
    simplify_eq. exists be4. cbn. done.
  - apply bind_Some in H as (sm5 & H5 & H). apply bind_Some in H5 as (src & Hsrc & H5).
    simplify_eq. cbn in H.
    apply bind_Some in H as (p & Hp & H). apply slice_set_Some in Hp as [Hi ->].
    simplify_eq. eexists. cbn. split; [done|]. split; [done|]. split; [done|].
    unfold unknownOver. destruct p3 as [|l3]; cbn in *.
    + unfold slice_len in Hi. cbn in Hi. lia.
    + by rewrite Hsrc.
Qed.

Lemma slice_get_agree {A} (s1 s2 : slice A) (i k : Z) :
  k <= i -> i < slice_len s1 -> i < slice_len s2 ->
  (forall n, (n <= Z.to_nat i)%nat -> elems s1 !! n = elems s2 !! n) ->
  slice_get s1 k = slice_get s2 k.
Proof.
  intros Hk H1 H2 Heq. unfold slice_get.
  destruct (decide (0 <= k)) as [H0|H0].
  - rewrite !bool_decide_eq_true_2 by lia. apply Heq. lia.
  - rewrite !bool_decide_eq_false_2 by lia. done.
Qed.

(** The entry [E[i + 1]] of the edge array of a line, when the codepoint
    at [i] is a text codepoint, in terms of the entries before it: the
    edge picked among the candidates of the live pointers or, when there
    is none, an unknown edge. *)
Lemma text_round_edges T L i ch E :
  L !! i = Some ch -> IsText ch = true -> edges L T = Some E ->
  exists best, E !! S i = Some best /\
    match pickBest None (omap (candidateOver E (Z.of_nat i))
                              (livePointers T (take (S i) L))) with
    | Some b => best = b
    | None => exists lb, 0 <= lb <= Z.of_nat i /\ unknownOver E lb = Some best
    end.
Proof.
  intros Hch Ht HE.
  destruct (BuildPath_inv (Segmenter.new T) L eq_refl) as (smF & HB & HinvF & _).
  unfold edges in HE. rewrite HB in HE. cbn in HE. simplify_eq.
  pose proof HB as HB'. unfold BuildPath in HB'.
  apply bind_Some in HB' as (sm0 & H0 & Hscan).
  rewrite <- (take_drop_middle L i ch Hch) in Hscan at 1.
  rewrite scanFrom_app in Hscan. apply bind_Some in Hscan as (sm & Hsm & Hscan).
  cbn [scanFrom] in Hscan. apply bind_Some in Hscan as (sm' & Hround & Hrest).
  pose proof (lookup_lt_Some _ _ _ Hch) as Hi.
  rewrite length_take, Nat.min_l in Hround, Hrest by lia. rewrite Z.add_0_l in Hround, Hrest.
  assert (roundState T L i = Some sm) as Hrs.
  { unfold roundState. rewrite H0. done. }
  destruct (roundState_inv T L i) as (sm_ & Hrs_ & Hinv); [lia|].
  rewrite Hrs in Hrs_. simplify_eq.
  pose proof (roundState_pointers _ _ _ _ Hrs) as [Hd Hptrs].
  destruct (scanRune_text_entry _ _ _ _ Ht Hround) as (sm3 & best & H3 & Hlen & Hpath & Hpick).
  pose proof (beforeChoice_effect _ _ _ _ H3) as (Hd3 & Hp3 & _).
  pose proof (beforeChoice_left _ _ _ _ H3) as Hlb3.
  pose proof (inv_left _ _ _ _ Hinv) as Hlb.
  destruct (inv_path _ _ _ _ HinvF) as (pF & HpF & HlenF & _).
  assert (forall n, (n <= i)%nat ->
            elems (Segmenter.path sm3) !! n = elems (Segmenter.path smF) !! n) as Hkept.
  { intros n Hn.
    rewrite (scanFrom_path_kept _ sm' (Z.of_nat i + 1) smF n ltac:(lia) Hrest);
      [|left; lia].
    rewrite Hpath. cbn [elems]. by rewrite list_lookup_insert_ne by lia. }
  assert (forall k, k <= Z.of_nat i ->
            slice_get (Segmenter.path sm3) k = slice_get (SData (elems (Segmenter.path smF))) k)
    as Hget.
  { intros k Hk. apply (slice_get_agree _ _ (Z.of_nat i)); [done|lia| |].
    - rewrite HpF. unfold slice_len. cbn [elems]. lia.
    - intros n Hn. apply Hkept. lia. }
  exists best. split.
  { rewrite (scanFrom_path_kept _ sm' (Z.of_nat i + 1) smF (S i) ltac:(lia) Hrest).
    - rewrite Hpath. cbn [elems]. replace (Z.to_nat (Z.of_nat i + 1)) with (S i) by lia.
      apply list_lookup_insert_eq. unfold slice_len in Hlen. lia.
    - right. split; [lia|].
      destruct (scanRune_text_effect _ _ _ _ Ht Hround) as (? & ? & _ & _ & _ & ? & ? & _).
      done. }
  assert (dictCandidates sm3 (Z.of_nat i)
          = omap (candidateOver (elems (Segmenter.path smF)) (Z.of_nat i))
                 (livePointers T (take (S i) L))) as Hcands.
  { unfold dictCandidates. rewrite Hp3. cbn [elems]. rewrite Hd, Hptrs.
    rewrite (take_S_r L i ch Hch), livePointers_snoc, Ht.
    pose proof (livePointers_deepest_first T (take (S i) L)) as [_ Hdeep].
    rewrite (take_S_r L i ch Hch), livePointers_snoc, Ht in Hdeep.
    apply list_omap_ext, Forall_Forall2_diag, Forall_forall. intros q Hq.
    rewrite Forall_forall in Hdeep. specialize (Hdeep q Hq).
    unfold candidate, candidateOver, edgeFrom.
    destruct (DictBuilderPointer.IsFinal q); [|done]. by rewrite Hget by lia. }
  rewrite <- Hcands. destruct (pickBest None (dictCandidates sm3 (Z.of_nat i))); [done|].
  exists (Segmenter.leftBoundary sm3).
  unfold unknownOver in *. apply bind_Some in Hpick as (src & Hsrc & Hbest).
  pose proof Hsrc as [Hlb0 _]%slice_get_Some.
  assert (Segmenter.leftBoundary sm3 <= Z.of_nat i) as Hle by (destruct Hlb3; lia).
  split; [lia|].
  assert (SData (elems (Segmenter.path sm3)) = Segmenter.path sm3) as Hsd.
  { destruct (Segmenter.path sm3) eqn:Hp; [|done].
    unfold slice_len in Hlen. cbn in Hlen. lia. }
  rewrite Hsd in Hsrc. rewrite <- Hget, Hsrc by done. done.
Qed.

(** ** The tokens are those of the chain of edges *)

Lemma collectTokens_tokens p line a :
  path_ok p a ->
  forall rounds e i toks st i',
    0 <= e <= a ->
    collectTokens rounds (SData p) line (SData toks) e i = Some (st, i') ->
    exists out,
      drop (Z.to_nat (i' + 1)) (elems st) = out ++ drop (Z.to_nat (i + 1)) toks /\
      tokensTo p line e out.
Proof.
  intros [H0 Hp].
  induction rounds as [|rounds IH]; intros e i toks st i' He H;
    cbn [collectTokens] in H; destruct (0 <? e) eqn:Hpos; try done.
  - apply Z.ltb_ge in Hpos. assert (e = 0) as -> by lia. simplify_eq.
    exists []. split; [done|constructor].
  - apply Z.ltb_lt in Hpos.
    apply bind_Some in H as (edge & Hedge & H). apply slice_get_Some in Hedge as [_ Hedge].
    cbn [elems] in Hedge.
    apply bind_Some in H as (tok & Htok & H).
    apply bind_Some in H as (tokens' & Hset & H).
    apply slice_set_Some in Hset as [Hi ->]. unfold slice_len in Hi. cbn [elems] in Hi.
    unfold slice_range in Htok. case_bool_decide as Hr; [|done]. simplify_eq.
    destruct (Hp e edge) as [Hs _]; [lia|done|].
    cbn [elems] in H.
    destruct (IH (Edge.S edge) _ _ _ _ ltac:(lia) H) as (out & Hdrop & Hchain).
    eexists (out ++ [_]). split; [|by econstructor].
    rewrite Hdrop, <- app_assoc. f_equal.
    replace (Z.to_nat (i - 1 + 1)) with (Z.to_nat i) by lia.
    replace (Z.to_nat (i + 1)) with (S (Z.to_nat i)) by lia.
    erewrite drop_S; [|apply list_lookup_insert_eq; lia].
    cbn. f_equal. by rewrite drop_insert_lt by lia.
  - apply Z.ltb_ge in Hpos. assert (e = 0) as -> by lia. simplify_eq.
    exists []. split; [done|constructor].
Qed.

(** The tokens that [segment] returns are read off the edge array by
    following the edges back from the last boundary. *)
Lemma segment_tokensTo L T out E :
  segment L T = Some out -> edges L T = Some E ->
  tokensTo E L (Z.of_nat (length L)) out.
Proof.
  intros Hseg HE.
  destruct (Segment_spec (Segmenter.new T) L eq_refl)
    as (out' & sm' & p & last & HS & HB & Hp & Hlen & Hok & _).
  unfold segment in Hseg. rewrite HS in Hseg. cbn in Hseg. simplify_eq.
  unfold edges in HE. rewrite HB in HE. cbn in HE. rewrite Hp in HE. cbn in HE. simplify_eq.
  unfold Segment in HS. rewrite HB in HS.
  cbn [mbind option_bind] in HS. rewrite Hp in HS.
  apply bind_Some in HS as (tokens & Hmake & HS).
  apply bind_Some in HS as (e0 & _ & HS).
  apply bind_Some in HS as ([st i'] & Hc & HS).
  apply bind_Some in HS as (out' & Hout & HS). simplify_eq.
  unfold slice_make in Hmake. case_bool_decide; [|done]. simplify_eq.
  unfold slice_len in Hc, Hout. cbn [elems] in Hc, Hout.
  replace (Z.of_nat (length E) - 1) with (Z.of_nat (length L)) in Hc by lia.
  destruct (collectTokens_tokens E L (Z.of_nat (length L)) Hok _ (Z.of_nat (length L))
              _ _ _ _ ltac:(lia) Hc)
    as (out2 & Hdrop & Hchain).
  rewrite (drop_ge (replicate _ _)), app_nil_r in Hdrop by (rewrite length_replicate; lia).
  unfold slice_range in Hout. case_bool_decide; [|done]. simplify_eq.
  rewrite take_ge; [done|]. rewrite length_drop. lia.
Qed.

(** ** Lines of text codepoints that the dictionary covers *)

Lemma filter_text_id (l : list rune) :
  Forall (fun ch => IsText ch = true) l -> filter (fun ch => IsText ch = true) l = l.
Proof.
  induction 1 as [|ch l Hch _ IH]; [done|].
  rewrite filter_cons, decide_True by done. by rewrite IH.
Qed.

(** On text codepoints every suffix that the trie can walk has its live
    pointer. *)
Lemma livePointers_complete T seen : forall w n f,
  Forall (fun ch => IsText ch = true) seen ->
  w `suffix_of` seen -> w <> [] -> walk T w = Some (n, f) ->
  DictBuilderPointer.mk n (Z.of_nat (length w)) f ∈ livePointers T seen.
Proof.
  induction seen as [|ch seen IH] using rev_ind; intros w n f Htext Hsuf Hne Hw.
  { by apply suffix_nil_inv in Hsuf. }
  apply Forall_app in Htext as [Htext [Hch _]%Forall_cons].
  destruct w as [|c w _] using rev_ind; [done|].
  apply suffix_snoc_inv_1 in Hsuf as Hc. apply suffix_snoc_inv_2 in Hsuf. subst c.
  rewrite walk_snoc in Hw. apply bind_Some in Hw as ([n' f'] & Hw' & Hw).
  apply bind_Some in Hw as (child & Hchild & Hw). cbn [fst] in Hchild. simplify_eq.
  rewrite livePointers_snoc, Hch. apply list_elem_of_omap.
  exists (DictBuilderPointer.mk n' (Z.of_nat (length w)) f'). split.
  - apply elem_of_app. destruct w as [|c w].
    + right. cbn in Hw'. simplify_eq. by apply list_elem_of_singleton.
    + left. by apply IH.
  - unfold stepPointer. cbn. rewrite Hchild. simpl_opt.
    rewrite length_app. cbn [length]. do 2 f_equal. lia.
Qed.

Lemma suffix_take_drop {A} (w l : list A) :
  w `suffix_of` l -> w = drop (length l - length w) l.
Proof.
  intros [k ->]. rewrite length_app.
  replace (length k + length w - length w)%nat with (length k) by lia.
  by rewrite drop_app_length.
Qed.

(** On a line of text codepoints: whenever the first [b] codepoints are a
    concatenation of accepted words, the entry at [b] counts no unknown
    token and no more words than that concatenation has; and an entry
    that counts no unknown token is the edge of an accepted word, from an
    entry that counts no unknown token either. *)
Lemma text_line_entries T L E :
  Forall (fun ch => IsText ch = true) L -> edges L T = Some E ->
  forall b e, (b <= length L)%nat -> E !! b = Some e ->
    (forall toks, concat toks = take b L -> Forall (accepts T) toks ->
                  Edge.UnkCount e = 0 /\ Edge.WordCount e <= Z.of_nat (length toks)) /\
    ((0 < b)%nat -> Edge.UnkCount e = 0 ->
     exists src, E !! Z.to_nat (Edge.S e) = Some src /\ Edge.UnkCount src = 0 /\
       accepts T (take (Z.to_nat (Z.of_nat b - Edge.S e))
                       (drop (Z.to_nat (Edge.S e)) L))).
Proof.
  intros Htext HE.
  destruct (segment_spec L T) as (out & E' & last & _ & HE' & Hlen & [H0 Hok] & _).
  rewrite HE in HE'. simplify_eq.
  induction b as [b IH] using lt_wf_ind. intros e Hb He.
  destruct b as [|i].
  { rewrite H0 in He. simplify_eq. split; [|lia]. intros toks _ _. cbn. lia. }
  destruct (lookup_lt_is_Some_2 L i) as [ch Hch]; [lia|].
  assert (IsText ch = true) as Ht.
  { rewrite Forall_forall in Htext. apply Htext. by eapply list_elem_of_lookup_2. }
  destruct (text_round_edges T L i ch E' Hch Ht HE) as (best & Hbest & Hpick).
  rewrite He in Hbest. simplify_eq.
  assert (Forall (fun ch => IsText ch = true) (take (S i) L)) as Htext' by (by apply Forall_take).
  split.
  - intros toks Hcat HD.
    destruct toks as [|t toks' _] using rev_ind.
    { apply (f_equal length) in Hcat. rewrite length_take in Hcat.
      change (length (concat [])) with 0%nat in Hcat. lia. }
    apply Forall_app in HD as [HD' [[n Ht'] _]%Forall_cons].
    rewrite concat_app in Hcat. cbn in Hcat. rewrite app_nil_r in Hcat.
    assert (t <> []) as Hne by (by intros ->).
    assert (length (concat toks') + length t = S i)%nat as Hlens.
    { apply (f_equal length) in Hcat. rewrite length_app, length_take in Hcat. lia. }
    assert (0 < length t)%nat as Hlt by (destruct t; [done|cbn; lia]).
    assert (concat toks' = take (length (concat toks')) L) as Hpre.
    { apply (f_equal (take (length (concat toks')))) in Hcat.
      rewrite take_app_length, take_take, Nat.min_l in Hcat by lia. done. }
    destruct (lookup_lt_is_Some_2 E' (length (concat toks'))) as [src Hsrc]; [lia|].
    destruct (IH (length (concat toks')) ltac:(lia) src ltac:(lia) Hsrc) as [Hopt _].
    destruct (Hopt toks' Hpre HD') as [Hunk Hwc].
    pose proof (livePointers_complete T (take (S i) L) t n true Htext'
                  ltac:(by eexists) Hne Ht') as Hq.
    set (c := Edge.mk (Z.of_nat (length (concat toks'))) (Edge.WordCount src + 1)
                      (Edge.UnkCount src)).
    assert (c ∈ omap (candidateOver E' (Z.of_nat i)) (livePointers T (take (S i) L))) as Hc.
    { apply list_elem_of_omap. eexists. split; [done|].
      unfold candidateOver. cbn.
      replace (1 + Z.of_nat i - Z.of_nat (length t))
        with (Z.of_nat (length (concat toks'))) by lia.
      rewrite (slice_get_data _ _ src) by (rewrite ?Nat2Z.id; done || lia). done. }
    destruct (pickBest None _) as [b0|] eqn:Hpb.
    + subst. apply pickBest_least in Hpb as [_ Hleast].
      specialize (Hleast c Hc). apply supersedes_spec in Hleast. cbn in Hleast.
      pose proof (edges_counts T L E' (S i) b0 HE He) as Hcounts.
      rewrite length_app. cbn [length]. lia.
    + apply pickBest_None_nil in Hpb. rewrite Hpb in Hc. by apply elem_of_nil in Hc.
  - intros _ Hunk. destruct (pickBest None _) as [b0|] eqn:Hpb.
    + subst. apply pickBest_least in Hpb as [Hin _].
      apply list_elem_of_omap in Hin as (q & Hq & Hcand).
      unfold candidateOver in Hcand.
      destruct (DictBuilderPointer.IsFinal q) eqn:Hfin; [|done].
      apply bind_Some in Hcand as (src & Hsrc & Hcand). simplify_eq. cbn in *.
      apply slice_get_Some in Hsrc as [Hs Hsrc]. cbn [elems] in Hsrc.
      exists src. split; [done|]. split; [done|].
      pose proof (livePointers_matched T (take (S i) L)) as Hm.
      rewrite Forall_forall in Hm. destruct (Hm q Hq) as (w & Hsuf & Hlenw & Hw).
      rewrite filter_text_id in Hsuf by done. rewrite Hfin in Hw.
      exists (DictBuilderPointer.NodeID q).
      apply suffix_take_drop in Hsuf. rewrite length_take, Nat.min_l in Hsuf by lia.
      rewrite Hsuf in Hw. rewrite skipn_firstn_comm in Hw.
      replace (Z.to_nat (1 + Z.of_nat i - DictBuilderPointer.Offset q))
        with (S i - length w)%nat by lia.
      replace (Z.to_nat (Z.of_nat (S i) - (1 + Z.of_nat i - DictBuilderPointer.Offset q)))
        with (S i - (S i - length w))%nat by lia.
      done.
    + destruct Hpick as (lb & Hlb & Hun). unfold unknownOver in Hun.
      apply bind_Some in Hun as (src & Hsrc & Hun). simplify_eq. cbn in Hunk.
      apply slice_get_Some in Hsrc as [_ Hsrc]. cbn [elems] in Hsrc.
      pose proof (edges_counts T L E' _ src HE Hsrc). lia.
Qed.

Lemma tokensTo_accepted T L E :
  Forall (fun ch => IsText ch = true) L -> edges L T = Some E ->
  forall e out, tokensTo E L e out -> e <= Z.of_nat (length L) ->
    (forall edge, E !! Z.to_nat e = Some edge -> Edge.UnkCount edge = 0) ->
    Forall (accepts T) out.
Proof.
  intros Htext HE e out Hchain.
  induction Hchain as [|e edge out Hedge Hs Hchain IH]; intros He Hunk; [constructor|].
  destruct (text_line_entries T L E Htext HE (Z.to_nat e) edge ltac:(lia) Hedge)
    as [_ Hacc].
  destruct (Hacc ltac:(lia) (Hunk edge Hedge)) as (src & Hsrc & Hunk' & Hw).
  rewrite Z2Nat.id in Hw by lia.
  apply Forall_app. split; [|by apply Forall_singleton].
  apply IH; [lia|]. intros edge' Hedge'. congruence.
Qed.

(** X9 ([BuildPath] and [Segment]): a line of text codepoints that is a
    concatenation of words that the trie accepts comes back cut into
    accepted words only, and into no more of them than any such
    concatenation has. *)
Theorem covered_text_line_fewest_words
    (T : PrefixTree) (L : list rune) (toks : list (list rune)) :
  Forall (fun ch => IsText ch = true) L ->
  concat toks = L -> Forall (accepts T) toks ->
  exists out,
    segment L T = Some out /\ concat out = L /\
    Forall (accepts T) out /\ (length out <= length toks)%nat.
Proof.
  intros Htext Hcat HD.
  destruct (segment_spec L T)
    as (out & E & last & Hseg & HE & Hlen & Hok & Hlast & Hcat' & _ & Hcount).
  destruct (text_line_entries T L E Htext HE (length L) last ltac:(lia) Hlast)
    as [Hopt _].
  destruct (Hopt toks) as [Hunk Hwc]; [by rewrite firstn_all|done|].
  exists out. split; [done|]. split; [done|]. split; [|lia].
  eapply tokensTo_accepted; [done|done|by eapply segment_tokensTo|lia|].
  rewrite Nat2Z.id. intros edge Hedge. congruence.
Qed.

Lemma covered_text_line_fewest_words_witness :
  exists out,
    segment [3585; 3586; 3587]
            (MakePrefixTree [[3585]; [3586]; [3587]; [3586; 3587]]) = Some out /\
    concat out = [3585; 3586; 3587] /\
    Forall (accepts (MakePrefixTree [[3585]; [3586]; [3587]; [3586; 3587]])) out /\
    (length out <= length [[3585]; [3586]; [3587]])%nat.
Proof.
  apply (covered_text_line_fewest_words
           (MakePrefixTree [[3585]; [3586]; [3587]; [3586; 3587]])
           [3585; 3586; 3587] [[3585]; [3586]; [3587]]).
  - repeat constructor.
  - reflexivity.
  - repeat constructor; eexists; vm_compute; reflexivity.
Defined.

(** X10 ([BuildPath] and [Segment]): a word of text codepoints that the
    trie accepts, given as a line, comes back as one token. *)
Theorem accepted_text_word_is_one_token (T : PrefixTree) (w : list rune) :
  Forall (fun ch => IsText ch = true) w -> accepts T w ->
  segment w T = Some [w].
Proof.
  intros Htext Hacc.
  destruct (segment_spec w T)
    as (out & E & last & Hseg & HE & Hlen & Hok & Hlast & Hcat & Hne & Hcount).
  destruct (text_line_entries T w E Htext HE (length w) last ltac:(lia) Hlast)
    as [Hopt _].
  destruct (Hopt [w]) as [Hunk Hwc].
  { cbn. by rewrite app_nil_r, firstn_all. }
  { by apply Forall_singleton. }
  rewrite Hseg. f_equal.
  destruct out as [|t out].
  - cbn in Hcat. subst w. by destruct Hacc.
  - destruct out as [|t' out]; [cbn in Hcat; by rewrite app_nil_r in Hcat; subst|].
    cbn [length] in *. lia.
Qed.

Lemma accepted_text_word_is_one_token_witness :
  segment [3585; 3634] (MakePrefixTree [[3585]; [3634]; [3585; 3634]])
  = Some [[3585; 3634]].
Proof.
  apply (accepted_text_word_is_one_token
           (MakePrefixTree [[3585]; [3634]; [3585; 3634]]) [3585; 3634]).
  - repeat constructor.
  - eexists. vm_compute. reflexivity.
Defined.

(** ** The node numbers of the trie do not matter *)

Lemma latinRound_dict_free T sm i :
  (s ← (s1 ← flushSpace (with_dict T sm) i; closeLatin (openLatin s1 i) i);
   commitEdge s i)
  = with_dict T <$>
    (s ← (s1 ← flushSpace sm i; closeLatin (openLatin s1 i) i); commitEdge s i).
Proof.
  rewrite flushSpace_dict_free. destruct (flushSpace sm i) as [s1|]; simpl_opt; [|done].
  rewrite openLatin_dict_free, closeLatin_dict_free.
  destruct (closeLatin _ _) as [s2|]; simpl_opt; [|done].
  apply commitEdge_dict_free.
Qed.

Lemma spaceRound_dict_free T sm i :
  (s ← (s1 ← flushLatin (with_dict T sm) i; closeSpace (openSpace s1 i) i);
   commitEdge s i)
  = with_dict T <$>
    (s ← (s1 ← flushLatin sm i; closeSpace (openSpace s1 i) i); commitEdge s i).
Proof.
  rewrite flushLatin_dict_free. destruct (flushLatin sm i) as [s1|]; simpl_opt; [|done].
  rewrite openSpace_dict_free, closeSpace_dict_free.
  destruct (closeSpace _ _) as [s2|]; simpl_opt; [|done].
  apply commitEdge_dict_free.
Qed.

(** A round on a codepoint that is not a text codepoint commutes with a
    change of the dictionary and of the pointer slice. *)
Lemma scanRune_other_retarget T q sm i ch :
  IsText ch = false ->
  scanRune (retarget T q sm) i ch = retarget T q <$> scanRune sm i ch.
Proof.
  intros Ht. unfold scanRune, retarget.
  change (set_foundBestEdge false (set_bestEdge (Edge.mk 0 0 0)
            (with_dict T (set_pointers q sm))))
    with (with_dict T (set_pointers q (resetBest sm))).
  change (set_foundBestEdge false (set_bestEdge (Edge.mk 0 0 0) sm)) with (resetBest sm).
  generalize (resetBest sm). clear sm. intros sm.
  unfold IsText in Ht.
  destruct (IsLatin ch); [|destruct (IsSpace ch); [|done]].
  - rewrite latinRound_dict_free, latinRound_pointers. by destruct (_ ≫= _).
  - rewrite spaceRound_dict_free, spaceRound_pointers. by destruct (_ ≫= _).
Qed.

Lemma stepPointer_walk T ch q w :
  Z.of_nat (length w) = DictBuilderPointer.Offset q ->
  walk T w = Some (DictBuilderPointer.NodeID q, DictBuilderPointer.IsFinal q) ->
  stepPointer T ch q =
  (fun r => DictBuilderPointer.mk r.1 (DictBuilderPointer.Offset q + 1) r.2)
    <$> walk T (w ++ [ch]).
Proof.
  intros Hlen Hw. rewrite walk_snoc, Hw. simpl_opt. cbn [fst]. rewrite Hlen.
  unfold stepPointer. by destruct (T !! _).
Qed.

Lemma stepPointer_twin T1 T2 ch q1 q2 :
  same_walks T1 T2 -> twin T1 T2 q1 q2 ->
  option_Forall2 (twin T1 T2) (stepPointer T1 ch q1) (stepPointer T2 ch q2).
Proof.
  intros Hsame (Hoff & Hfin & w & Hlen & Hw1 & Hw2).
  rewrite (stepPointer_walk T1 ch q1 w Hlen Hw1).
  rewrite (stepPointer_walk T2 ch q2 w ltac:(congruence) Hw2).
  specialize (Hsame (w ++ [ch])).
  destruct (walk T1 (w ++ [ch])) as [[n1 f1]|] eqn:H1;
    destruct (walk T2 (w ++ [ch])) as [[n2 f2]|] eqn:H2; cbn in Hsame; simplify_eq;
    constructor.
  split; [cbn; lia|]. split; [done|]. exists (w ++ [ch]). cbn.
  split; [rewrite length_app; cbn; lia|]. done.
Qed.

Lemma omap_stepPointer_twin T1 T2 ch l1 l2 :
  same_walks T1 T2 -> Forall2 (twin T1 T2) l1 l2 ->
  Forall2 (twin T1 T2) (omap (stepPointer T1 ch) l1) (omap (stepPointer T2 ch) l2).
Proof.
  intros Hsame. induction 1 as [|q1 q2 l1 l2 Hq _ IH]; [constructor|].
  cbn [omap list_omap].
  destruct (stepPointer_twin T1 T2 ch q1 q2 Hsame Hq); [by constructor|done].
Qed.

Lemma twin_zeroPointer T1 T2 : twin T1 T2 zeroPointer zeroPointer.
Proof. split; [done|]. split; [done|]. by exists []. Qed.

Lemma considerPointer_retarget T P sm i q1 q2 :
  DictBuilderPointer.Offset q1 = DictBuilderPointer.Offset q2 ->
  DictBuilderPointer.IsFinal q1 = DictBuilderPointer.IsFinal q2 ->
  considerPointer (retarget T P sm) i q2 = retarget T P <$> considerPointer sm i q1.
Proof.
  intros Hoff Hfin. unfold considerPointer, edgeFrom, retarget.
  rewrite <- Hoff, <- Hfin. commute_block.
Qed.

Lemma chooseDictEdge_retarget T1 T2 P i l1 l2 : forall sm,
  Forall2 (twin T1 T2) l1 l2 ->
  chooseDictEdge (retarget T2 P sm) i l2 = retarget T2 P <$> chooseDictEdge sm i l1.
Proof.
  intros sm H. revert sm.
  induction H as [|q1 q2 l1 l2 (Hoff & Hfin & _) _ IH]; intros sm;
    cbn [chooseDictEdge]; [done|].
  rewrite (considerPointer_retarget T2 P sm i q1 q2 Hoff Hfin).
  destruct (considerPointer sm i q1) as [sm1|]; simpl_opt; [|done]. apply IH.
Qed.

(** A round of the scan keeps two segmenters over tries with the same
    walks in step. *)
Lemma scanRune_twins T2 sm1 sm2 i ch :
  same_walks (Segmenter.dict sm1) T2 -> twins T2 sm1 sm2 ->
  option_Forall2 (twins T2) (scanRune sm1 i ch) (scanRune sm2 i ch).
Proof.
  intros Hsame (q & -> & Hq). destruct (IsText ch) eqn:Ht.
  - rewrite !scanRune_text by done. unfold beforeChoice.
    change (resetBest (retarget T2 q sm1)) with (retarget T2 q (resetBest sm1)).
    change (Segmenter.dict sm1) with (Segmenter.dict (resetBest sm1)) in Hsame, Hq.
    change (Segmenter.pointers sm1) with (Segmenter.pointers (resetBest sm1)) in Hq.
    generalize dependent (resetBest sm1). clear sm1. intros sm Hsame Hq.
    unfold retarget at 1. rewrite flushSpace_dict_free, flushSpace_pointers.
    destruct (flushSpace sm i) as [s1|] eqn:H1; simpl_opt; [|constructor].
    rewrite flushLatin_dict_free, flushLatin_pointers.
    destruct (flushLatin s1 i) as [s2|] eqn:H2; simpl_opt; [|constructor].
    rewrite !advancePointers_eq. simpl_opt.
    assert (Segmenter.dict s2 = Segmenter.dict sm) as Hd2.
    { apply flushSpace_dict in H1. apply flushLatin_dict in H2. congruence. }
    assert (Segmenter.pointers s2 = Segmenter.pointers sm) as Hp2.
    { rewrite (pointers_kept (fun sm => flushLatin sm i) s1 s2);
        [|intros; apply flushLatin_pointers|done].
      rewrite (pointers_kept (fun sm => flushSpace sm i) sm s1);
        [done|intros; apply flushSpace_pointers|done]. }
    set (l1 := omap (stepPointer (Segmenter.dict s2) ch)
                    (elems (Segmenter.pointers s2) ++ [zeroPointer])).
    set (l2 := omap (stepPointer T2 ch) (elems q ++ [zeroPointer])).
    assert (Forall2 (twin (Segmenter.dict sm) T2) l1 l2) as Hl.
    { subst l1 l2. rewrite Hd2, Hp2. apply omap_stepPointer_twin; [done|].
      apply Forall2_app; [done|]. constructor; [apply twin_zeroPointer|constructor]. }
    change (set_pointers (SData _) (with_dict T2 (set_pointers q s2)))
      with (retarget T2 (SData l2) (set_pointers (SData l1) s2)).
    cbn [Segmenter.pointers retarget with_dict set_pointers elems].
    change (Segmenter.mk T2 ?a ?b ?c ?d ?e ?f ?g ?h (SData l2) ?k)
      with (retarget T2 (SData l2) (Segmenter.mk (Segmenter.dict s2) a b c d e f g h (SData l1) k)).
    rewrite (chooseDictEdge_retarget _ _ _ _ _ _ _ Hl).
    destruct (chooseDictEdge _ i l1) as [s4|] eqn:H4; simpl_opt; [|constructor].
    unfold retarget at 1. rewrite commitEdge_dict_free, commitEdge_pointers.
    destruct (commitEdge s4 i) as [s5|] eqn:H5; simpl_opt; constructor.
    exists (SData l2). split; [done|].
    apply chooseDictEdge_best in H4 as [Heq4 _].
    apply commitEdge_effect in H5 as (lb & be & -> & _).
    rewrite Heq4. cbn. by rewrite Hd2.
  - rewrite scanRune_other_retarget by done.
    destruct (scanRune sm1 i ch) as [s|] eqn:H; simpl_opt; constructor.
    exists q. split; [done|].
    apply scanRune_other_effect in H as [-> ->]; done.
Qed.

Lemma scanFrom_twins T2 line : forall sm1 sm2 i,
  same_walks (Segmenter.dict sm1) T2 -> twins T2 sm1 sm2 ->
  option_Forall2 (twins T2) (scanFrom sm1 i line) (scanFrom sm2 i line).
Proof.
  induction line as [|ch line IH]; intros sm1 sm2 i Hsame H; cbn [scanFrom].
  - by constructor.
  - pose proof (scanRune_twins T2 sm1 sm2 i ch Hsame H) as Hr.
    destruct (scanRune sm1 i ch) as [s1|] eqn:H1; inversion Hr as [? s2 Hs|];
      simpl_opt; [|constructor].
    apply IH; [|done]. apply scanRune_dict in H1. by rewrite H1.
Qed.

Lemma segment_same_walks T1 T2 L :
  same_walks T1 T2 -> segment L T1 = segment L T2.
Proof.
  intros Hsame. unfold segment, Segment, BuildPath.
  change (Segmenter.new T2) with (with_dict T2 (Segmenter.new T1)).
  rewrite resetScratch_dict_free.
  destruct (resetScratch_eq (Segmenter.new T1) L) as (ptrs & -> & Hptrs).
  simpl_opt. set (sm0 := Segmenter.mk _ _ _ _ _ _ _ _ _ _ _).
  assert (twins T2 sm0 (with_dict T2 sm0)) as Htw.
  { exists ptrs. split; [done|]. cbn. rewrite Hptrs. constructor. }
  pose proof (scanFrom_twins T2 L sm0 (with_dict T2 sm0) 0 Hsame Htw) as Hr.
  destruct (scanFrom sm0 0 L) as [s1|];
    destruct (scanFrom (with_dict T2 sm0) 0 L) as [s2|];
    inversion Hr as [? ? (q & -> & _)|]; subst; simpl_opt; [|done].
  change (Segmenter.path (retarget T2 q s1)) with (Segmenter.path s1).
  unfold mbind, option_bind, fmap, option_fmap, option_map.
  repeat (case_match; simplify_eq; try done).
Qed.

(** The sorting [MakePrefixTree] gives tries with the same walks to word
    lists with the same words. *)
Lemma same_words_same_walks ws1 ws2 :
  (forall w, w ∈ ws1 <-> w ∈ ws2) ->
  same_walks (MakePrefixTree ws1) (MakePrefixTree ws2).
Proof.
  intros Hws w.
  assert (forall ws n f, walk (MakePrefixTree ws) w = Some (n, f) ->
            f = bool_decide (w ∈ ws /\ w <> [])) as Hfin.
  { intros ws n f Hw. destruct f; symmetry.
    - apply bool_decide_eq_true_2, trie_accepts_exactly_the_words_aux. by exists n.
    - apply bool_decide_eq_false_2. intros [n' Hn']%trie_accepts_exactly_the_words_aux.
      congruence. }
  pose proof (MakePrefixTree_walks ws1 w) as H1.
  pose proof (MakePrefixTree_walks ws2 w) as H2.
  destruct (walk (MakePrefixTree ws1) w) as [[n1 f1]|] eqn:E1;
    destruct (walk (MakePrefixTree ws2) w) as [[n2 f2]|] eqn:E2; cbn.
  - rewrite (Hfin ws1 n1 f1 E1), (Hfin ws2 n2 f2 E2). f_equal.
    apply bool_decide_ext. by rewrite Hws.
  - exfalso. destruct (proj1 H1 ltac:(by eexists)) as [->|(word & Hin & Hpre)]; [done|].
    destruct (proj2 H2) as [? ?]; [|done]. right. exists word. by rewrite <- Hws.
  - exfalso. destruct (proj1 H2 ltac:(by eexists)) as [->|(word & Hin & Hpre)]; [done|].
    destruct (proj2 H1) as [? ?]; [|done]. right. exists word. by rewrite Hws.
  - done.
Qed.

Lemma MakePrefixTree_two_words :
  MakePrefixTree [[3585]; [3586; 3587]] =
  <[PrefixTreeNode.mk 0 0 3585 := PrefixTreePointer.mk 0 true]>
    (<[PrefixTreeNode.mk 0 0 3586 := PrefixTreePointer.mk 1 false]>
       (<[PrefixTreeNode.mk 1 1 3587 := PrefixTreePointer.mk 1 true]> ∅)).
Proof. vm_compute. reflexivity. Qed.

Ltac find_key :=
  repeat first
    [ rewrite lookup_insert_eq
    | rewrite lookup_insert_ne by (intros [=]; lia)
    | rewrite lookup_empty ];
  cbn [mbind option_bind PrefixTreePointer.ChildID PrefixTreePointer.IsFinal].

(** The renumbered trie has the walks of the trie that [MakePrefixTree]
    builds for the same two words. *)
Lemma renumbered_same_walks :
  same_walks (MakePrefixTree [[3585]; [3586; 3587]]) renumbered.
Proof.
  intros w. rewrite MakePrefixTree_two_words. unfold renumbered, walk.
  destruct w as [|c1 w]; [done|]. cbn [walkFrom].
  destruct (decide (c1 = 3585)) as [->|H1].
  { find_key. destruct w as [|c2 w]; [done|]. cbn [walkFrom]. by find_key. }
  destruct (decide (c1 = 3586)) as [->|H2].
  { find_key. destruct w as [|c2 w]; [done|]. cbn [walkFrom].
    destruct (decide (c2 = 3587)) as [->|H3].
    - find_key. destruct w as [|c3 w]; [done|]. cbn [walkFrom]. by find_key.
    - by find_key. }
  by find_key.
Qed.

(** X11 ([BuildPath] and [Segment]): the node numbers of the trie do not
    matter to the tokens.  Two tries in which the same sequences of
    codepoints can be walked, and end on a final transition, give the
    same tokens on every line. *)
Theorem tokens_depend_on_the_walks_only (T1 T2 : PrefixTree) (L : list rune) :
  same_walks T1 T2 -> segment L T1 = segment L T2.
Proof. apply segment_same_walks. Qed.

Lemma tokens_depend_on_the_walks_only_witness :
  MakePrefixTree [[3585]; [3586; 3587]] !! PrefixTreeNode.mk 0 0 3586
    = Some (PrefixTreePointer.mk 1 false) /\
  renumbered !! PrefixTreeNode.mk 0 0 3586 = Some (PrefixTreePointer.mk 7 false) /\
  MakePrefixTree [[3585]; [3586; 3587]] !! PrefixTreeNode.mk 7 1 3587 = None /\
  renumbered !! PrefixTreeNode.mk 7 1 3587 = Some (PrefixTreePointer.mk 9 true) /\
  same_walks (MakePrefixTree [[3585]; [3586; 3587]]) renumbered /\
  segment [3585; 3586; 3587; 3585] (MakePrefixTree [[3585]; [3586; 3587]])
  = segment [3585; 3586; 3587; 3585] renumbered.
Proof.
  split; [vm_compute; reflexivity|]. split; [vm_compute; reflexivity|].
  split; [vm_compute; reflexivity|]. split; [vm_compute; reflexivity|].
  split; [exact renumbered_same_walks|].
  apply (tokens_depend_on_the_walks_only
           (MakePrefixTree [[3585]; [3586; 3587]]) renumbered
           [3585; 3586; 3587; 3585]).
  exact renumbered_same_walks.
Defined.

(** X12 ([MakePrefixTree] with [BuildPath] and [Segment]): the tokens
    depend on the set of words only.  Word lists with the same words, in
    any order and with any repetitions, give the same tokens on every
    line. *)
Theorem tokens_depend_on_the_set_of_words
    (ws1 ws2 : list (list rune)) (L : list rune) :
  (forall w, w ∈ ws1 <-> w ∈ ws2) ->
  segment L (MakePrefixTree ws1) = segment L (MakePrefixTree ws2).
Proof. intros Hws. by apply segment_same_walks, same_words_same_walks. Qed.

Lemma tokens_depend_on_the_set_of_words_witness :
  segment [3585; 3586; 3585] (MakePrefixTree [[3585]; [3586; 3585]; [3585]])
  = segment [3585; 3586; 3585] (MakePrefixTree [[3586; 3585]; [3585]]).
Proof.
  apply (tokens_depend_on_the_set_of_words
           [[3585]; [3586; 3585]; [3585]] [[3586; 3585]; [3585]] [3585; 3586; 3585]).
  intros w. rewrite !elem_of_cons, elem_of_nil. tauto.
Defined.

(** ** Lines without text codepoints *)

(** A round on a Latin letter: the space run that was open is written at
    [i], the Latin run is open from its first letter, and at the last
    codepoint of the line it is written at [i + 1]. *)
Lemma latinRound_effect sm i sm' :
  (s ← (s1 ← flushSpace (resetBest sm) i; closeLatin (openLatin s1 i) i); commitEdge s i)
    = Some sm' ->
  0 <= i ->
  Segmenter.length sm' = Segmenter.length sm /\
  Segmenter.foundSpace sm' = false /\
  (Segmenter.foundSpace sm = true ->
   exists e, elems (Segmenter.path sm') !! Z.to_nat i = Some e /\
             Edge.S e = Segmenter.startSpace sm) /\
  (if i =? Segmenter.length sm - 1
   then Segmenter.foundLatin sm' = false /\
        exists e, elems (Segmenter.path sm') !! Z.to_nat (i + 1) = Some e /\
                  Edge.S e = (if Segmenter.foundLatin sm
                              then Segmenter.startLatin sm else i)
   else Segmenter.foundLatin sm' = true /\
        Segmenter.startLatin sm' = (if Segmenter.foundLatin sm
                                    then Segmenter.startLatin sm else i)).
Proof.
  intros H Hi. destruct sm as [d p lb sL fL sS fS be fbe ptrs len].
  unfold flushSpace, openLatin, closeLatin, commitEdge, edgeFrom, resetBest in H.
  cbn in H |- *.
  destruct fS, fL, (i =? len - 1) eqn:Hlast; cbn in H; open_block; cbn in *.
  all: try (exfalso; congruence).
  all: repeat match goal with
       | H : slice_set _ _ _ = Some _ |- _ => apply slice_set_Some in H as [? ->]
       | H : slice_get _ _ = Some _ |- _ => apply slice_get_Some in H as [? ?]
       end; cbn in *.
  all: unfold slice_len in *; cbn [elems] in *; rewrite ?length_insert in *.
  all: repeat split; try done; try (intros _).
  all: try (eexists; split; [apply list_lookup_insert_eq; rewrite ?length_insert; lia|done]).
  all: try (eexists; split;
            [rewrite list_lookup_insert_ne by lia;
             apply list_lookup_insert_eq; rewrite ?length_insert; lia|done]).
Qed.

(** A round on a space-class codepoint, likewise. *)
Lemma spaceRound_effect sm i sm' :
  (s ← (s1 ← flushLatin (resetBest sm) i; closeSpace (openSpace s1 i) i); commitEdge s i)
    = Some sm' ->
  0 <= i ->
  Segmenter.length sm' = Segmenter.length sm /\
  Segmenter.foundLatin sm' = false /\
  (Segmenter.foundLatin sm = true ->
   exists e, elems (Segmenter.path sm') !! Z.to_nat i = Some e /\
             Edge.S e = Segmenter.startLatin sm) /\
  (if i =? Segmenter.length sm - 1
   then Segmenter.foundSpace sm' = false /\
        exists e, elems (Segmenter.path sm') !! Z.to_nat (i + 1) = Some e /\
                  Edge.S e = (if Segmenter.foundSpace sm
                              then Segmenter.startSpace sm else i)
   else Segmenter.foundSpace sm' = true /\
        Segmenter.startSpace sm' = (if Segmenter.foundSpace sm
                                    then Segmenter.startSpace sm else i)).
Proof.
  intros H Hi. destruct sm as [d p lb sL fL sS fS be fbe ptrs len].
  unfold flushLatin, openSpace, closeSpace, commitEdge, edgeFrom, resetBest in H.
  cbn in H |- *.
  destruct fS, fL, (i =? len - 1) eqn:Hlast; cbn in H; open_block; cbn in *.
  all: try (exfalso; congruence).
  all: repeat match goal with
       | H : slice_set _ _ _ = Some _ |- _ => apply slice_set_Some in H as [? ->]
       | H : slice_get _ _ = Some _ |- _ => apply slice_get_Some in H as [? ?]
       end; cbn in *.
  all: unfold slice_len in *; cbn [elems] in *; rewrite ?length_insert in *.
  all: repeat split; try done; try (intros _).
  all: try (eexists; split; [apply list_lookup_insert_eq; rewrite ?length_insert; lia|done]).
  all: try (eexists; split;
            [rewrite list_lookup_insert_ne by lia;
             apply list_lookup_insert_eq; rewrite ?length_insert; lia|done]).
Qed.

Lemma roundState_S T L i ch :
  L !! i = Some ch ->
  roundState T L (S i) = sm ← roundState T L i; scanRune sm (Z.of_nat i) ch.
Proof.
  intros Hch. unfold roundState. rewrite (take_S_r L i ch Hch).
  destruct (resetScratch _ _) as [sm0|]; simpl_opt; [|done].
  rewrite scanFrom_app. destruct (scanFrom sm0 0 (take i L)) as [sm|]; simpl_opt; [|done].
  rewrite length_take, Nat.min_l by (apply lookup_lt_Some in Hch; lia).
  rewrite Z.add_0_l. cbn [scanFrom]. by destruct (scanRune _ _ _).
Qed.

Lemma runBlock_first L i : (i < length L)%nat ->
  (i = 0%nat \/ IsLatin <$> L !! (i - 1)%nat <> IsLatin <$> L !! i) ->
  runBlock L i (S i).
Proof.
  intros Hi Hb. split; [lia|]. split; [|done].
  intros k Hk. by replace k with i by lia.
Qed.

Lemma runBlock_extend L s i :
  (i < length L)%nat -> runBlock L s i ->
  IsLatin <$> L !! i = IsLatin <$> L !! (i - 1)%nat ->
  runBlock L s (S i).
Proof.
  intros Hi (Hs & Hu & Hb) Hsame. split; [lia|]. split; [|done].
  intros k Hk. destruct (decide (k = i)) as [->|Hne].
  - rewrite Hsame. apply Hu. lia.
  - apply Hu. lia.
Qed.

(** Before round [i]: the run that the codepoint at [i] continues or
    opens, and the run of the other kind that it ends. *)
Lemma run_inv_open L i sm ch :
  run_inv L i sm -> L !! i = Some ch ->
  (exists s,
     (if (if IsLatin ch then Segmenter.foundLatin sm else Segmenter.foundSpace sm)
      then (if IsLatin ch then Segmenter.startLatin sm else Segmenter.startSpace sm)
      else Z.of_nat i) = Z.of_nat s /\ runBlock L s (S i)) /\
  ((1 <= i)%nat -> runEnd L i ->
   (if IsLatin ch then Segmenter.foundSpace sm else Segmenter.foundLatin sm) = true) /\
  ((if IsLatin ch then Segmenter.foundSpace sm else Segmenter.foundLatin sm) = true ->
   exists s, (if IsLatin ch then Segmenter.startSpace sm else Segmenter.startLatin sm)
             = Z.of_nat s /\ runBlock L s i).
Proof.
  intros (Hlen & Hedge & Hmid & _) Hch.
  pose proof (lookup_lt_Some _ _ _ Hch) as Hi.
  destruct (decide (i = 0%nat)) as [->|Hi0].
  { destruct Hedge as [HfL HfS]; [by left|]. rewrite HfL, HfS.
    split; [|split].
    - exists 0%nat. destruct (IsLatin ch); (split; [done|]); apply runBlock_first; auto.
    - lia.
    - by destruct (IsLatin ch). }
  destruct Hmid as (s0 & ch0 & Hch0 & Hblock & Hflags); [lia|].
  destruct (IsLatin ch) eqn:HL, (IsLatin ch0) eqn:HL0;
    destruct Hflags as (Hf1 & Hs1 & Hf2); rewrite ?Hf1, ?Hf2, ?Hs1.
  - split; [|split]; [|intros _ [?|Hend]; [lia|]|done].
    + exists s0. split; [done|]. apply runBlock_extend; [done..|].
      by rewrite Hch, Hch0; cbn; rewrite HL, HL0.
    + exfalso. apply Hend. by rewrite Hch, Hch0; cbn; rewrite HL, HL0.
  - split; [|split]; [|done|by eauto].
    exists i. split; [done|]. apply runBlock_first; [done|]. right.
    rewrite Hch, Hch0; cbn; rewrite HL, HL0. done.
  - split; [|split]; [|done|by eauto].
    exists i. split; [done|]. apply runBlock_first; [done|]. right.
    rewrite Hch, Hch0; cbn; rewrite HL, HL0. done.
  - split; [|split]; [|intros _ [?|Hend]; [lia|]|done].
    + exists s0. split; [done|]. apply runBlock_extend; [done..|].
      by rewrite Hch, Hch0; cbn; rewrite HL, HL0.
    + exfalso. apply Hend. by rewrite Hch, Hch0; cbn; rewrite HL, HL0.
Qed.

(** A round on a codepoint that is not a text codepoint keeps the runs
    in order. *)
Lemma scanRune_run_inv L i sm ch sm' :
  run_inv L i sm -> L !! i = Some ch -> IsText ch = false ->
  scanRune sm (Z.of_nat i) ch = Some sm' ->
  run_inv L (S i) sm'.
Proof.
  intros Hinv Hch Ht H.
  pose proof (lookup_lt_Some _ _ _ Hch) as Hi.
  destruct (run_inv_open L i sm ch Hinv Hch) as ((s & Hs & Hblock) & Hend & Hother).
  destruct Hinv as (Hlen & _ & _ & Hentries).
  assert (forall k, (k < i)%nat ->
            elems (Segmenter.path sm') !! k = elems (Segmenter.path sm) !! k) as Hkept.
  { intros k Hk. eapply scanRune_path_kept; [|done|left]; lia. }
  unfold IsText in Ht. unfold scanRune in H.
  destruct (IsLatin ch) eqn:HL; [|destruct (IsSpace ch) eqn:HS; [|done]].
  - apply latinRound_effect in H as (Hlen' & HfS' & Hflush & Hlast); [|lia].
    rewrite Hlen in Hlast.
    split; [congruence|]. split; [|split].
    + intros [?|HN]; [lia|].
      rewrite (proj2 (Z.eqb_eq _ _)) in Hlast by lia. by destruct Hlast.
    + intros HN. rewrite (proj2 (Z.eqb_neq _ _)) in Hlast by lia.
      destruct Hlast as [HfL' HsL']. exists s, ch.
      replace (S i - 1)%nat with i by lia. rewrite HL.
      split; [done|]. split; [done|]. split; [done|]. split; [congruence|done].
    + intros e edge He Hre Hpos Hedge.
      destruct (decide (e < i)%nat) as [Hlt|Hge].
      { rewrite Hkept in Hedge by done. eapply Hentries; [|done| |done]; [lia|by left]. }
      destruct (decide (e = i)) as [->|Hne].
      * destruct (Hother (Hend ltac:(lia) Hre)) as (s0 & Hs0 & Hblock0).
        destruct (Hflush (Hend ltac:(lia) Hre)) as (e' & He' & HS').
        rewrite Nat2Z.id in He'. simplify_eq. exists s0. split; [congruence|done].
      * assert (e = S i) as -> by lia.
        rewrite (proj2 (Z.eqb_eq _ _)) in Hlast by lia.
        destruct Hlast as (_ & e' & He' & HS').
        replace (Z.to_nat (Z.of_nat i + 1)) with (S i) in He' by lia.
        simplify_eq. exists s. split; [congruence|done].
  - apply spaceRound_effect in H as (Hlen' & HfL' & Hflush & Hlast); [|lia].
    rewrite Hlen in Hlast.
    split; [congruence|]. split; [|split].
    + intros [?|HN]; [lia|].
      rewrite (proj2 (Z.eqb_eq _ _)) in Hlast by lia. by destruct Hlast.
    + intros HN. rewrite (proj2 (Z.eqb_neq _ _)) in Hlast by lia.
      destruct Hlast as [HfS' HsS']. exists s, ch.
      replace (S i - 1)%nat with i by lia. rewrite HL.
      split; [done|]. split; [done|]. split; [done|]. split; [congruence|done].
    + intros e edge He Hre Hpos Hedge.
      destruct (decide (e < i)%nat) as [Hlt|Hge].
      { rewrite Hkept in Hedge by done. eapply Hentries; [|done| |done]; [lia|by left]. }
      destruct (decide (e = i)) as [->|Hne].
      * destruct (Hother (Hend ltac:(lia) Hre)) as (s0 & Hs0 & Hblock0).
        destruct (Hflush (Hend ltac:(lia) Hre)) as (e' & He' & HS').
        rewrite Nat2Z.id in He'. simplify_eq. exists s0. split; [congruence|done].
      * assert (e = S i) as -> by lia.
        rewrite (proj2 (Z.eqb_eq _ _)) in Hlast by lia.
        destruct Hlast as (_ & e' & He' & HS').
        replace (Z.to_nat (Z.of_nat i + 1)) with (S i) in He' by lia.
        simplify_eq. exists s. split; [congruence|done].
Qed.

Lemma roundState_run_inv T L :
  Forall (fun ch => IsText ch = false) L ->
  forall i sm, (i <= length L)%nat -> roundState T L i = Some sm -> run_inv L i sm.
Proof.
  intros Hno. induction i as [|i IH]; intros sm Hi Hsm.
  - unfold roundState in Hsm. rewrite take_0 in Hsm.
    destruct (resetScratch_eq (Segmenter.new T) L) as (ptrs & Heq & _).
    rewrite Heq in Hsm. cbn in Hsm. simplify_eq.
    split; [done|]. split; [done|]. split; [lia|]. intros; lia.
  - destruct (lookup_lt_is_Some_2 L i) as [ch Hch]; [lia|].
    rewrite (roundState_S T L i ch Hch) in Hsm.
    apply bind_Some in Hsm as (sm0 & Hsm0 & Hround).
    eapply scanRune_run_inv; [apply IH; [lia|done]|done| |done].
    rewrite Forall_forall in Hno. apply Hno. by eapply list_elem_of_lookup_2.
Qed.

Lemma runs_uniform (B : list rune) :
  B <> [] -> (forall a b, a ∈ B -> b ∈ B -> IsLatin a = IsLatin b) -> runs B = [B].
Proof.
  induction B as [|a B IH]; [done|]. intros _ Hu.
  destruct B as [|b B]; [done|].
  cbn [runs] in *. rewrite IH; [|done|].
  - rewrite (Hu a b), eqb_reflx; [done|by left|by right; left].
  - intros x y Hx Hy. apply Hu; by right.
Qed.

Lemma runs_nil_inv (A : list rune) : runs A = [] -> A = [].
Proof.
  destruct A as [|a A]; [done|]. cbn [runs].
  destruct (runs A) as [|[|c r] rs]; [done|done|]. by destruct (Bool.eqb _ _).
Qed.

Lemma runs_head (A : list rune) r rs : runs A = r :: rs -> r <> [].
Proof.
  destruct A as [|a A]; [done|]. cbn [runs].
  destruct (runs A) as [|[|c r'] rs']; [by intros [= <- _]..|].
  destruct (Bool.eqb _ _); by intros [= <- _].
Qed.

(** A run at the end of a line is the last of its runs. *)
Lemma runs_app_block (A B : list rune) :
  B <> [] -> (forall a b, a ∈ B -> b ∈ B -> IsLatin a = IsLatin b) ->
  (forall a b, last A = Some a -> head B = Some b -> IsLatin a <> IsLatin b) ->
  runs (A ++ B) = runs A ++ [B].
Proof.
  intros HB Hu. induction A as [|a A IH]; intros Hb.
  { by apply runs_uniform. }
  cbn [app runs].
  destruct A as [|a' A].
  - cbn [app runs] in *. rewrite runs_uniform by done.
    destruct B as [|b B]; [done|].
    rewrite (proj2 (eqb_false_iff _ _)); [done|]. by apply Hb.
  - rewrite IH; [|intros x y Hx Hy; apply Hb; [done|done]].
    pose proof (runs_head (a' :: A)) as Hne.
    destruct (runs (a' :: A)) as [|r rs] eqn:Hr.
    + by apply runs_nil_inv in Hr.
    + specialize (Hne r rs eq_refl). destruct r as [|c r]; [done|].
      cbn [app]. by destruct (Bool.eqb _ _).
Qed.

Lemma tokensTo_runs L E :
  (forall e edge, (1 <= e <= length L)%nat -> runEnd L e -> E !! e = Some edge ->
     exists s, Edge.S edge = Z.of_nat s /\ runBlock L s e) ->
  forall e out, tokensTo E L e out ->
    e = 0 \/ runEnd L (Z.to_nat e) -> e <= Z.of_nat (length L) ->
    out = runs (take (Z.to_nat e) L).
Proof.
  intros HE e out Hchain.
  induction Hchain as [|e edge out Hedge Hs Hchain IH]; intros Hend He; [done|].
  destruct Hend as [?|Hend]; [lia|].
  destruct (HE (Z.to_nat e) edge ltac:(lia) Hend Hedge) as (s & HS & (Hse & Hu & Hb)).
  rewrite HS in *. rewrite Nat2Z.id in *.
  rewrite IH; [|destruct Hb as [->|Hb]; [by left|right; by right]|lia].
  replace (Z.to_nat (e - Z.of_nat s)) with (Z.to_nat e - s)%nat by lia.
  rewrite <- (take_take_drop L s (Z.to_nat e)) by lia.
  set (B := take (Z.to_nat e - s) (drop s L)).
  assert (forall a, a ∈ B -> IsLatin <$> L !! s = Some (IsLatin a)) as HB.
  { intros a (k & Hk)%list_elem_of_lookup_1. subst B.
    pose proof (lookup_lt_Some _ _ _ Hk) as Hlt. rewrite length_take in Hlt.
    rewrite lookup_take_lt, lookup_drop in Hk by lia.
    rewrite <- (Hu (s + k)%nat) by lia. by rewrite Hk. }
  symmetry. apply runs_app_block.
  - intros HBnil. apply (f_equal length) in HBnil. subst B.
    rewrite length_take, length_drop in HBnil. cbn in HBnil. lia.
  - intros a b Ha%HB Hb'%HB. congruence.
  - intros a b Ha Hb'. destruct Hb as [->|Hb].
    { by rewrite take_0 in Ha. }
    destruct (decide (s = 0%nat)) as [->|Hs0]; [by rewrite take_0 in Ha|].
    rewrite last_lookup, length_take, Nat.min_l in Ha by lia.
    replace (Init.Nat.pred s) with (s - 1)%nat in Ha by lia.
    rewrite lookup_take_lt in Ha by lia.
    assert (L !! s = Some b) as Hsb.
    { subst B. rewrite head_lookup, lookup_take_lt, lookup_drop in Hb' by lia.
      by rewrite Nat.add_0_r in Hb'. }
    rewrite Ha, Hsb in Hb. cbn in Hb. congruence.
Qed.

(** X13 ([BuildPath] and [Segment]): a line without text codepoints
    comes back cut into its maximal runs of Latin letters and of
    space-class codepoints, whatever the dictionary. *)
Theorem line_without_text_is_cut_into_runs (T : PrefixTree) (L : list rune) :
  Forall (fun ch => IsText ch = false) L -> segment L T = Some (runs L).
Proof.
  intros Hno.
  destruct (segment_spec L T) as (out & E & last & Hseg & HE & Hlen & Hok & _).
  rewrite Hseg. f_equal.
  pose proof (segment_tokensTo L T out E Hseg HE) as Hchain.
  assert (exists smF, roundState T L (length L) = Some smF /\ E = elems (Segmenter.path smF))
    as (smF & HsmF & ->).
  { unfold edges, BuildPath in HE. unfold roundState. rewrite firstn_all.
    apply bind_Some in HE as (smF & HB & HE). exists smF. split; [done|congruence]. }
  pose proof (roundState_run_inv T L Hno (length L) smF ltac:(lia) HsmF)
    as (_ & _ & _ & Hentries).
  rewrite (tokensTo_runs L _ (fun e edge He Hend Hedge =>
             Hentries e edge He Hend ltac:(lia) Hedge) _ _ Hchain).
  - by rewrite Nat2Z.id, firstn_all.
  - right. rewrite Nat2Z.id. by left.
  - lia.
Qed.

Lemma line_without_text_is_cut_into_runs_witness :
  segment [97; 98; 32; 40; 67] (MakePrefixTree [[97; 98]; [3585]])
  = Some (runs [97; 98; 32; 40; 67]).
Proof.
  apply (line_without_text_is_cut_into_runs (MakePrefixTree [[97; 98]; [3585]])
                                            [97; 98; 32; 40; 67]).
  repeat constructor.
Defined.

(** ** The trie is read on text codepoints only *)

(** X18 ([BuildPath] and [Segment]): the dictionary is looked up in the
    rounds on text codepoints only.  On every line, a trie with the same
    transitions on text codepoints gives the same tokens, whatever its
    transitions on Latin letters and space-class codepoints are.  In a
    round on a text codepoint every candidate dictionary edge comes from
    a word of the list that is made of text codepoints only and ends the
    text codepoints scanned so far; its start is as many boundaries
    back as the word has codepoints, counted without regard to the Latin
    letters and space-class codepoints scanned in between. *)
Theorem trie_is_read_on_text_codepoints_only (ws : list (list rune)) (L : list rune) :
  (forall T T', agree_on_text T T' -> segment L T' = segment L T) /\
  (forall i ch, L !! i = Some ch -> IsText ch = true ->
     exists cands,
       candidatesAt (MakePrefixTree ws) L i = Some cands /\
       forall c, c ∈ cands ->
         exists w, w ∈ ws /\ Forall (fun x => IsText x = true) w /\
                   w `suffix_of` filter (fun x => IsText x = true) (take (S i) L) /\
                   Edge.S c = Z.of_nat (S i) - Z.of_nat (length w)).
Proof.
  split; [intros T T' Hagree; by apply segment_agree|].
  intros i ch Hch Ht.
  destruct (text_round (MakePrefixTree ws) L i ch Hch Ht)
    as (sm3 & E & best & H3 & _ & Hptrs & _).
  exists (dictCandidates sm3 (Z.of_nat i)).
  split; [unfold candidatesAt; by rewrite H3|].
  intros c (q & Hq & Hc)%list_elem_of_omap.
  apply candidate_Some in Hc as [Hfin HS].
  rewrite Hptrs in Hq.
  pose proof (livePointers_matched (MakePrefixTree ws) (take (S i) L)) as Hall.
  rewrite Forall_forall in Hall.
  destruct (matched_text _ _ _ (Hall _ Hq)) as (w & Htext & Hlen & Hsuf & Hwalk).
  rewrite Hfin in Hwalk. apply MakePrefixTree_sound in Hwalk.
  exists w. repeat split; try done. lia.
Qed.

(** ** The free-standing version computes the same edges *)

Lemma slice_get_map {A B} (f : A -> B) (s : slice A) k :
  slice_get (slice_map f s) k = f <$> slice_get s k.
Proof.
  unfold slice_get, slice_len. destruct s as [|l]; cbn [slice_map elems].
  - rewrite !bool_decide_eq_false_2 by (cbn; lia). done.
  - rewrite length_fmap. case_bool_decide; [|done]. by rewrite list_lookup_fmap.
Qed.

Lemma slice_set_map {A B} (f : A -> B) (s : slice A) k x :
  slice_set (slice_map f s) k (f x) = slice_map f <$> slice_set s k x.
Proof.
  unfold slice_set, slice_len. destruct s as [|l]; cbn [slice_map elems].
  - rewrite !bool_decide_eq_false_2 by (cbn; lia). done.
  - rewrite length_fmap. case_bool_decide; [|done]. cbn. by rewrite list_fmap_insert.
Qed.

Lemma edgeFrom_typed d len st s ty :
  edgeFrom (asSegmenter d len st) s = untyped <$> Typed.edgeFrom st s ty.
Proof.
  unfold edgeFrom, Typed.edgeFrom. cbn. rewrite slice_get_map.
  by destruct (slice_get _ _).
Qed.

Ltac as_fields :=
  cbn [asSegmenter Segmenter.dict Segmenter.path Segmenter.leftBoundary
       Segmenter.startLatin Segmenter.foundLatin Segmenter.startSpace
       Segmenter.foundSpace Segmenter.bestEdge Segmenter.foundBestEdge
       Segmenter.pointers Segmenter.length].

Lemma flushSpace_typed d len st i :
  flushSpace (asSegmenter d len st) i = asSegmenter d len <$> Typed.flushSpace st i.
Proof.
  unfold flushSpace, Typed.flushSpace.
  change (Segmenter.foundSpace (asSegmenter d len st)) with (Typed.Locals.foundSpace st).
  destruct (Typed.Locals.foundSpace st); [|done].
  rewrite (edgeFrom_typed _ _ _ _ Typed.SPACE).
  change (Segmenter.startSpace (asSegmenter d len st)) with (Typed.Locals.startSpace st).
  destruct (Typed.edgeFrom st _ _) as [e|]; simpl_opt; [|done].
  change (Segmenter.path (asSegmenter d len st))
    with (slice_map untyped (Typed.Locals.path st)).
  rewrite slice_set_map. by destruct (slice_set _ _ _).
Qed.

Lemma flushLatin_typed d len st i :
  flushLatin (asSegmenter d len st) i = asSegmenter d len <$> Typed.flushLatin st i.
Proof.
  unfold flushLatin, Typed.flushLatin.
  change (Segmenter.foundLatin (asSegmenter d len st)) with (Typed.Locals.foundLatin st).
  destruct (Typed.Locals.foundLatin st); [|done].
  rewrite (edgeFrom_typed _ _ _ _ Typed.LATIN).
  change (Segmenter.startLatin (asSegmenter d len st)) with (Typed.Locals.startLatin st).
  destruct (Typed.edgeFrom st _ _) as [e|]; simpl_opt; [|done].
  change (Segmenter.path (asSegmenter d len st))
    with (slice_map untyped (Typed.Locals.path st)).
  rewrite slice_set_map. by destruct (slice_set _ _ _).
Qed.

Lemma openLatin_typed d len st i :
  openLatin (asSegmenter d len st) i = asSegmenter d len (Typed.openLatin st i).
Proof.
  unfold openLatin, Typed.openLatin.
  change (Segmenter.foundLatin (asSegmenter d len st)) with (Typed.Locals.foundLatin st).
  by destruct (Typed.Locals.foundLatin st).
Qed.

Lemma openSpace_typed d len st i :
  openSpace (asSegmenter d len st) i = asSegmenter d len (Typed.openSpace st i).
Proof.
  unfold openSpace, Typed.openSpace.
  change (Segmenter.foundSpace (asSegmenter d len st)) with (Typed.Locals.foundSpace st).
  by destruct (Typed.Locals.foundSpace st).
Qed.

Lemma closeLatin_typed d len st i :
  closeLatin (asSegmenter d len st) i = asSegmenter d len <$> Typed.closeLatin len st i.
Proof.
  unfold closeLatin, Typed.closeLatin.
  change (Segmenter.length (asSegmenter d len st)) with len.
  destruct (i =? len - 1); [|done].
  rewrite (edgeFrom_typed _ _ _ _ Typed.LATIN).
  change (Segmenter.startLatin (asSegmenter d len st)) with (Typed.Locals.startLatin st).
  by destruct (Typed.edgeFrom st _ _).
Qed.

Lemma closeSpace_typed d len st i :
  closeSpace (asSegmenter d len st) i = asSegmenter d len <$> Typed.closeSpace len st i.
Proof.
  unfold closeSpace, Typed.closeSpace.
  change (Segmenter.length (asSegmenter d len st)) with len.
  destruct (i =? len - 1); [|done].
  rewrite (edgeFrom_typed _ _ _ _ Typed.SPACE).
  change (Segmenter.startSpace (asSegmenter d len st)) with (Typed.Locals.startSpace st).
  by destruct (Typed.edgeFrom st _ _).
Qed.

Lemma advancePointers_typed d len st ch :
  advancePointers (asSegmenter d len st) ch
  = asSegmenter d len <$> Typed.advancePointers d st ch.
Proof.
  unfold advancePointers, Typed.advancePointers. as_fields.
  destruct (compactPointers _ _ _ _ _ _) as [[ptrs' newIndex]|]; simpl_opt; [|done].
  by destruct (slice_take _ _).
Qed.

Lemma supersedes_typed e b :
  supersedes (untyped e) (untyped b) = Typed.supersedes e b.
Proof. done. Qed.

Lemma considerPointer_typed d len st i q :
  considerPointer (asSegmenter d len st) i q
  = asSegmenter d len <$> Typed.considerPointer st i q.
Proof.
  unfold considerPointer, Typed.considerPointer.
  destruct (DictBuilderPointer.IsFinal q); [|done].
  rewrite (edgeFrom_typed _ _ _ _ Typed.DICT).
  destruct (Typed.edgeFrom st _ _) as [e|]; simpl_opt; [|done].
  as_fields. destruct (Typed.Locals.bestEdge st) as [b|]; cbn [negb]; [|done].
  rewrite supersedes_typed. by destruct (Typed.supersedes e b).
Qed.

Lemma chooseDictEdge_typed d len i ptrs : forall st,
  chooseDictEdge (asSegmenter d len st) i ptrs
  = asSegmenter d len <$> Typed.chooseDictEdge st i ptrs.
Proof.
  induction ptrs as [|q ptrs IH]; intros st; cbn [chooseDictEdge Typed.chooseDictEdge];
    [done|].
  rewrite considerPointer_typed.
  destruct (Typed.considerPointer st i q) as [st1|]; simpl_opt; [|done]. apply IH.
Qed.

Lemma commitEdge_typed d len st i :
  commitEdge (asSegmenter d len st) i = asSegmenter d len <$> Typed.commitEdge st i.
Proof.
  destruct st as [p lb sL fL sS fS be ptrs].
  unfold commitEdge, Typed.commitEdge. cbn. destruct be as [b|]; cbn.
  - rewrite slice_set_map. by destruct (slice_set p (i + 1) b).
  - rewrite slice_get_map. destruct (slice_get p lb) as [src|]; cbn; [|done].
    change (Edge.mk lb (Typed.Edge.WordCount src + 1) (Typed.Edge.UnkCount src + 1))
      with (untyped (Typed.Edge.mk lb Typed.UNK (Typed.Edge.WordCount src + 1)
                                   (Typed.Edge.UnkCount src + 1))).
    rewrite slice_set_map. by destruct (slice_set p (i + 1) _).
Qed.

(** One round of the free-standing scan is one round of the segmenter. *)
Lemma scanRune_typed d len st i ch :
  scanRune (asSegmenter d len st) i ch
  = asSegmenter d len <$> Typed.scanRune d len st i ch.
Proof.
  unfold scanRune, Typed.scanRune.
  change (set_foundBestEdge false (set_bestEdge (Edge.mk 0 0 0) (asSegmenter d len st)))
    with (asSegmenter d len (Typed.Locals.set_bestEdge None st)).
  generalize (Typed.Locals.set_bestEdge None st). clear st. intros st.
  destruct (IsLatin ch); [|destruct (IsSpace ch)].
  - rewrite flushSpace_typed. destruct (Typed.flushSpace st i) as [s1|]; simpl_opt; [|done].
    rewrite openLatin_typed, closeLatin_typed.
    destruct (Typed.closeLatin _ _ _) as [s2|]; simpl_opt; [|done].
    apply commitEdge_typed.
  - rewrite flushLatin_typed. destruct (Typed.flushLatin st i) as [s1|]; simpl_opt; [|done].
    rewrite openSpace_typed, closeSpace_typed.
    destruct (Typed.closeSpace _ _ _) as [s2|]; simpl_opt; [|done].
    apply commitEdge_typed.
  - rewrite flushSpace_typed. destruct (Typed.flushSpace st i) as [s1|]; simpl_opt; [|done].
    rewrite flushLatin_typed. destruct (Typed.flushLatin s1 i) as [s2|]; simpl_opt; [|done].
    rewrite advancePointers_typed.
    destruct (Typed.advancePointers d s2 ch) as [s3|]; simpl_opt; [|done].
    change (Segmenter.pointers (asSegmenter d len s3)) with (Typed.Locals.pointers s3).
    rewrite chooseDictEdge_typed.
    destruct (Typed.chooseDictEdge _ _ _) as [s4|]; simpl_opt; [|done].
    apply commitEdge_typed.
Qed.

Lemma scanFrom_typed d len line : forall st i,
  scanFrom (asSegmenter d len st) i line
  = asSegmenter d len <$> Typed.scanFrom d len st i line.
Proof.
  induction line as [|ch line IH]; intros st i; cbn [scanFrom Typed.scanFrom]; [done|].
  rewrite scanRune_typed.
  destruct (Typed.scanRune d len st i ch) as [st1|]; simpl_opt; [|done]. apply IH.
Qed.

(** The start of the free-standing [BuildPath] is the state that the
    reset block of the segmenter leaves. *)
Lemma resetScratch_typed d L :
  resetScratch (Segmenter.new d) L
  = Some (asSegmenter d (Z.of_nat (length L))
            (Typed.Locals.mk
               (SData (<[0%nat := Typed.Edge.mk 0 Typed.INIT 0 0]>
                         (replicate (Z.to_nat (Z.of_nat (length L) + 1))
                                    (Typed.Edge.mk 0 0 0 0))))
               0 0 false 0 false None SNil)).
Proof.
  unfold resetScratch, asSegmenter. cbn. unfold slice_make.
  rewrite bool_decide_eq_true_2 by lia. cbn.
  replace (Z.to_nat (Z.of_nat (length L) + 1)) with (S (length L)) by lia.
  cbn. by rewrite fmap_replicate.
Qed.

Lemma BuildPath_typed line d :
  Segmenter.path <$> BuildPath (Segmenter.new d) (runes line)
  = slice_map untyped <$> Typed.BuildPath line d.
Proof.
  unfold BuildPath, Typed.BuildPath. generalize (runes line) as L. intros L.
  rewrite resetScratch_typed. simpl_opt.
  unfold slice_make. rewrite bool_decide_eq_true_2 by lia. simpl_opt.
  unfold slice_set at 1. unfold slice_len. cbn [elems].
  rewrite bool_decide_eq_true_2 by (rewrite length_replicate; lia). simpl_opt.
  change (Z.to_nat 0) with 0%nat. rewrite scanFrom_typed.
  by destruct (Typed.scanFrom _ _ _ _ _).
Qed.

(** ** The ranges of the free-standing version *)

Lemma collectRanges_spec P a :
  path_ok (untyped <$> P) a -> a < Z.of_nat (length P) ->
  forall rounds e j ranges,
    0 <= e <= a -> e <= j < Z.of_nat (length ranges) -> e < Z.of_nat rounds ->
    exists ranges' j' rs,
      Typed.collectRanges rounds (SData P) (SData ranges) e j = Some (SData ranges', j') /\
      length ranges' = length ranges /\ 0 <= j' + 1 <= j + 1 /\
      drop (Z.to_nat (j' + 1)) ranges' = rs ++ drop (Z.to_nat (j + 1)) ranges /\
      rangesTo P e rs.
Proof.
  intros [H0 Hp] Hlen.
  induction rounds as [|rounds IH]; intros e j ranges He Hj Hr; [lia|].
  cbn [Typed.collectRanges]. destruct (0 <? e) eqn:Hpos.
  - apply Z.ltb_lt in Hpos.
    destruct (lookup_lt_is_Some_2 P (Z.to_nat e)) as [edge Hedge]; [lia|].
    rewrite (slice_get_data _ _ edge) by (done || lia). simpl_opt.
    destruct (Hp e (untyped edge)) as [Hs _]; [lia|by rewrite list_lookup_fmap, Hedge|].
    cbn in Hs. rewrite slice_set_data by lia. simpl_opt.
    set (r := Typed.TextRange.mk _ _).
    destruct (IH (Typed.Edge.S edge) (j - 1) (<[Z.to_nat j := r]> ranges))
      as (ranges' & j' & rs & -> & Hlen' & Hj' & Hdrop & Hchain);
      [lia|rewrite length_insert; lia|lia|].
    exists ranges', j', (rs ++ [r]). split; [done|].
    split; [by rewrite Hlen', length_insert|]. split; [lia|]. split; [|by econstructor].
    rewrite Hdrop, <- app_assoc. f_equal.
    replace (Z.to_nat (j - 1 + 1)) with (Z.to_nat j) by lia.
    replace (Z.to_nat (j + 1)) with (S (Z.to_nat j)) by lia.
    erewrite drop_S; [|apply list_lookup_insert_eq; lia].
    cbn. f_equal. by rewrite drop_insert_lt by lia.
  - apply Z.ltb_ge in Hpos. assert (e = 0) as -> by lia.
    exists ranges, j, []. split; [done|]. split; [done|]. split; [lia|].
    split; [done|constructor].
Qed.

Lemma rangesTo_tokensTo P L e rs :
  rangesTo P e rs -> tokensTo (untyped <$> P) L e (rangeToken L <$> rs).
Proof.
  induction 1 as [|e edge rs Hedge Hs _ IH]; [constructor|].
  rewrite fmap_app. cbn [fmap list_fmap].
  change (rangeToken L (Typed.TextRange.mk (Typed.Edge.S edge) e))
    with (take (Z.to_nat (e - Edge.S (untyped edge)))
               (drop (Z.to_nat (Edge.S (untyped edge))) L)).
  apply tokensTo_step; [by rewrite list_lookup_fmap, Hedge|done|done].
Qed.

Lemma tokensTo_inj E L e out1 : tokensTo E L e out1 ->
  forall out2, tokensTo E L e out2 -> out1 = out2.
Proof.
  induction 1 as [|e edge out1 Hedge Hs _ IH]; intros out2 H2.
  - inversion H2 as [|e' edge' out' Hedge' Hs' Hc']; [done|]. lia.
  - inversion H2 as [He0|e' edge' out' Hedge' Hs' Hc']; [lia|]. subst.
    rewrite Hedge in Hedge'. simplify_eq. f_equal. by apply IH.
Qed.

Lemma tiles_snoc rs a s e :
  tiles rs a s -> s < e -> tiles (rs ++ [Typed.TextRange.mk s e]) a e.
Proof.
  revert a. induction rs as [|r rs IH]; intros a; cbn [tiles app].
  - intros -> Hse. done.
  - intros (Hr & Hlt & Hrest) Hse. split; [done|]. split; [done|]. by apply IH.
Qed.

Lemma rangesTo_tiles P e rs : rangesTo P e rs -> tiles rs 0 e.
Proof.
  induction 1 as [|e edge rs Hedge Hs _ IH]; [done|]. apply tiles_snoc; [done|lia].
Qed.

Lemma rangesTo_within P e rs :
  rangesTo P e rs ->
  Forall (fun r => 0 <= Typed.TextRange.s r <= Typed.TextRange.e r /\
                   Typed.TextRange.e r <= e) rs.
Proof.
  induction 1 as [|e edge rs Hedge Hs _ IH]; [constructor|].
  apply Forall_app. split.
  - eapply Forall_impl; [done|]. cbn. intros r ?. lia.
  - apply Forall_singleton. cbn. lia.
Qed.

Lemma fillTokens_spec L rs : forall i toks,
  Forall (fun r => 0 <= Typed.TextRange.s r <= Typed.TextRange.e r /\
                   Typed.TextRange.e r <= Z.of_nat (length L)) rs ->
  (i + length rs <= length toks)%nat ->
  Typed.fillTokens L rs (Z.of_nat i) (SData toks)
  = Some (SData (take i toks ++ (rangeToken L <$> rs) ++ drop (i + length rs) toks)).
Proof.
  induction rs as [|r rs IH]; intros i toks Hrs Hlen; cbn [Typed.fillTokens].
  - cbn. by rewrite Nat.add_0_r, take_drop.
  - apply Forall_cons in Hrs as [Hr Hrs]. cbn [length] in Hlen.
    unfold slice_range. rewrite bool_decide_eq_true_2 by lia. simpl_opt.
    rewrite slice_set_data by lia. simpl_opt.
    replace (Z.of_nat i + 1) with (Z.of_nat (S i)) by lia.
    rewrite IH; [|done|rewrite length_insert; lia].
    do 2 f_equal. rewrite Nat2Z.id.
    rewrite (take_S_r _ i (rangeToken L r)) by (apply list_lookup_insert_eq; lia).
    rewrite take_insert_ge by lia. rewrite <- app_assoc. cbn [app fmap list_fmap].
    do 3 f_equal. rewrite drop_insert_lt by lia. f_equal. cbn [length]. lia.
Qed.

(** The free-standing [Segment], step by step. *)
Lemma Segment_typed_spec line d :
  exists P rs out,
    Typed.BuildPath line d = Some (SData P) /\
    edges (runes line) d = Some (untyped <$> P) /\
    Typed.PathToRanges (SData P) = Some rs /\
    rangesTo P (Z.of_nat (length (runes line))) rs /\
    Typed.Segment line d = Some out /\ segment (runes line) d = Some out.
Proof.
  pose proof (BuildPath_typed line d) as HB. unfold Typed.Segment.
  set (L := runes line) in *.
  destruct (segment_spec L d) as (out & E & last & Hseg & HE & Hlen & Hok & _).
  pose proof HE as HE'. unfold edges in HE'.
  apply bind_Some in HE' as (smF & HsmF & HE'). rewrite HsmF in HB. cbn in HB.
  destruct (Typed.BuildPath line d) as [tp|] eqn:Htp; [|done]. cbn in HB.
  injection HB as HB. rewrite HB in HE'.
  destruct tp as [|P]; cbn in HE'; simplify_eq; [cbn in Hlen; lia|].
  rewrite length_fmap in Hlen.
  destruct (collectRanges_spec P (Z.of_nat (length L)) Hok ltac:(lia)
              (Z.to_nat (Z.of_nat (length P)) + 1)%nat (Z.of_nat (length L))
              (Z.of_nat (length L))
              (replicate (Z.to_nat (Z.of_nat (length P))) (Typed.TextRange.mk 0 0)))
    as (ranges' & j' & rs & Hc & Hlen' & Hj' & Hdrop & Hchain);
    [lia|rewrite length_replicate; lia|lia|].
  rewrite length_replicate in Hlen'.
  rewrite (drop_ge (replicate _ _)), app_nil_r in Hdrop by (rewrite length_replicate; lia).
  assert (Typed.PathToRanges (SData P) = Some rs) as Hranges.
  { unfold Typed.PathToRanges, slice_make, slice_len. cbn [elems].
    rewrite bool_decide_eq_true_2 by lia. simpl_opt. cbn [elems].
    rewrite length_replicate.
    replace (Z.of_nat (length P) - 1) with (Z.of_nat (length L)) by lia.
    replace (Z.of_nat (Z.to_nat (Z.of_nat (length P))) - 1)
      with (Z.of_nat (length L)) by lia.
    replace (Z.to_nat (Z.of_nat (Z.to_nat (Z.of_nat (length P)))))
      with (Z.to_nat (Z.of_nat (length P))) by lia.
    rewrite Hc. simpl_opt. cbn [elems].
    unfold slice_range. rewrite bool_decide_eq_true_2 by lia. f_equal.
    rewrite take_ge by (rewrite length_drop; lia). done. }
  pose proof (rangesTo_tokensTo P L _ rs Hchain) as Htok.
  pose proof (segment_tokensTo L d out _ Hseg HE) as Htok'.
  rewrite (tokensTo_inj _ _ _ _ Htok' _ Htok) in *.
  exists P, rs, (rangeToken L <$> rs). repeat split; try done.
  simpl_opt. rewrite Hranges. simpl_opt.
  unfold slice_make. rewrite bool_decide_eq_true_2 by lia. simpl_opt.
  rewrite Nat2Z.id. change 0 with (Z.of_nat 0) at 1.
  rewrite (fillTokens_spec L rs 0 (replicate (length rs) []));
    [|by eapply rangesTo_within|rewrite length_replicate; lia].
  simpl_opt. cbn [elems]. rewrite take_0, drop_ge by (rewrite length_replicate; lia).
  by rewrite app_nil_r.
Qed.

(** X14 ([BuildPath], [PathToRanges] and [Segment] as free functions):
    the free-standing version returns, on every line, well-formed UTF-8
    or not, and for every dictionary, the tokens that the segmenter
    returns on the codepoints of the line. *)
Theorem free_functions_return_the_same_tokens (line : list Z) (d : PrefixTree) :
  Typed.Segment line d = segment (runes line) d.
Proof.
  destruct (Segment_typed_spec line d) as (P & rs & out & _ & _ & _ & _ & -> & ->).
  done.
Qed.

(** X15 ([PathToRanges] after [BuildPath]): the ranges tile the line.
    The first starts at 0, each one is not empty and starts where the one
    before it ends, and the last ends at the end of the line. *)
Theorem ranges_tile_the_line (line : list Z) (d : PrefixTree) :
  exists rs,
    Typed.BuildPath line d ≫= Typed.PathToRanges = Some rs /\
    tiles rs 0 (Z.of_nat (length (runes line))).
Proof.
  destruct (Segment_typed_spec line d) as (P & rs & out & HB & _ & Hr & Hchain & _).
  exists rs. rewrite HB. split; [done|]. by eapply rangesTo_tiles.
Qed.

(** ** What the types of the edges say *)

Lemma span_snoc L s i ch :
  0 <= s <= i -> L !! Z.to_nat i = Some ch -> span L s (i + 1) = span L s i ++ [ch].
Proof.
  intros Hs Hch. unfold span.
  replace (Z.to_nat (i + 1 - s)) with (S (Z.to_nat (i - s))) by lia.
  apply take_S_r. rewrite lookup_drop. by replace (Z.to_nat s + Z.to_nat (i - s))%nat
    with (Z.to_nat i) by lia.
Qed.

Lemma span_empty L i : span L i i = [].
Proof. unfold span. by rewrite Z.sub_diag. Qed.

Lemma good_edge_insert L P k e j x :
  k <= j -> good_edge L P k e -> good_edge L (<[Z.to_nat j := x]> P) k e.
Proof.
  intros Hj (Hs & src & Hsrc & H). split; [done|]. exists src.
  rewrite list_lookup_insert_ne by lia. done.
Qed.

Lemma tinv_weaken L a b st :
  typed_inv L a b st -> Typed.Locals.foundLatin st = false ->
  Typed.Locals.foundSpace st = false -> forall b', typed_inv L a b' st.
Proof.
  intros [Hp Hl HL HS Hq] HfL HfS b'. constructor; try done.
  - by rewrite HfL.
  - by rewrite HfS.
Qed.

(** The flush of a space run writes a good edge of type [SPACE]. *)
Lemma flushSpace_tinv L i st st1 :
  0 <= i -> typed_inv L i i st -> Typed.flushSpace st i = Some st1 ->
  typed_inv L i i st1 /\ Typed.Locals.foundSpace st1 = false /\
  Typed.Locals.bestEdge st1 = Typed.Locals.bestEdge st /\
  Typed.Locals.foundLatin st1 = Typed.Locals.foundLatin st.
Proof.
  intros Hi [(P & HP & Hlen & Hgood) Hl HL HS Hq] H.
  destruct st as [p lb sL fL sS fS be ptrs]. cbn in *. subst p.
  unfold Typed.flushSpace, Typed.edgeFrom in H. cbn in H.
  destruct fS; [|simplify_eq; split; [constructor; cbn; eauto|done]].
  destruct (HS eq_refl) as [HsS Hspan].
  apply bind_Some in H as (e & He & H). apply bind_Some in He as (src & Hsrc & He).
  apply bind_Some in H as (p & Hp & H). apply slice_set_Some in Hp as [Hir ->].
  apply slice_get_Some in Hsrc as [_ Hsrc]. cbn [elems] in *. simplify_eq.
  split; [|done]. constructor; cbn; try done; try lia.
  eexists. split; [done|]. split; [by rewrite list_lookup_insert_ne by lia|].
  intros k e Hk He.
  destruct (decide (k = i)) as [->|Hne].
  - rewrite list_lookup_insert_eq in He by (unfold slice_len in Hir; cbn in Hir; lia).
    simplify_eq. split; [done|]. exists src. cbn.
    rewrite list_lookup_insert_ne by lia. split; [done|]. split; [done|]. auto 10.
  - rewrite list_lookup_insert_ne in He by lia.
    apply good_edge_insert; [lia|]. by apply Hgood.
Qed.

(** The flush of a Latin run writes a good edge of type [LATIN]. *)
Lemma flushLatin_tinv L i st st1 :
  0 <= i -> typed_inv L i i st -> Typed.flushLatin st i = Some st1 ->
  typed_inv L i i st1 /\ Typed.Locals.foundLatin st1 = false /\
  Typed.Locals.bestEdge st1 = Typed.Locals.bestEdge st /\
  Typed.Locals.foundSpace st1 = Typed.Locals.foundSpace st.
Proof.
  intros Hi [(P & HP & Hlen & Hgood) Hl HL HS Hq] H.
  destruct st as [p lb sL fL sS fS be ptrs]. cbn in *. subst p.
  unfold Typed.flushLatin, Typed.edgeFrom in H. cbn in H.
  destruct fL; [|simplify_eq; split; [constructor; cbn; eauto|done]].
  destruct (HL eq_refl) as [HsL Hspan].
  apply bind_Some in H as (e & He & H). apply bind_Some in He as (src & Hsrc & He).
  apply bind_Some in H as (p & Hp & H). apply slice_set_Some in Hp as [Hir ->].
  apply slice_get_Some in Hsrc as [_ Hsrc]. cbn [elems] in *. simplify_eq.
  split; [|done]. constructor; cbn; try done; try lia.
  eexists. split; [done|]. split; [by rewrite list_lookup_insert_ne by lia|].
  intros k e Hk He.
  destruct (decide (k = i)) as [->|Hne].
  - rewrite list_lookup_insert_eq in He by (unfold slice_len in Hir; cbn in Hir; lia).
    simplify_eq. split; [done|]. exists src. cbn.
    rewrite list_lookup_insert_ne by lia. split; [done|]. split; [done|]. auto 10.
  - rewrite list_lookup_insert_ne in He by lia.
    apply good_edge_insert; [lia|]. by apply Hgood.
Qed.

Lemma openLatin_tinv L i st ch :
  0 <= i -> typed_inv L i i st -> Typed.Locals.foundSpace st = false ->
  L !! Z.to_nat i = Some ch -> IsLatin ch = true ->
  typed_inv L i (i + 1) (Typed.openLatin st i) /\
  Typed.Locals.foundLatin (Typed.openLatin st i) = true /\
  Typed.Locals.bestEdge (Typed.openLatin st i) = Typed.Locals.bestEdge st.
Proof.
  intros Hi [HP Hl HL HS Hq] HfS Hch Hlat.
  destruct st as [p lb sL fL sS fS be ptrs]. cbn in *. subst fS.
  unfold Typed.openLatin. cbn. destruct fL; cbn.
  - split; [|done]. constructor; cbn; try done. intros _.
    destruct (HL eq_refl) as [Hs Hspan]. split; [lia|].
    rewrite (span_snoc L sL i ch) by (done || lia).
    apply Forall_app. split; [done|by apply Forall_singleton].
  - split; [|done]. constructor; cbn; try done. intros _. split; [lia|].
    rewrite (span_snoc L i i ch), span_empty by (done || lia).
    by apply Forall_singleton.
Qed.

Lemma openSpace_tinv L i st ch :
  0 <= i -> typed_inv L i i st -> Typed.Locals.foundLatin st = false ->
  L !! Z.to_nat i = Some ch -> spaceClass ch ->
  typed_inv L i (i + 1) (Typed.openSpace st i) /\
  Typed.Locals.foundSpace (Typed.openSpace st i) = true /\
  Typed.Locals.bestEdge (Typed.openSpace st i) = Typed.Locals.bestEdge st.
Proof.
  intros Hi [HP Hl HL HS Hq] HfL Hch Hsp.
  destruct st as [p lb sL fL sS fS be ptrs]. cbn in *. subst fL.
  unfold Typed.openSpace. cbn. destruct fS; cbn.
  - split; [|done]. constructor; cbn; try done. intros _.
    destruct (HS eq_refl) as [Hs Hspan]. split; [lia|].
    rewrite (span_snoc L sS i ch) by (done || lia).
    apply Forall_app. split; [done|by apply Forall_singleton].
  - split; [|done]. constructor; cbn; try done. intros _. split; [lia|].
    rewrite (span_snoc L i i ch), span_empty by (done || lia).
    by apply Forall_singleton.
Qed.

(** At the last codepoint the open Latin run becomes the tentative best
    edge, of type [LATIN]. *)
Lemma closeLatin_tinv L N i st st3 :
  typed_inv L i (i + 1) st -> Typed.Locals.foundLatin st = true ->
  Typed.Locals.bestEdge st = None ->
  Typed.closeLatin N st i = Some st3 ->
  typed_inv L i (i + 1) st3 /\ good_best L i st3.
Proof.
  intros [(P & HP & H0 & Hgood) Hl HL HS Hq] HfL Hbe H.
  destruct st as [p lb sL fL sS fS be ptrs]. cbn in *. subst p fL be.
  unfold Typed.closeLatin, Typed.edgeFrom in H. cbn in H.
  destruct (i =? N - 1).
  - apply bind_Some in H as (e & He & H). apply bind_Some in He as (src & Hsrc & He).
    apply slice_get_Some in Hsrc as [_ Hsrc]. cbn [elems] in *. simplify_eq.
    destruct (HL eq_refl) as [HsL Hspan].
    split; [constructor; cbn; eauto; done|].
    intros b Hb. cbn in *. simplify_eq. split; [done|]. exists src. cbn. auto 10.
  - simplify_eq. split; [constructor; cbn; eauto|]. by intros b Hb.
Qed.

Lemma closeSpace_tinv L N i st st3 :
  typed_inv L i (i + 1) st -> Typed.Locals.foundSpace st = true ->
  Typed.Locals.bestEdge st = None ->
  Typed.closeSpace N st i = Some st3 ->
  typed_inv L i (i + 1) st3 /\ good_best L i st3.
Proof.
  intros [(P & HP & H0 & Hgood) Hl HL HS Hq] HfS Hbe H.
  destruct st as [p lb sL fL sS fS be ptrs]. cbn in *. subst p fS be.
  unfold Typed.closeSpace, Typed.edgeFrom in H. cbn in H.
  destruct (i =? N - 1).
  - apply bind_Some in H as (e & He & H). apply bind_Some in He as (src & Hsrc & He).
    apply slice_get_Some in Hsrc as [_ Hsrc]. cbn [elems] in *. simplify_eq.
    destruct (HS eq_refl) as [HsS Hspan].
    split; [constructor; cbn; eauto; done|].
    intros b Hb. cbn in *. simplify_eq. split; [done|]. exists src. cbn. auto 10.
  - simplify_eq. split; [constructor; cbn; eauto|]. by intros b Hb.
Qed.

Lemma advancePointers_typed_eq d st ch :
  Typed.advancePointers d st ch =
  Some (Typed.Locals.set_pointers
          (SData (omap (stepPointer d ch)
                       (elems (Typed.Locals.pointers st) ++ [zeroPointer]))) st).
Proof.
  unfold Typed.advancePointers, slice_append. cbn [elems].
  destruct (compactPointers_spec d ch
              (elems (Typed.Locals.pointers st) ++ [zeroPointer]) [] []) as [mid' H].
  cbn [app length Nat.add] in H. change (Z.of_nat 0) with 0 in H.
  rewrite H. cbn [mbind option_bind].
  unfold slice_take, slice_len. cbn [elems].
  rewrite bool_decide_eq_true_2 by (rewrite length_app; lia).
  cbn [mbind option_bind]. rewrite Nat2Z.id, take_app_length. done.
Qed.

Lemma considerPointer_tinv L i b st q st' :
  typed_inv L i b st -> good_best L i st -> 1 <= DictBuilderPointer.Offset q ->
  Typed.considerPointer st i q = Some st' ->
  typed_inv L i b st' /\ good_best L i st'.
Proof.
  intros Hinv Hbest Hq H. unfold Typed.considerPointer in H.
  destruct (DictBuilderPointer.IsFinal q); [|by simplify_eq].
  apply bind_Some in H as (edge & Hedge & H).
  assert (typed_inv L i b (Typed.Locals.set_bestEdge (Some edge) st) /\
          good_best L i (Typed.Locals.set_bestEdge (Some edge) st)) as Hnew.
  { unfold Typed.edgeFrom in Hedge. apply bind_Some in Hedge as (src & Hsrc & Hedge).
    apply slice_get_Some in Hsrc as [Hs Hsrc]. simplify_eq. split.
    - destruct Hinv as [HP Hl HL HS Hptr]. by constructor.
    - intros b' Hb'. cbn in Hb'. simplify_eq. split; [cbn; lia|].
      exists src. cbn. auto. }
  destruct (Typed.Locals.bestEdge st) as [best|]; [|by simplify_eq].
  destruct (Typed.supersedes edge best); by simplify_eq.
Qed.

Lemma chooseDictEdge_tinv L i b ptrs : forall st st',
  typed_inv L i b st -> good_best L i st ->
  Forall (fun q => 1 <= DictBuilderPointer.Offset q) ptrs ->
  Typed.chooseDictEdge st i ptrs = Some st' ->
  typed_inv L i b st' /\ good_best L i st'.
Proof.
  induction ptrs as [|q ptrs IH]; intros st st' Hinv Hbest Hptrs H;
    cbn [Typed.chooseDictEdge] in H; [by simplify_eq|].
  apply Forall_cons in Hptrs as [Hq Hptrs].
  apply bind_Some in H as (st1 & H1 & H).
  destruct (considerPointer_tinv L i b st q st1 Hinv Hbest Hq H1) as [Hinv1 Hbest1].
  by eapply IH.
Qed.

(** The tail of the loop body writes a good edge at [i + 1]: the
    tentative best edge, or an edge of type [UNK]. *)
Lemma commitEdge_tinv L i st st' :
  0 <= i -> typed_inv L i (i + 1) st -> good_best L i st ->
  Typed.commitEdge st i = Some st' ->
  typed_inv L (i + 1) (i + 1) st'.
Proof.
  intros Hi [(P & HP & H0 & Hgood) Hl HL HS Hq] Hbest H.
  destruct st as [p lb sL fL sS fS be ptrs]. cbn in *. subst p.
  unfold Typed.commitEdge in H. cbn in H.
  assert (forall b lb', 0 <= lb' <= i + 1 -> good_edge L P (i + 1) b ->
            0 <= i + 1 < slice_len (SData P) ->
            typed_inv L (i + 1) (i + 1)
              (Typed.Locals.mk (SData (<[Z.to_nat (i + 1) := b]> P)) lb' sL fL sS fS
                               (Some b) ptrs)) as Hwrite.
  { intros b lb' Hlb' Hb Hir. constructor; cbn; try done.
    eexists. split; [done|]. split; [by rewrite list_lookup_insert_ne by lia|].
    intros k e Hk He. destruct (decide (k = i + 1)) as [->|Hne].
    - rewrite list_lookup_insert_eq in He by (unfold slice_len in Hir; cbn in Hir; lia).
      simplify_eq. apply good_edge_insert; [lia|done].
    - rewrite list_lookup_insert_ne in He by lia.
      apply good_edge_insert; [lia|]. apply Hgood; [lia|done]. }
  destruct be as [b|]; cbn in H.
  - apply bind_Some in H as (p & Hp & H). apply slice_set_Some in Hp as [Hir ->].
    simplify_eq. cbn [elems]. apply Hwrite; [lia|by apply Hbest|done].
  - apply bind_Some in H as (st1 & H1 & H). apply bind_Some in H1 as (src & Hsrc & H1).
    simplify_eq. cbn in H.
    apply bind_Some in H as (p & Hp & H). apply slice_set_Some in Hp as [Hir ->].
    apply slice_get_Some in Hsrc as [_ Hsrc]. cbn [elems] in *. simplify_eq.
    apply Hwrite; [lia| |done]. split; [cbn; lia|]. exists src. cbn. auto 10.
Qed.

Lemma omap_stepPointer_offsets d ch l :
  Forall (fun q => 0 <= DictBuilderPointer.Offset q) l ->
  Forall (fun q => 1 <= DictBuilderPointer.Offset q)
         (omap (stepPointer d ch) (l ++ [zeroPointer])).
Proof.
  intros Hl. apply Forall_forall. intros q' (q & Hq & Hstep)%list_elem_of_omap.
  apply stepPointer_Offset in Hstep. rewrite Hstep.
  apply elem_of_app in Hq as [Hq| ->%list_elem_of_singleton]; [|cbn; lia].
  rewrite Forall_forall in Hl. specialize (Hl q Hq). lia.
Qed.

(** One round of the free-standing scan keeps the typed edge array good. *)
Lemma scanRune_tinv L d N i st ch st' :
  0 <= i -> typed_inv L i i st -> L !! Z.to_nat i = Some ch ->
  Typed.scanRune d N st i ch = Some st' ->
  typed_inv L (i + 1) (i + 1) st'.
Proof.
  intros Hi Hinv Hch H. unfold Typed.scanRune in H.
  assert (typed_inv L i i (Typed.Locals.set_bestEdge None st)) as Hinv0.
  { destruct Hinv as [HP Hl HL HS Hq]. by constructor. }
  assert (Typed.Locals.bestEdge (Typed.Locals.set_bestEdge None st) = None) as Hbe0 by done.
  revert Hinv0 Hbe0 H. generalize (Typed.Locals.set_bestEdge None st).
  clear st Hinv. intros st Hinv Hbe H.
  apply bind_Some in H as (st4 & Hbranch & Hcommit).
  destruct (IsLatin ch) eqn:HL; [|destruct (IsSpace ch) eqn:HS].
  - apply bind_Some in Hbranch as (st1 & H1 & Hclose).
    destruct (flushSpace_tinv L i st st1 Hi Hinv H1) as (Hinv1 & HfS1 & Hbe1 & _).
    destruct (openLatin_tinv L i st1 ch Hi Hinv1 HfS1 Hch HL) as (Hinv2 & HfL2 & Hbe2).
    destruct (closeLatin_tinv L N i _ st4 Hinv2 HfL2 ltac:(congruence) Hclose)
      as [Hinv3 Hbest3].
    by eapply commitEdge_tinv.
  - apply bind_Some in Hbranch as (st1 & H1 & Hclose).
    destruct (flushLatin_tinv L i st st1 Hi Hinv H1) as (Hinv1 & HfL1 & Hbe1 & _).
    destruct (openSpace_tinv L i st1 ch Hi Hinv1 HfL1 Hch ltac:(done))
      as (Hinv2 & HfS2 & Hbe2).
    destruct (closeSpace_tinv L N i _ st4 Hinv2 HfS2 ltac:(congruence) Hclose)
      as [Hinv3 Hbest3].
    by eapply commitEdge_tinv.
  - apply bind_Some in Hbranch as (st1 & H1 & Hbranch).
    apply bind_Some in Hbranch as (st2 & H2 & Hbranch).
    apply bind_Some in Hbranch as (st3 & H3 & Hchoose).
    destruct (flushSpace_tinv L i st st1 Hi Hinv H1) as (Hinv1 & HfS1 & Hbe1 & _).
    destruct (flushLatin_tinv L i st1 st2 Hi Hinv1 H2) as (Hinv2 & HfL2 & Hbe2 & HfS2).
    pose proof (tinv_weaken L i i st2 Hinv2 HfL2 ltac:(congruence) (i + 1)) as Hinv2'.
    rewrite advancePointers_typed_eq in H3. injection H3 as <-.
    pose proof (omap_stepPointer_offsets d ch _ (tinv_pointers _ _ _ _ Hinv2')) as Hoff.
    set (st3 := Typed.Locals.mk _ _ _ _ _ _ _ _) in Hchoose.
    change (elems (Typed.Locals.pointers st3))
      with (omap (stepPointer d ch) (elems (Typed.Locals.pointers st2) ++ [zeroPointer]))
      in Hchoose.
    assert (typed_inv L i (i + 1) st3) as Hinv3.
    { destruct Hinv2' as [HP Hl HLat HSp Hq]. constructor; cbn; try done.
      eapply Forall_impl; [exact Hoff|]. cbn. intros; lia. }
    assert (good_best L i st3) as Hbest3.
    { intros b Hb. cbn in Hb. congruence. }
    destruct (chooseDictEdge_tinv L i (i + 1) _ st3 st4 Hinv3 Hbest3 Hoff Hchoose)
      as [Hinv4 Hbest4].
    by eapply commitEdge_tinv.
Qed.

Lemma scanFrom_tinv L d N line : forall i st st',
  0 <= i -> typed_inv L i i st -> drop (Z.to_nat i) L = line ->
  Typed.scanFrom d N st i line = Some st' ->
  typed_inv L (i + Z.of_nat (length line)) (i + Z.of_nat (length line)) st'.
Proof.
  induction line as [|ch line IH]; intros i st st' Hi Hinv Hdrop H;
    cbn [Typed.scanFrom] in H.
  - simplify_eq. cbn [length]. by rewrite Z.add_0_r.
  - apply bind_Some in H as (st1 & H1 & H).
    assert (L !! Z.to_nat i = Some ch) as Hch.
    { rewrite <- (Nat.add_0_r (Z.to_nat i)), <- lookup_drop, Hdrop. done. }
    pose proof (scanRune_tinv L d N i st ch st1 Hi Hinv Hch H1) as Hinv1.
    replace (i + Z.of_nat (length (ch :: line)))
      with (i + 1 + Z.of_nat (length line)) by (cbn [length]; lia).
    eapply IH; [lia|done| |done].
    replace (Z.to_nat (i + 1)) with (Z.to_nat i + 1)%nat by lia.
    by rewrite <- drop_drop, Hdrop.
Qed.

(** The typed edge array that the free-standing [BuildPath] returns. *)
Lemma BuildPath_typed_good line d :
  exists P,
    Typed.BuildPath line d = Some (SData P) /\
    P !! 0%nat = Some (Typed.Edge.mk 0 Typed.INIT 0 0) /\
    forall k e, 1 <= k <= Z.of_nat (length (runes line)) ->
                P !! Z.to_nat k = Some e -> good_edge (runes line) P k e.
Proof.
  destruct (Segment_typed_spec line d) as (P & rs & out & HB & _).
  exists P. split; [done|].
  unfold Typed.BuildPath in HB. set (L := runes line) in *.
  apply bind_Some in HB as (p0 & Hp0 & HB). apply bind_Some in HB as (p1 & Hp1 & HB).
  apply bind_Some in HB as (st & Hst & HB). simplify_eq.
  unfold slice_make in Hp0. case_bool_decide; [|done]. simplify_eq.
  apply slice_set_Some in Hp1 as [Hr ->]. cbn [elems] in *.
  unfold slice_len in Hr. cbn [elems] in Hr. rewrite length_replicate in Hr.
  eapply (scanFrom_tinv L d _ L 0) in Hst; [|done| |done].
  - destruct Hst as [(P' & HP' & H0 & Hgood) _ _ _ _]. rewrite HB in HP'. simplify_eq.
    split; [done|]. intros k e Hk. apply Hgood. lia.
  - constructor; cbn; try done; try lia.
    eexists. split; [done|]. split; [|intros; lia].
    apply list_lookup_insert_eq. rewrite length_replicate. lia.
Qed.

(** X16 (the edge array of the free-standing [BuildPath]): entry 0 is
    the edge of type [INIT]; every later entry has one of the types
    [DICT], [UNK], [LATIN], [SPACE], starts at an earlier boundary, counts
    one word more than the entry at its start, and counts one unknown
    token more than that entry exactly when its type is [UNK]. *)
Theorem typed_edges_count_words_and_unknowns (line : list Z) (d : PrefixTree) :
  exists P,
    Typed.BuildPath line d = Some (SData P) /\
    P !! 0%nat = Some (Typed.Edge.mk 0 Typed.INIT 0 0) /\
    forall k e, (1 <= k <= length (runes line))%nat -> P !! k = Some e ->
      Typed.Edge.EdgeType e ∈ [Typed.DICT; Typed.UNK; Typed.LATIN; Typed.SPACE] /\
      0 <= Typed.Edge.S e < Z.of_nat k /\
      exists src,
        P !! Z.to_nat (Typed.Edge.S e) = Some src /\
        Typed.Edge.WordCount e = Typed.Edge.WordCount src + 1 /\
        Typed.Edge.UnkCount e =
          Typed.Edge.UnkCount src
          + (if Typed.Edge.EdgeType e =? Typed.UNK then 1 else 0).
Proof.
  destruct (BuildPath_typed_good line d) as (P & HB & H0 & Hgood).
  exists P. split; [done|]. split; [done|]. intros k e Hk He.
  destruct (Hgood (Z.of_nat k) e ltac:(lia) ltac:(by rewrite Nat2Z.id))
    as (Hs & src & Hsrc & Hwc & Hty).
  assert (Typed.Edge.EdgeType e ∈ [Typed.DICT; Typed.UNK; Typed.LATIN; Typed.SPACE] /\
          Typed.Edge.UnkCount e =
            Typed.Edge.UnkCount src
            + (if Typed.Edge.EdgeType e =? Typed.UNK then 1 else 0)) as [Hin Hunk].
  { destruct Hty as [[-> ->]|[[-> ->]|[(-> & -> & _)|(-> & -> & _)]]];
      (split; [rewrite !elem_of_cons; auto 10|cbn; lia]). }
  split; [done|]. split; [done|]. by exists src.
Qed.

(** X17 (the edge array of the free-standing [BuildPath]): an entry of
    type [LATIN] spans Latin letters only, an entry of type [SPACE]
    spans space-class codepoints only. *)
Theorem typed_runs_hold_their_kind (line : list Z) (d : PrefixTree) :
  exists P,
    Typed.BuildPath line d = Some (SData P) /\
    forall k e, (1 <= k <= length (runes line))%nat -> P !! k = Some e ->
      (Typed.Edge.EdgeType e = Typed.LATIN ->
       Forall (fun ch => IsLatin ch = true)
              (span (runes line) (Typed.Edge.S e) (Z.of_nat k))) /\
      (Typed.Edge.EdgeType e = Typed.SPACE ->
       Forall spaceClass (span (runes line) (Typed.Edge.S e) (Z.of_nat k))).
Proof.
  destruct (BuildPath_typed_good line d) as (P & HB & H0 & Hgood).
  exists P. split; [done|]. intros k e Hk He.
  destruct (Hgood (Z.of_nat k) e ltac:(lia) ltac:(by rewrite Nat2Z.id))
    as (Hs & src & Hsrc & Hwc & Hty).
  split; intros Heq; rewrite Heq in Hty;
    destruct Hty as [[? _]|[[? _]|[(? & _ & ?)|(? & _ & ?)]]]; done.
Qed.
